(** * A shallow embedding of the shared-memory ring and its discovery daemon

    The development follows the C++ sources:
    - [ipc/shared_ring.cpp] together with the declarations of [shared_ring.h]
      (module [Ring]),
    - the second, unannotated copy of the same translation unit
      (module [Plain]),
    - the discovery daemon (module [Daemon]).

    Unsigned 32-bit values and [size_t] values are integers of [Z] whose
    wrap-around is written out; the mapped region is a list of bytes; the
    three named semaphores are counters whose waits consult a schedule of
    interruptions and failures supplied by the environment.

    Platform: Linux on a little-endian LP64 machine ([size_t] and [off_t]
    of 64 bits, [SEM_VALUE_MAX = INT_MAX], [sun_path] of 108 bytes).
    Calls of the ring operations run one after the other, each to its
    end; a call that would wait for another process is reported as
    blocked. *)

From Stdlib Require Import ZArith Lia.
From Stdlib Require Import Strings.Byte Strings.Ascii Strings.String.
From stdpp Require Import base option list gmap strings.

Local Open Scope Z_scope.

(** ** Machine integers *)

Definition UINT32_MOD : Z := 2 ^ 32.
Definition SIZE_MOD : Z := 2 ^ 64.

(** Wrap-around of [uint32_t] and of the 64-bit [size_t]. *)
Definition u32 (z : Z) : Z := z mod UINT32_MOD.
Definition usize (z : Z) : Z := z mod SIZE_MOD.

Definition is_u32 (z : Z) : Prop := 0 <= z < UINT32_MOD.

(** ** Bytes and the native (little-endian) layout of a [uint32_t] *)

Definition byte_of_Z (z : Z) : byte :=
  default x00 (Byte.of_N (Z.to_N (z mod 256))).

Definition Z_of_byte (b : byte) : Z := Z.of_N (Byte.to_N b).

(** [memcpy(dst, &v, sizeof(uint32_t))] writes these four bytes. *)
Definition encode32 (v : Z) : list byte :=
  [ byte_of_Z v; byte_of_Z (v / 2 ^ 8); byte_of_Z (v / 2 ^ 16); byte_of_Z (v / 2 ^ 24) ].

(** [memcpy(&v, src, sizeof(uint32_t))] reads them back. *)
Definition decode32 (bs : list byte) : Z :=
  match bs with
  | [b0; b1; b2; b3] =>
      Z_of_byte b0 + 2 ^ 8 * Z_of_byte b1 + 2 ^ 16 * Z_of_byte b2 + 2 ^ 24 * Z_of_byte b3
  | _ => 0
  end.

(** ** Raw memory: a mapped region is a list of bytes

    A copy that would leave the region is undefined behaviour in the
    source; here it yields [None]. *)

Definition mem_read (m : list byte) (off n : Z) : option (list byte) :=
  if decide (0 <= off ∧ 0 <= n ∧ off + n <= Z.of_nat (length m))
  then Some (take (Z.to_nat n) (drop (Z.to_nat off) m))
  else None.

Definition mem_write (m : list byte) (off : Z) (src : list byte) : option (list byte) :=
  if decide (0 <= off ∧ off + Z.of_nat (length src) <= Z.of_nat (length m))
  then Some (take (Z.to_nat off) m ++ src ++ drop (Z.to_nat off + length src) m)
  else None.

Definition load32 (m : list byte) (off : Z) : option Z :=
  decode32 <$> mem_read m off 4.

Definition store32 (m : list byte) (off v : Z) : option (list byte) :=
  mem_write m off (encode32 v).

(** [std::memset(p, 0, n)] *)
Definition zeros (n : Z) : list byte := replicate (Z.to_nat n) x00.

(** ** The shared objects of one ring and the calling process

    A [world] holds what the handle's pointers designate: the mapped region
    ([map_ptr_], of which [hdr_] is offset 0 and [slots_start_] is offset
    [sizeof(RingHeader)]) and the values of the three named semaphores,
    together with the caller's [errno] and the schedule of what the next
    calls of [sem_wait] will meet. *)

Inductive errno_t := ENONE | EINTR | EINVAL | EOVERFLOW.

Inductive wait_event :=
  | WaitGranted        (* the wait proceeds normally *)
  | WaitInterrupted    (* a signal handler interrupts the wait: EINTR *)
  | WaitFailed.        (* the wait fails with an error other than EINTR *)

Inductive sem_id := SemFree | SemFilled | SemMutex.

Record world := World {
  shm : list byte;
  free : Z;
  filled : Z;
  mutex : Z;
  errno : errno_t;
  schedule : list wait_event
}.

Definition sem_value (s : sem_id) (w : world) : Z :=
  match s with SemFree => free w | SemFilled => filled w | SemMutex => mutex w end.

Definition set_sem (s : sem_id) (v : Z) (w : world) : world :=
  match s with
  | SemFree => World (shm w) v (filled w) (mutex w) (errno w) (schedule w)
  | SemFilled => World (shm w) (free w) v (mutex w) (errno w) (schedule w)
  | SemMutex => World (shm w) (free w) (filled w) v (errno w) (schedule w)
  end.

Definition set_shm (m : list byte) (w : world) : world :=
  World m (free w) (filled w) (mutex w) (errno w) (schedule w).

Definition set_errno (e : errno_t) (w : world) : world :=
  World (shm w) (free w) (filled w) (mutex w) e (schedule w).

Definition set_schedule (evs : list wait_event) (w : world) : world :=
  World (shm w) (free w) (filled w) (mutex w) (errno w) evs.

Inductive fault :=
  | OutOfBounds     (* a copy leaves the mapped region or the caller's buffer *)
  | DivByZero.      (* [x % 0] *)

(** What a call does: it returns, it parks for ever on a semaphore whose
    value is 0 (no other process runs in this sequential model), it runs
    into undefined behaviour, or a bounded loop of the model runs dry
    ([sem_wait_intr_total] shows that this last case never arises). *)
Inductive outcome (A : Type) :=
  | Done (a : A) (w : world)
  | Blocked (s : sem_id)
  | Fault (f : fault)
  | Spin.
Arguments Done {A} a w.
Arguments Blocked {A} s.
Arguments Fault {A} f.
Arguments Spin {A}.

Definition M (A : Type) : Type := world → outcome A.

#[global] Instance M_ret : MRet M := λ A a w, Done a w.
#[global] Instance M_bind : MBind M := λ A B f c w,
  match c w with
  | Done a w' => f a w'
  | Blocked s => Blocked s
  | Fault e => Fault e
  | Spin => Spin
  end.

Definition get_errno : M errno_t := λ w, Done (errno w) w.

Definition raise {A} (f : fault) : M A := λ _, Fault f.

(** ** POSIX semaphores *)

(** The largest value of a semaphore ([INT_MAX] on Linux): [sem_open]
    refuses a larger initial value and [sem_post] a further increment. *)
Definition SEM_VALUE_MAX : Z := 2 ^ 31 - 1.

(** [sem_wait]: returns 0 after taking one token, or -1 with [errno] set. *)
Definition sem_wait (s : sem_id) : M Z := λ w,
  match schedule w with
  | WaitInterrupted :: evs => Done (-1) (set_errno EINTR (set_schedule evs w))
  | WaitFailed :: evs => Done (-1) (set_errno EINVAL (set_schedule evs w))
  | evs =>
      if decide (0 < sem_value s w)
      then Done 0 (set_sem s (sem_value s w - 1) (set_schedule (tail evs) w))
      else Blocked s
  end.

(** [sem_post]: adds one token; fails with EOVERFLOW at [SEM_VALUE_MAX]. *)
Definition sem_post (s : sem_id) : M Z := λ w,
  if decide (sem_value s w < SEM_VALUE_MAX)
  then Done 0 (set_sem s (sem_value s w + 1) w)
  else Done (-1) (set_errno EOVERFLOW w).

(** ** Access to the mapped region *)

(** [struct RingHeader]: six [uint32_t] fields and [uint8_t reserved[28]]. *)
Definition OFF_magic : Z := 0.
Definition OFF_version : Z := 4.
Definition OFF_slot_count : Z := 8.
Definition OFF_slot_size : Z := 12.
Definition OFF_head : Z := 16.
Definition OFF_tail : Z := 20.
Definition sizeof_RingHeader : Z := 52.
Definition sizeof_uint32 : Z := 4.
Definition RING_MAGIC : Z := 0xA1B2C3D4.

(** [hdr_->field] *)
Definition hdr_get (off : Z) : M Z := λ w,
  match load32 (shm w) off with
  | Some v => Done v w
  | None => Fault OutOfBounds
  end.

(** [hdr_->field = v] *)
Definition hdr_set (off v : Z) : M unit := λ w,
  match store32 (shm w) off v with
  | Some m => Done () (set_shm m w)
  | None => Fault OutOfBounds
  end.

(** [std::memcpy(map_ptr_ + off, src, |src|)] *)
Definition memcpy_to (off : Z) (src : list byte) : M unit := λ w,
  match mem_write (shm w) off src with
  | Some m => Done () (set_shm m w)
  | None => Fault OutOfBounds
  end.

(** [std::memcpy(dst, map_ptr_ + off, n)] *)
Definition memcpy_from (off n : Z) : M (list byte) := λ w,
  match mem_read (shm w) off n with
  | Some bs => Done bs w
  | None => Fault OutOfBounds
  end.

(** The first [len] bytes of the caller's buffer [data]. *)
Definition buffer_prefix (data : list byte) (len : Z) : M (list byte) :=
  if decide (0 <= len <= Z.of_nat (length data))
  then mret (take (Z.to_nat len) data)
  else raise OutOfBounds.

(** [a % b] on [uint32_t] *)
Definition umod (a b : Z) : M Z :=
  if decide (b = 0) then raise DivByZero else mret (a mod b).

(** ** The handle *)

Record SharedRing := {
  shm_name_ : string;
  map_size_ : Z;
  slot_count_ : Z;
  slot_size_ : Z;
  owner_ : bool;
  sem_free_ : option string;        (* [None] is [SEM_FAILED] *)
  sem_filled_ : option string;
  sem_mutex_ : option string;
  sem_free_name_ : string;
  sem_filled_name_ : string;
  sem_mutex_name_ : string
}.

(** [std::string s = base; for (char &c : s) if (c == '/') c = '_';] *)
Fixpoint replace_slashes (s : string) : string :=
  match s with
  | EmptyString => EmptyString
  | String c s' => String (if decide (c = "/"%char) then "_"%char else c) (replace_slashes s')
  end.

(** The slot of index [idx]: [slots_start_ + (size_t)idx * (sizeof(uint32_t) + slot_size_)],
    as an offset into the mapped region. *)
Definition slot_offset (slot_size idx : Z) : Z :=
  sizeof_RingHeader + usize (idx * usize (sizeof_uint32 + slot_size)).

(** ** The kernel name space: shared-memory objects and named semaphores

    The calls below are those of a system that has the address space a
    mapping asks for and that takes every string as the name of an
    object: [shm_open], [sem_open] and [mmap] fail for what the name
    space holds (an object that is missing or already there, an initial
    value above [SEM_VALUE_MAX], a length of 0), never for a name the
    system does not allow or for lack of memory.  What is stated below
    about the outcome of [create_or_open] is stated for such a system;
    on a real system a call can fail earlier, in one of these calls. *)

Record kernel := Kernel {
  shm_objs : gmap string (list byte);
  sem_objs : gmap string Z
}.

(** A system-level call returns, fails with the diagnostic it prints
    (the calls of [create_or_open] then return [nullptr]), or runs into
    undefined behaviour.  A failure keeps the effects made before it. *)
Inductive sys (A : Type) :=
  | Ok (a : A) (k : kernel)
  | Err (diag : string) (k : kernel)
  | Crash (f : fault).
Arguments Ok {A} a k.
Arguments Err {A} diag k.
Arguments Crash {A} f.

Definition K (A : Type) : Type := kernel → sys A.

#[global] Instance K_ret : MRet K := λ A a k, Ok a k.
#[global] Instance K_bind : MBind K := λ A B f c k,
  match c k with
  | Ok a k' => f a k'
  | Err d k' => Err d k'
  | Crash e => Crash e
  end.

Definition fail_with {A} (diag : string) : K A := λ k, Err diag k.

(** [shm_open(name, O_CREAT | O_RDWR, 0666)] when [create], else
    [shm_open(name, O_RDWR, 0666)]; [false] stands for a negative descriptor. *)
Definition shm_open (name : string) (create : bool) : K bool := λ k,
  match shm_objs k !! name with
  | Some _ => Ok true k
  | None =>
      if create
      then Ok true (Kernel (<[name := []]> (shm_objs k)) (sem_objs k))
      else Ok false k
  end.

(** [(off_t)n] for a [size_t] value [n]. *)
Definition off_t_of (n : Z) : Z := if decide (n < 2 ^ 63) then n else n - 2 ^ 64.

(** [ftruncate(fd, len) == 0]: a negative length is refused, otherwise the
    object is cut or padded with zero bytes to [len]. *)
Definition ftruncate (name : string) (len : Z) : K bool := λ k,
  match shm_objs k !! name with
  | Some obj =>
      if decide (len < 0) then Ok false k
      else Ok true (Kernel (<[name := resize (Z.to_nat len) x00 obj]> (shm_objs k)) (sem_objs k))
  | None => Ok false k
  end.

(** [fstat(fd, &st)]: the size of the object, if it exists. *)
Definition fstat (name : string) : K (option Z) := λ k,
  Ok ((λ obj, Z.of_nat (length obj)) <$> shm_objs k !! name) k.

(** [mmap(nullptr, len, ..., MAP_SHARED, fd, 0) != MAP_FAILED]: a mapping
    of length 0 is refused. *)
Definition mmap (name : string) (len : Z) : K bool := λ k,
  Ok (bool_decide (len ≠ 0 ∧ is_Some (shm_objs k !! name))) k.

(** Reads and writes through the mapping of object [name]. *)
Definition map_load32 (name : string) (off : Z) : K Z := λ k,
  match shm_objs k !! name ≫= (λ m, load32 m off) with
  | Some v => Ok v k
  | None => Crash OutOfBounds
  end.

Definition map_write (name : string) (off : Z) (src : list byte) : K unit := λ k,
  match shm_objs k !! name ≫= (λ m, mem_write m off src) with
  | Some m' => Ok () (Kernel (<[name := m']> (shm_objs k)) (sem_objs k))
  | None => Crash OutOfBounds
  end.

Definition map_store32 (name : string) (off v : Z) : K unit :=
  map_write name off (encode32 v).

(** [sem_open(name, O_CREAT | O_EXCL, 0666, value)]; [None] is [SEM_FAILED]. *)
Definition sem_open_excl (name : string) (value : Z) : K (option string) := λ k,
  match sem_objs k !! name with
  | Some _ => Ok None k
  | None =>
      if decide (value <= SEM_VALUE_MAX)
      then Ok (Some name) (Kernel (shm_objs k) (<[name := value]> (sem_objs k)))
      else Ok None k
  end.

(** [sem_open(name, 0)] *)
Definition sem_open (name : string) : K (option string) := λ k,
  match sem_objs k !! name with
  | Some _ => Ok (Some name) k
  | None => Ok None k
  end.

(** [sem_unlink(name)] and [shm_unlink(name)]: the name leaves the name
    space; a name that is absent stays absent.  The callers ignore the
    result. *)
Definition sem_unlink (name : string) : K unit := λ k,
  Ok () (Kernel (shm_objs k) (delete name (sem_objs k))).

Definition shm_unlink (name : string) : K unit := λ k,
  Ok () (Kernel (delete name (shm_objs k)) (sem_objs k)).

(** The objects a handle designates, seen as the [world] its operations
    run in; [sched] is the schedule of the waits to come. *)
Definition world_of (self : SharedRing) (sched : list wait_event) (k : kernel) : option world :=
  m ← shm_objs k !! shm_name_ self;
  fr ← sem_free_ self ≫= (λ n, sem_objs k !! n);
  fi ← sem_filled_ self ≫= (λ n, sem_objs k !! n);
  mu ← sem_mutex_ self ≫= (λ n, sem_objs k !! n);
  Some (World m fr fi mu ENONE sched).

(** Field updates of the handle. *)
Definition with_map (self : SharedRing) (map_size slot_count slot_size : Z) : SharedRing :=
  {| shm_name_ := shm_name_ self; map_size_ := map_size;
     slot_count_ := slot_count; slot_size_ := slot_size; owner_ := owner_ self;
     sem_free_ := sem_free_ self; sem_filled_ := sem_filled_ self;
     sem_mutex_ := sem_mutex_ self;
     sem_free_name_ := sem_free_name_ self; sem_filled_name_ := sem_filled_name_ self;
     sem_mutex_name_ := sem_mutex_name_ self |}.

Definition with_sems (self : SharedRing) (fr fi mu : option string) : SharedRing :=
  {| shm_name_ := shm_name_ self; map_size_ := map_size_ self;
     slot_count_ := slot_count_ self; slot_size_ := slot_size_ self; owner_ := owner_ self;
     sem_free_ := fr; sem_filled_ := fi; sem_mutex_ := mu;
     sem_free_name_ := sem_free_name_ self; sem_filled_name_ := sem_filled_name_ self;
     sem_mutex_name_ := sem_mutex_name_ self |}.

#[global] Instance errno_eq_dec : EqDecision errno_t.
Proof. solve_decision. Defined.
#[global] Instance wait_event_eq_dec : EqDecision wait_event.
Proof. solve_decision. Defined.
#[global] Instance sem_id_eq_dec : EqDecision sem_id.
Proof. solve_decision. Defined.
#[global] Instance fault_eq_dec : EqDecision fault.
Proof. solve_decision. Defined.

(** ** [ipc/shared_ring.cpp] *)

Module Ring.

(** [sanitize_sem(base)] *)
Definition sanitize_sem (base : string) : string :=
  let s := replace_slashes base in
  ("/" +:+ s)%string.

(** [init_map(create)]; the result is the handle with its updated
    [map_size_], [slot_count_] and [slot_size_]. *)
Definition init_map (self : SharedRing) (create : bool) : K SharedRing :=
  let header_sz := sizeof_RingHeader in
  let single_slot := usize (sizeof_uint32 + slot_size_ self) in
  let map_size := usize (header_sz + usize (slot_count_ self * single_slot)) in
  let name := shm_name_ self in
  opened ← shm_open name create;
  if negb opened then fail_with "shm_open" else
  map_size ←
    (if create then
       ok ← ftruncate name (off_t_of map_size);
       if negb ok then fail_with "ftruncate" else mret map_size
     else
       st ← fstat name;
       match st with
       | None => fail_with "fstat"
       | Some st_size =>
           if decide (usize st_size < map_size) then fail_with "shm too small"
           else mret st_size
       end);
  mapped ← mmap name map_size;
  if negb mapped then fail_with "mmap" else
  if create then
    map_store32 name OFF_magic RING_MAGIC;;
    map_store32 name OFF_version 1;;
    map_store32 name OFF_slot_count (slot_count_ self);;
    map_store32 name OFF_slot_size (slot_size_ self);;
    map_store32 name OFF_head 0;;
    map_store32 name OFF_tail 0;;
    let header_sz_local := sizeof_RingHeader in
    let slots_area := usize (map_size - header_sz_local) in
    map_write name header_sz_local (zeros slots_area);;
    mret (with_map self map_size (slot_count_ self) (slot_size_ self))
  else
    magic ← map_load32 name OFF_magic;
    if decide (magic ≠ RING_MAGIC) then fail_with "bad shm magic" else
    slot_count ← map_load32 name OFF_slot_count;
    slot_size ← map_load32 name OFF_slot_size;
    mret (with_map self map_size slot_count slot_size).

(** The retry loop of the attach branch: up to [attempts] rounds of
    three [sem_open] calls.  Nothing else runs between two rounds in
    this model, so a round that fails is followed by rounds that fail. *)
Fixpoint open_sems_retry (attempts : nat) (p : SharedRing) : K SharedRing :=
  match attempts with
  | O => mret p
  | S rest =>
      fr ← sem_open (sem_free_name_ p);
      fi ← sem_open (sem_filled_name_ p);
      mu ← sem_open (sem_mutex_name_ p);
      let p := with_sems p fr fi mu in
      if bool_decide (fr ≠ None ∧ fi ≠ None ∧ mu ≠ None) then mret p
      else open_sems_retry rest p
  end.

(** [SharedRing::create_or_open(name, slot_count, slot_size, create)];
    [Err] is the [nullptr] result. *)
Definition create_or_open (name : string) (slot_count slot_size : Z) (create : bool)
    : K SharedRing :=
  let p :=
    {| shm_name_ := name; map_size_ := 0;
       slot_count_ := slot_count; slot_size_ := slot_size; owner_ := create;
       sem_free_ := None; sem_filled_ := None; sem_mutex_ := None;
       sem_free_name_ := sanitize_sem (name +:+ "_free");
       sem_filled_name_ := sanitize_sem (name +:+ "_filled");
       sem_mutex_name_ := sanitize_sem (name +:+ "_mutex") |} in
  p ← init_map p create;
  if create then
    fr ← sem_open_excl (sem_free_name_ p) slot_count;
    if bool_decide (fr = None) then fail_with "sem_open free" else
    let p := with_sems p fr (sem_filled_ p) (sem_mutex_ p) in
    fi ← sem_open_excl (sem_filled_name_ p) 0;
    if bool_decide (fi = None) then fail_with "sem_open filled" else
    let p := with_sems p (sem_free_ p) fi (sem_mutex_ p) in
    mu ← sem_open_excl (sem_mutex_name_ p) 1;
    if bool_decide (mu = None) then fail_with "sem_open mutex" else
    let p := with_sems p (sem_free_ p) (sem_filled_ p) mu in
    mret p
  else
    p ← open_sems_retry 20 p;
    if bool_decide (sem_free_ p = None ∨ sem_filled_ p = None ∨ sem_mutex_ p = None)
    then fail_with ("Failed to open semaphores for " +:+ name)
    else mret p.

(** [sem_wait_intr(s)]: [do { r = sem_wait(s); } while (r == -1 && errno == EINTR);] *)
Fixpoint sem_wait_intr_loop (fuel : nat) (s : sem_id) : M Z :=
  match fuel with
  | O => λ _, Spin
  | S fuel' =>
      r ← sem_wait s;
      e ← get_errno;
      if bool_decide (r = -1 ∧ e = EINTR) then sem_wait_intr_loop fuel' s else mret r
  end.

(** Every round of the loop but the last takes one interruption from
    the schedule, so one more round than the schedule is long suffices. *)
Definition sem_wait_intr (s : sem_id) : M Z := λ w,
  sem_wait_intr_loop (S (length (schedule w))) s w.

(** [SharedRing::write_message(data, len)] *)
Definition write_message (self : SharedRing) (data : list byte) (len : Z) : M bool :=
  if decide (len > slot_size_ self) then mret false else
  r ← sem_wait_intr SemFree;
  if decide (r = -1) then mret false else
  r ← sem_wait_intr SemMutex;
  if decide (r = -1) then mret false else
  idx ← hdr_get OFF_tail;
  let slot := slot_offset (slot_size_ self) idx in
  memcpy_to slot (encode32 len);;
  payload ← buffer_prefix data len;
  memcpy_to (slot + sizeof_uint32) payload;;
  slot_count ← hdr_get OFF_slot_count;
  tail' ← umod (u32 (idx + 1)) slot_count;
  hdr_set OFF_tail tail';;
  sem_post SemMutex;;
  sem_post SemFilled;;
  mret true.

(** [SharedRing::read_message(out)]; the result pairs the returned
    boolean with the contents of [out] after the call. *)
Definition read_message (self : SharedRing) (out : list byte) : M (bool * list byte) :=
  r ← sem_wait_intr SemFilled;
  if decide (r = -1) then mret (false, out) else
  r ← sem_wait_intr SemMutex;
  if decide (r = -1) then mret (false, out) else
  idx ← hdr_get OFF_head;
  let slot := slot_offset (slot_size_ self) idx in
  len_bytes ← memcpy_from slot sizeof_uint32;
  let len := decode32 len_bytes in
  out ← memcpy_from (slot + sizeof_uint32) len;
  slot_count ← hdr_get OFF_slot_count;
  head' ← umod (u32 (idx + 1)) slot_count;
  hdr_set OFF_head head';;
  sem_post SemMutex;;
  sem_post SemFree;;
  mret (true, out).

(** [SharedRing::unlink_resources()] *)
Definition unlink_resources (self : SharedRing) : K unit :=
  if owner_ self then
    sem_unlink (sem_free_name_ self);;
    sem_unlink (sem_filled_name_ self);;
    sem_unlink (sem_mutex_name_ self);;
    shm_unlink (shm_name_ self)
  else mret ().

End Ring.

(** ** The unannotated copy of the same translation unit

    It differs from [Ring] in three places: the attach branch of
    [init_map] compares the size of the region with the size of the header
    only, the attach branch of [create_or_open] opens each semaphore once,
    and [write_message] / [read_message] test the result of the first wait
    with [!] and ignore the result of the wait on the mutex. *)

Module Plain.

Definition sanitize_sem (base : string) : string :=
  let s := replace_slashes base in
  ("/" +:+ s)%string.

Definition init_map (self : SharedRing) (create : bool) : K SharedRing :=
  let header_sz := sizeof_RingHeader in
  let single_slot := usize (sizeof_uint32 + slot_size_ self) in
  let map_size := usize (header_sz + usize (slot_count_ self * single_slot)) in
  let name := shm_name_ self in
  opened ← shm_open name create;
  if negb opened then fail_with "shm_open" else
  map_size ←
    (if create then
       ok ← ftruncate name (off_t_of map_size);
       if negb ok then fail_with "ftruncate" else mret map_size
     else
       st ← fstat name;
       match st with
       | None => fail_with "fstat"
       | Some st_size =>
           if decide (usize st_size < header_sz) then fail_with "shm too small"
           else mret st_size
       end);
  mapped ← mmap name map_size;
  if negb mapped then fail_with "mmap" else
  if create then
    map_store32 name OFF_magic RING_MAGIC;;
    map_store32 name OFF_version 1;;
    map_store32 name OFF_slot_count (slot_count_ self);;
    map_store32 name OFF_slot_size (slot_size_ self);;
    map_store32 name OFF_head 0;;
    map_store32 name OFF_tail 0;;
    let header_sz_local := sizeof_RingHeader in
    let slots_area := usize (map_size - header_sz_local) in
    map_write name header_sz_local (zeros slots_area);;
    mret (with_map self map_size (slot_count_ self) (slot_size_ self))
  else
    magic ← map_load32 name OFF_magic;
    if decide (magic ≠ RING_MAGIC) then fail_with "bad shm magic" else
    slot_count ← map_load32 name OFF_slot_count;
    slot_size ← map_load32 name OFF_slot_size;
    mret (with_map self map_size slot_count slot_size).

Definition create_or_open (name : string) (slot_count slot_size : Z) (create : bool)
    : K SharedRing :=
  let p :=
    {| shm_name_ := name; map_size_ := 0;
       slot_count_ := slot_count; slot_size_ := slot_size; owner_ := create;
       sem_free_ := None; sem_filled_ := None; sem_mutex_ := None;
       sem_free_name_ := sanitize_sem (name +:+ "_free");
       sem_filled_name_ := sanitize_sem (name +:+ "_filled");
       sem_mutex_name_ := sanitize_sem (name +:+ "_mutex") |} in
  p ← init_map p create;
  if create then
    fr ← sem_open_excl (sem_free_name_ p) slot_count;
    if bool_decide (fr = None) then fail_with "sem_open free" else
    let p := with_sems p fr (sem_filled_ p) (sem_mutex_ p) in
    fi ← sem_open_excl (sem_filled_name_ p) 0;
    if bool_decide (fi = None) then fail_with "sem_open filled" else
    let p := with_sems p (sem_free_ p) fi (sem_mutex_ p) in
    mu ← sem_open_excl (sem_mutex_name_ p) 1;
    if bool_decide (mu = None) then fail_with "sem_open mutex" else
    let p := with_sems p (sem_free_ p) (sem_filled_ p) mu in
    mret p
  else
    fr ← sem_open (sem_free_name_ p);
    if bool_decide (fr = None) then fail_with "sem_open free" else
    let p := with_sems p fr (sem_filled_ p) (sem_mutex_ p) in
    fi ← sem_open (sem_filled_name_ p);
    if bool_decide (fi = None) then fail_with "sem_open filled" else
    let p := with_sems p (sem_free_ p) fi (sem_mutex_ p) in
    mu ← sem_open (sem_mutex_name_ p);
    if bool_decide (mu = None) then fail_with "sem_open mutex" else
    let p := with_sems p (sem_free_ p) (sem_filled_ p) mu in
    mret p.

Fixpoint sem_wait_intr_loop (fuel : nat) (s : sem_id) : M Z :=
  match fuel with
  | O => λ _, Spin
  | S fuel' =>
      r ← sem_wait s;
      e ← get_errno;
      if bool_decide (r = -1 ∧ e = EINTR) then sem_wait_intr_loop fuel' s else mret r
  end.

Definition sem_wait_intr (s : sem_id) : M Z := λ w,
  sem_wait_intr_loop (S (length (schedule w))) s w.

(** [!r] for an [int] *)
Definition lnot (r : Z) : bool := bool_decide (r = 0).

Definition write_message (self : SharedRing) (data : list byte) (len : Z) : M bool :=
  if decide (len > slot_size_ self) then mret false else
  r ← sem_wait_intr SemFree;
  if lnot r then mret false else
  sem_wait_intr SemMutex;;
  idx ← hdr_get OFF_tail;
  let slot := slot_offset (slot_size_ self) idx in
  let l := len in
  memcpy_to slot (encode32 l);;
  payload ← buffer_prefix data len;
  memcpy_to (slot + sizeof_uint32) payload;;
  slot_count ← hdr_get OFF_slot_count;
  tail' ← umod (u32 (idx + 1)) slot_count;
  hdr_set OFF_tail tail';;
  sem_post SemMutex;;
  sem_post SemFilled;;
  mret true.

Definition read_message (self : SharedRing) (out : list byte) : M (bool * list byte) :=
  r ← sem_wait_intr SemFilled;
  if lnot r then mret (false, out) else
  sem_wait_intr SemMutex;;
  idx ← hdr_get OFF_head;
  let slot := slot_offset (slot_size_ self) idx in
  len_bytes ← memcpy_from slot sizeof_uint32;
  let len := decode32 len_bytes in
  out ← memcpy_from (slot + sizeof_uint32) len;
  slot_count ← hdr_get OFF_slot_count;
  head' ← umod (u32 (idx + 1)) slot_count;
  hdr_set OFF_head head';;
  sem_post SemMutex;;
  sem_post SemFree;;
  mret (true, out).

Definition unlink_resources (self : SharedRing) : K unit :=
  if owner_ self then
    sem_unlink (sem_free_name_ self);;
    sem_unlink (sem_filled_name_ self);;
    sem_unlink (sem_mutex_name_ self);;
    shm_unlink (shm_name_ self)
  else mret ().

End Plain.

(** ** The discovery daemon *)

Module Daemon.

Record ClientInfo := { sock : string; shm : string }.

(** One [sendto(fd, payload, ..., dest)] call. *)
Record datagram := { dest : string; payload : string }.

#[global] Instance ClientInfo_eq_dec : EqDecision ClientInfo.
Proof. solve_decision. Defined.
#[global] Instance datagram_eq_dec : EqDecision datagram.
Proof. solve_decision. Defined.

(** [char buf[1024]] and [sizeof(sockaddr_un::sun_path)]. *)
Definition BUF_SIZE : nat := 1024.
Definition SUN_PATH_SIZE : nat := 108.

(** [std::string msg(buf)]: the bytes before the first NUL. *)
Fixpoint c_string (buf : string) : string :=
  match buf with
  | EmptyString => EmptyString
  | String c rest => if decide (c = "000"%char) then EmptyString else String c (c_string rest)
  end.

(** [strncpy(dest.sun_path, s.c_str(), sizeof(dest.sun_path) - 1)] into a
    zeroed [sockaddr_un]: the path the datagram is addressed to. *)
Definition sun_path (s : string) : string :=
  String.substring 0 (SUN_PATH_SIZE - 1) (c_string s).

(** [iss >> token]: leading white space is skipped, then the characters
    up to the next white space are taken; the result pairs the token
    with what is left of the stream.  At the end of the stream the
    token stays empty. *)
Fixpoint skip_ws (s : string) : string :=
  match s with
  | EmptyString => EmptyString
  | String c rest => if Ascii.is_space c then skip_ws rest else s
  end.

Fixpoint take_token (s : string) : string * string :=
  match s with
  | EmptyString => (EmptyString, EmptyString)
  | String c rest =>
      if Ascii.is_space c then (EmptyString, s)
      else let '(tok, remaining) := take_token rest in (String c tok, remaining)
  end.

Definition extract (iss : string) : string * string := take_token (skip_ws iss).

Definition peer_record (key peer_sock peer_shm : string) : string :=
  ("PEER " +:+ key +:+ " " +:+ peer_sock +:+ " " +:+ peer_shm)%string.

(** First loop of the REGISTER branch: one reply per registered peer,
    addressed to the registering client. *)
Fixpoint reply_existing (key client_sock : string) (vec : list ClientInfo) : list datagram :=
  match vec with
  | [] => []
  | p :: rest =>
      {| dest := sun_path client_sock; payload := peer_record key (sock p) (shm p) |}
      :: reply_existing key client_sock rest
  end.

(** Second loop: [if (p.sock == client_sock) continue;] then one
    notification addressed to [p]. *)
Fixpoint notify_peers (key client_sock shm_name : string) (vec : list ClientInfo)
    : list datagram :=
  match vec with
  | [] => []
  | p :: rest =>
      if decide (sock p = client_sock) then notify_peers key client_sock shm_name rest
      else {| dest := sun_path (sock p); payload := peer_record key client_sock shm_name |}
           :: notify_peers key client_sock shm_name rest
  end.

(** What one round of the receive loop produces: the registry after it,
    the datagrams sent (in order) and the lines written to the log. *)
Record round := {
  registry_after : gmap string (list ClientInfo);
  sent : list datagram;
  logged : list string
}.

(** The body of [if (cmd == "REGISTER") { ... }]. *)
Definition on_register (iss : string) (registry : gmap string (list ClientInfo)) : round :=
  let '(key, iss) := extract iss in
  let '(client_sock, iss) := extract iss in
  let '(shm_name, iss) := extract iss in
  let line := ("REGISTER: " +:+ key +:+ " " +:+ client_sock +:+ " " +:+ shm_name)%string in
  let ci := {| sock := client_sock; shm := shm_name |} in
  let vec := default [] (registry !! key) in            (* [registry[key]] *)
  let replies := reply_existing key client_sock vec in
  let vec := vec ++ [ci] in                              (* [vec.push_back(ci)] *)
  let notes := notify_peers key client_sock shm_name vec in
  {| registry_after := <[key := vec]> registry;
     sent := replies ++ notes;
     logged := [line] |}.

(** One round of [while (true)]: [received] is what [recvfrom] delivers
    ([None] when it fails); at most [BUF_SIZE - 1] bytes are kept. *)
Definition serve (received : option string) (registry : gmap string (list ClientInfo))
    : round :=
  match received with
  | None => {| registry_after := registry; sent := []; logged := [] |}
  | Some dgram =>
      let buf := String.substring 0 (BUF_SIZE - 1) dgram in
      if decide (String.length buf = 0%nat)
      then {| registry_after := registry; sent := []; logged := [] |}
      else
        let msg := c_string buf in
        let '(cmd, iss) := extract msg in
        if decide (cmd = "REGISTER"%string) then on_register iss registry
        else {| registry_after := registry; sent := [];
                logged := [("unrecognised request: " +:+ msg)%string] |}
  end.

End Daemon.

(** ** The requests of the participants ([SocketToDaemon::Register],
    [SocketToDaemon::Deregister], [send_register]) *)

Module Client.

Definition register_request (service_name client_sock shm_name : string) : string :=
  ("REGISTER " +:+ service_name +:+ " " +:+ client_sock +:+ " " +:+ shm_name)%string.

Definition deregister_request (service_name client_sock shm_name : string) : string :=
  ("DEREGISTER " +:+ service_name +:+ " " +:+ client_sock +:+ " " +:+ shm_name)%string.

End Client.

(** ** The consumer application ([app/consumer.cc]) *)

Module Consumer.

(** The body of the receive loop up to the decision to open a ring:
    [Some peer_shm] when the datagram is a PEER record whose last field
    is not "-". *)
Definition ring_of_datagram (received : option string) : option string :=
  match received with
  | None => None
  | Some dgram =>
      let buf := String.substring 0 (Daemon.BUF_SIZE - 1) dgram in
      if decide (String.length buf = 0%nat) then None
      else
        let msg := Daemon.c_string buf in
        let '(cmd, iss) := Daemon.extract msg in
        if decide (cmd = "PEER"%string) then
          let '(key, iss) := Daemon.extract iss in
          let '(peer_sock, iss) := Daemon.extract iss in
          let '(peer_shm, iss) := Daemon.extract iss in
          if decide (peer_shm ≠ "-"%string) then Some peer_shm else None
        else None
  end.

(** [for (int i = 0; i < 20; ++i) { ring_ptr = create_or_open(peer_shm, 1, 1, false);
    if (ring_ptr) break; sleep }]; [None] is the null pointer left after
    the last attempt. *)
Fixpoint open_ring (attempts : nat) (peer_shm : string) (k : kernel)
    : sys (option SharedRing) :=
  match attempts with
  | O => Ok None k
  | S rest =>
      match Ring.create_or_open peer_shm 1 1 false k with
      | Ok ring k' => Ok (Some ring) k'
      | Err _ k' => open_ring rest peer_shm k'
      | Crash f => Crash f
      end
  end.

(** How [while (ring_ptr->read_message(b)) { print b }] ends. *)
Inductive loop_end :=
  | LoopExit (w : world)        (* a call returned [false] *)
  | LoopBlocked (s : sem_id)    (* a call waits for another process *)
  | LoopFault (f : fault)
  | LoopSpin
  | LoopFuel.                   (* more rounds than [fuel] *)

(** The payloads printed by the loop, in order, and how it ends. *)
Fixpoint consume (fuel : nat) (ring : SharedRing) (b : list byte) (w : world)
    : list (list byte) * loop_end :=
  match fuel with
  | O => ([], LoopFuel)
  | S fuel' =>
      match Ring.read_message ring b w with
      | Done (true, b') w' =>
          let '(printed, e) := consume fuel' ring b' w' in (b' :: printed, e)
      | Done (false, _) w' => ([], LoopExit w')
      | Blocked s => ([], LoopBlocked s)
      | Fault f => ([], LoopFault f)
      | Spin => ([], LoopSpin)
      end
  end.

End Consumer.

(** ** Tokens of the request grammar *)

Fixpoint nul_free (s : string) : bool :=
  match s with
  | EmptyString => true
  | String c rest => negb (bool_decide (c = "000"%char)) && nul_free rest
  end.

Fixpoint space_free (s : string) : bool :=
  match s with
  | EmptyString => true
  | String c rest => negb (Ascii.is_space c) && space_free rest
  end.

(** A non-empty run of characters without white space and without NUL. *)
Definition is_token (t : string) : Prop :=
  t ≠ EmptyString ∧ nul_free t = true ∧ space_free t = true.

(** The first token of what the daemon keeps of a datagram: the value
    of [cmd] after [iss >> cmd]. *)
Definition command_of (received : option string) : string :=
  match received with
  | None => EmptyString
  | Some dgram =>
      (Daemon.extract (Daemon.c_string (String.substring 0 (Daemon.BUF_SIZE - 1) dgram))).1
  end.

(** A registry with one producer registered under "demo". *)
Definition demo_producer : Daemon.ClientInfo :=
  {| Daemon.sock := "/tmp/ipc_producer_7.sock"; Daemon.shm := "/ipc_demo_7" |}.

Definition demo_registry : gmap string (list Daemon.ClientInfo) :=
  {[ "demo"%string := [demo_producer] ]}.

(** ** Sequences of ring operations

    The producer's and the consumer's calls are interleaved in one list;
    each call runs to completion before the next one starts. *)

Inductive op :=
  | OpWrite (data : list byte) (len : Z)     (* [write_message(data, len)] *)
  | OpRead (out : list byte).                (* [read_message(out)], [out] as passed in *)

Inductive event :=
  | EvWrite (data : list byte) (len : Z) (ok : bool)
  | EvRead (ok : bool) (out : list byte).    (* [out] as left by the call *)

Fixpoint run (producer consumer : SharedRing) (ops : list op) : M (list event) :=
  match ops with
  | [] => mret []
  | OpWrite data len :: rest =>
      ok ← Ring.write_message producer data len;
      evs ← run producer consumer rest;
      mret (EvWrite data len ok :: evs)
  | OpRead out :: rest =>
      r ← Ring.read_message consumer out;
      evs ← run producer consumer rest;
      mret (EvRead r.1 r.2 :: evs)
  end.

(** The payloads of the writes that returned [true], in call order. *)
Fixpoint written (evs : list event) : list (list byte) :=
  match evs with
  | [] => []
  | EvWrite data len true :: rest => take (Z.to_nat len) data :: written rest
  | _ :: rest => written rest
  end.

(** The buffers filled by the reads that returned [true], in call order. *)
Fixpoint delivered (evs : list event) : list (list byte) :=
  match evs with
  | [] => []
  | EvRead true out :: rest => out :: delivered rest
  | _ :: rest => delivered rest
  end.

Definition all_ok (evs : list event) : Prop :=
  Forall (λ e, match e with EvWrite _ _ ok => ok = true | EvRead ok _ => ok = true end) evs.

(** ** The ring invariant

    [hist] lists every payload stored so far, [nread] counts the payloads
    handed out so far; [lost_free] and [lost_filled] count the tokens taken
    by calls that then failed on the mutex. *)

Definition ring_params (N S : Z) : Prop :=
  1 <= N <= SEM_VALUE_MAX ∧ 0 <= S < UINT32_MOD.

Definition slot_holds (S : Z) (m : list byte) (idx : Z) (msg : list byte) : Prop :=
  Z.of_nat (length msg) <= S ∧
  load32 m (slot_offset S idx) = Some (Z.of_nat (length msg)) ∧
  mem_read m (slot_offset S idx + sizeof_uint32) (Z.of_nat (length msg)) = Some msg.

Record region_inv (N S : Z) (hist : list (list byte)) (nread : Z) (m : list byte)
    : Prop := {
  inv_size : sizeof_RingHeader + N * (sizeof_uint32 + S) <= Z.of_nat (length m);
  inv_magic : load32 m OFF_magic = Some RING_MAGIC;
  inv_slot_count : load32 m OFF_slot_count = Some N;
  inv_slot_size : load32 m OFF_slot_size = Some S;
  inv_head : load32 m OFF_head = Some (nread mod N);
  inv_tail : load32 m OFF_tail = Some (Z.of_nat (length hist) mod N);
  inv_slots : ∀ (i : nat) msg, nread <= Z.of_nat i → hist !! i = Some msg →
                slot_holds S m (Z.of_nat i mod N) msg
}.

Record ring_inv (N S : Z) (hist : list (list byte)) (nread lost_free lost_filled : Z)
    (w : world) : Prop := {
  inv_region : region_inv N S hist nread (shm w);
  inv_pending : 0 <= nread <= Z.of_nat (length hist);
  inv_lost : 0 <= lost_free ∧ 0 <= lost_filled;
  inv_free : free w = N - (Z.of_nat (length hist) - nread) - lost_free;
  inv_filled : filled w = Z.of_nat (length hist) - nread - lost_filled;
  inv_nonneg : 0 <= free w ∧ 0 <= filled w;
  inv_mutex : mutex w = 1
}.

(** Worlds that differ at most in [errno] and in the schedule. *)
Definition same_objects (w w' : world) : Prop :=
  shm w' = shm w ∧ free w' = free w ∧ filled w' = filled w ∧ mutex w' = mutex w.

(** ** Handles and name spaces around [create_or_open] *)

(** None of the three semaphore names derived from [name] is taken. *)
Definition sems_absent (name : string) (k : kernel) : Prop :=
  sem_objs k !! Ring.sanitize_sem (name +:+ "_free") = None ∧
  sem_objs k !! Ring.sanitize_sem (name +:+ "_filled") = None ∧
  sem_objs k !! Ring.sanitize_sem (name +:+ "_mutex") = None.

(** The handle of a ring [name] whose three semaphores are open. *)
Definition open_handle (name : string) (map_size N S : Z) (owner : bool) : SharedRing :=
  {| shm_name_ := name; map_size_ := map_size;
     slot_count_ := N; slot_size_ := S; owner_ := owner;
     sem_free_ := Some (Ring.sanitize_sem (name +:+ "_free"));
     sem_filled_ := Some (Ring.sanitize_sem (name +:+ "_filled"));
     sem_mutex_ := Some (Ring.sanitize_sem (name +:+ "_mutex"));
     sem_free_name_ := Ring.sanitize_sem (name +:+ "_free");
     sem_filled_name_ := Ring.sanitize_sem (name +:+ "_filled");
     sem_mutex_name_ := Ring.sanitize_sem (name +:+ "_mutex") |}.

(** The size [init_map] computes when nothing wraps around. *)
Definition total_size (N S : Z) : Z := sizeof_RingHeader + N * (sizeof_uint32 + S).

(** The size [init_map] computes, in [size_t] arithmetic. *)
Definition computed_map_size (slot_count slot_size : Z) : Z :=
  usize (sizeof_RingHeader + usize (slot_count * usize (sizeof_uint32 + slot_size))).

(** The three semaphores derived from [name] exist. *)
Definition sems_present (name : string) (k : kernel) : Prop :=
  is_Some (sem_objs k !! Ring.sanitize_sem (name +:+ "_free")) ∧
  is_Some (sem_objs k !! Ring.sanitize_sem (name +:+ "_filled")) ∧
  is_Some (sem_objs k !! Ring.sanitize_sem (name +:+ "_mutex")).

#[global] Instance sems_present_dec name k : Decision (sems_present name k).
Proof. unfold sems_present. apply _. Defined.

#[global] Instance sems_absent_dec name k : Decision (sems_absent name k).
Proof. unfold sems_absent. apply _. Defined.

(** ** A session on one ring

    The owner creates ring [name] with [N] slots of [S] bytes, as the
    producer application and the test fixture do.  The reads are issued
    either through the same handle ([advisory = None], the test fixture)
    or through the handle of an attachee that passes the advisory
    geometry [(n, s)] (the consumer application passes [(1, 1)]).  Then
    the calls of [ops] run one after the other. *)
Definition session (name : string) (N S : Z) (advisory : option (Z * Z))
    (sched : list wait_event) (ops : list op) (k : kernel)
    : option (outcome (list event)) :=
  match Ring.create_or_open name N S true k with
  | Ok owner k1 =>
      match advisory with
      | None => run owner owner ops <$> world_of owner sched k1
      | Some (n, s) =>
          match Ring.create_or_open name n s false k1 with
          | Ok attachee k2 => run owner attachee ops <$> world_of owner sched k2
          | _ => None
          end
      end
  | _ => None
  end.

(** The payloads the calls of [ops] ask to store, in call order. *)
Fixpoint requested (ops : list op) : list (list byte) :=
  match ops with
  | [] => []
  | OpWrite data len :: rest => take (Z.to_nat len) data :: requested rest
  | OpRead _ :: rest => requested rest
  end.

(** The call respects the contract of [write_message]: [data] holds the
    [len] bytes to send, and [len] is at most the slot size [S]. *)
Definition fits_slot (S : Z) (o : op) : Prop :=
  match o with
  | OpWrite data len => 0 <= len <= S ∧ len <= Z.of_nat (length data)
  | OpRead _ => True
  end.

(** No write of [ops] meets a full ring and no read an empty one, when
    [n] of the [N] slots hold an unread message before the first call. *)
Fixpoint in_capacity (N : Z) (ops : list op) (n : Z) : bool :=
  match ops with
  | [] => true
  | OpWrite _ _ :: rest => bool_decide (n < N) && in_capacity N rest (n + 1)
  | OpRead _ :: rest => bool_decide (0 < n) && in_capacity N rest (n - 1)
  end.

(** The number of stored messages that no read has returned yet. *)
Definition unread (evs : list event) : Z :=
  Z.of_nat (length (written evs)) - Z.of_nat (length (delivered evs)).

(** The "fill to capacity" scenario: two slots of eight bytes; "a" and
    "bb" are written, one read frees a slot for "ccc", two more reads
    follow. *)
Definition fill_ops : list op :=
  [ OpWrite [x61] 1; OpWrite [x62; x62] 2; OpRead [];
    OpWrite [x63; x63; x63] 3; OpRead []; OpRead [] ].

Definition fill_events : list event :=
  [ EvWrite [x61] 1 true; EvWrite [x62; x62] 2 true; EvRead true [x61];
    EvWrite [x63; x63; x63] 3 true; EvRead true [x62; x62];
    EvRead true [x63; x63; x63] ].

Definition empty_kernel : kernel := Kernel ∅ ∅.

(** No call of the session returned [true]. *)
Definition none_ok (evs : list event) : Prop :=
  Forall (λ e, match e with EvWrite _ _ ok => ok = false | EvRead ok _ => ok = false end) evs.

(** The number of ['/'] characters of a name. *)
Fixpoint count_slashes (s : string) : nat :=
  match s with
  | EmptyString => 0%nat
  | String c s' => ((if decide (c = "/"%char) then 1 else 0) + count_slashes s')%nat
  end.

(** Two handles that carry the same four names. *)
Definition same_names (p q : SharedRing) : Prop :=
  shm_name_ q = shm_name_ p ∧ sem_free_name_ q = sem_free_name_ p ∧
  sem_filled_name_ q = sem_filled_name_ p ∧ sem_mutex_name_ q = sem_mutex_name_ p.

(** The payload of the unit test: the five bytes of "hello". *)
Definition hello : list byte := [x68; x65; x6c; x6c; x6f].

(** ** The in-process circular buffer ([CircularBuffer]: eight [int]
    slots, a read index and a write index, every method under one
    [lock_guard])

    An access outside the array is undefined behaviour in the source;
    here it yields [None]. *)

Module CircularBuffer.

(** [std::numeric_limits<int>::min()] *)
Definition SENTINELVALUE : Z := - 2 ^ 31.

Definition buffer_size_ : Z := 8.

Record t := {
  underlying_array_ : list Z;
  read_index_ : Z;
  write_index_ : Z
}.

(** The constructor fills the array with the sentinel; both indices
    start at 0. *)
Definition create : t :=
  {| underlying_array_ := replicate (Z.to_nat buffer_size_) SENTINELVALUE;
     read_index_ := 0;
     write_index_ := 0 |}.

(** [push(newData)] *)
Definition push (newData : Z) (self : t) : option (bool * t) :=
  if decide (0 <= write_index_ self < Z.of_nat (length (underlying_array_ self))) then
    Some (true,
          {| underlying_array_ :=
               <[Z.to_nat (write_index_ self) := newData]> (underlying_array_ self);
             read_index_ := read_index_ self;
             write_index_ := usize (1 + write_index_ self) mod buffer_size_ |})
  else None.

(** [pop(existingData)]; the result carries the returned boolean and the
    contents of [existingData] after the call. *)
Definition pop (existingData : Z) (self : t) : option (bool * Z * t) :=
  if decide (0 <= read_index_ self) then
    v ← underlying_array_ self !! Z.to_nat (read_index_ self);
    if decide (v ≠ SENTINELVALUE) then
      Some (true, v,
            {| underlying_array_ :=
                 <[Z.to_nat (read_index_ self) := SENTINELVALUE]> (underlying_array_ self);
               read_index_ := usize (1 + read_index_ self) mod buffer_size_;
               write_index_ := write_index_ self |})
    else Some (false, existingData, self)
  else None.

(** Calls of the two threads, one after the other (each call holds the
    lock from its first to its last statement). *)
Inductive op :=
  | Push (newData : Z)
  | Pop (existingData : Z).

Inductive event :=
  | Pushed (newData : Z) (ok : bool)
  | Popped (ok : bool) (existingData : Z).    (* [existingData] as left by the call *)

Fixpoint run (ops : list op) (self : t) : option (list event * t) :=
  match ops with
  | [] => Some ([], self)
  | Push v :: rest =>
      '(ok, self) ← push v self;
      '(evs, self) ← run rest self;
      Some (Pushed v ok :: evs, self)
  | Pop d :: rest =>
      '(ok, d, self) ← pop d self;
      '(evs, self) ← run rest self;
      Some (Popped ok d :: evs, self)
  end.

(** The values handed to the pushes that returned [true], and the
    values handed out by the pops that returned [true], in call order. *)
Fixpoint pushed (evs : list event) : list Z :=
  match evs with
  | [] => []
  | Pushed v true :: rest => v :: pushed rest
  | _ :: rest => pushed rest
  end.

Fixpoint popped (evs : list event) : list Z :=
  match evs with
  | [] => []
  | Popped true v :: rest => v :: popped rest
  | _ :: rest => popped rest
  end.

(** The calls of [ops] never push the sentinel and never push onto a
    full buffer, when [n] values are waiting before the first call. *)
Fixpoint fits (ops : list op) (n : nat) : bool :=
  match ops with
  | [] => true
  | Push v :: rest =>
      bool_decide (v ≠ SENTINELVALUE) && bool_decide (n < 8)%nat && fits rest (S n)
  | Pop _ :: rest => fits rest (pred n)
  end.

(** The buffer between [nread] pops and [length hist] pushes that
    returned [true]: the values not yet popped sit in the slots of their
    numbers modulo 8, every other slot holds the sentinel. *)
Record cells (hist : list Z) (nread : nat) (self : t) : Prop := {
  cells_length : length (underlying_array_ self) = 8%nat;
  cells_read : read_index_ self = Z.of_nat nread mod 8;
  cells_pending : (nread <= length hist <= nread + 8)%nat;
  cells_full : ∀ (i : nat) v, (nread <= i)%nat → hist !! i = Some v →
                 v ≠ SENTINELVALUE ∧
                 underlying_array_ self !! Z.to_nat (Z.of_nat i mod 8) = Some v;
  cells_empty : ∀ j : Z, 0 <= j < 8 →
                  (∀ i : nat, (nread <= i < length hist)%nat → Z.of_nat i mod 8 ≠ j) →
                  underlying_array_ self !! Z.to_nat j = Some SENTINELVALUE
}.

Definition holds (hist : list Z) (nread : nat) (self : t) : Prop :=
  cells hist nread self ∧ write_index_ self = Z.of_nat (length hist) mod 8.

End CircularBuffer.

(** ** The decoder of the 32-bit PDU ([BitParsing/decode_custom_pdu.cpp])

    The functions print the fields when [debug_print] is set; the output
    is left out here. *)

Module CustomPdu.

Definition PACKET_TYPE_BIT_MASK : Z := 0xF0000000.
Definition PACKET_TYPE_RIGHT_SHIFT : Z := 28.
Definition SRC_ECU_BIT_MASK : Z := 0x0FF00000.
Definition SRC_ECU_RIGHT_SHIFT : Z := 20.
Definition DEST_ECU_BIT_MASK : Z := 0x000FF000.
Definition DEST_ECU_RIGHT_SHIFT : Z := 12.
Definition PDU_FLAGS_BIT_MASK : Z := 0x00000F00.
Definition PDU_FLAGS_RIGHT_SHIFT : Z := 8.
Definition PAYLOAD_DATA_BIT_MASK : Z := 0x000000FF.
Definition PAYLOAD_DATA_RIGHT_SHIFT : Z := 0.

Inductive PacketType :=
  | Heartbeat
  | SensorDataTelemetry
  | ControlCommand
  | DiagnosticMessage
  | Reserved.

Record Flags := {
  high_prio : bool;
  ack_required : bool;
  error_flag : bool;
  reserved : bool
}.

Record PDU := {
  packet_type : PacketType;
  src_id : Z;
  dest_id : Z;
  flags : Flags;
  payload_data : Z
}.

(** [static_cast<uint8_t>(z)] *)
Definition u8 (z : Z) : Z := z mod 2 ^ 8.

Definition get_packet_type (pdu : Z) : PacketType :=
  let packet_type_bits :=
    u8 (Z.shiftr (Z.land PACKET_TYPE_BIT_MASK pdu) PACKET_TYPE_RIGHT_SHIFT) in
  match packet_type_bits with
  | 0 => Heartbeat
  | 1 => SensorDataTelemetry
  | 2 => ControlCommand
  | 3 => DiagnosticMessage
  | _ => Reserved
  end.

Definition get_src_ecu_id (pdu : Z) : Z :=
  u8 (Z.shiftr (Z.land pdu SRC_ECU_BIT_MASK) SRC_ECU_RIGHT_SHIFT).

Definition get_dest_ecu_id (pdu : Z) : Z :=
  u8 (Z.shiftr (Z.land pdu DEST_ECU_BIT_MASK) DEST_ECU_RIGHT_SHIFT).

(** [Flags pdu_flags;] starts with four [false] members; three of them
    are assigned. *)
Definition get_pdu_flags (pdu : Z) : Flags :=
  let four_bits_for_flags :=
    u8 (Z.shiftr (Z.land pdu PDU_FLAGS_BIT_MASK) PDU_FLAGS_RIGHT_SHIFT) in
  {| high_prio := bool_decide (Z.land (Z.shiftl 1 3) four_bits_for_flags > 0);
     ack_required := bool_decide (Z.land (Z.shiftl 1 2) four_bits_for_flags > 0);
     error_flag := bool_decide (Z.land (Z.shiftl 1 1) four_bits_for_flags > 0);
     reserved := false |}.

Definition get_pdu_payload_data (pdu : Z) : Z :=
  u8 (Z.shiftr (Z.land PAYLOAD_DATA_BIT_MASK pdu) PAYLOAD_DATA_RIGHT_SHIFT).

Definition decode (pdu : Z) : PDU :=
  {| packet_type := get_packet_type pdu;
     src_id := get_src_ecu_id pdu;
     dest_id := get_dest_ecu_id pdu;
     flags := get_pdu_flags pdu;
     payload_data := get_pdu_payload_data pdu |}.

(** The packet type that the switch gives for the four bits [t]. *)
Definition type_of_bits (t : Z) : PacketType :=
  match t with
  | 0 => Heartbeat
  | 1 => SensorDataTelemetry
  | 2 => ControlCommand
  | 3 => DiagnosticMessage
  | _ => Reserved
  end.

End CustomPdu.

(** ** The parser of the SOME/IP header ([BitParsing/parse_someip_pdu.cpp])

    The byte vector is a list of bytes; an access outside the vector is
    undefined behaviour in the source and yields [None] here.  The
    diagnostics written to [std::cerr] are left out. *)

Module SomeIp.

Record MessageID := {
  service_id : Z;
  method_id : Z;
  event_id : Z;
  is_event_notification : bool
}.

Record RequestID := {
  client_id : Z;
  session_id : Z
}.

Module MessageType.
Inductive t := REQUEST | REQUEST_NO_RETURN | NOTIFICATION | RESPONSE | ERROR | INVALID.
#[global] Instance eq_dec : EqDecision t.
Proof. solve_decision. Defined.
End MessageType.

Module ReturnCode.
Inductive t := OK | NOK | NOTAPPLICABLE | INVALID.
End ReturnCode.

Record SOMEIPHeader := {
  message_id : MessageID;
  length : Z;
  request_id : RequestID;
  protocol_version : Z;
  iface_version : Z;
  msg_type : MessageType.t;
  return_code : ReturnCode.t
}.

(** [static_cast<uint16_t>(z)] *)
Definition u16 (z : Z) : Z := z mod 2 ^ 16.

(** [std::numeric_limits<uint64_t>::max()] *)
Definition UINT64_MAX : Z := 2 ^ 64 - 1.

(** The loop of [concatenate_bytes] over the indices [idxs]:
    [concatenated_bytes = (concatenated_bytes << left_shift) | byte_vector[idx];
     left_shift += 8;] with a [uint64_t] accumulator and a [uint8_t] shift. *)
Fixpoint concatenate_loop (byte_vector : list byte) (idxs : list Z)
    (concatenated_bytes left_shift : Z) : option Z :=
  match idxs with
  | [] => Some concatenated_bytes
  | idx :: rest =>
      b ← byte_vector !! Z.to_nat idx;
      concatenate_loop byte_vector rest
        (Z.lor (usize (Z.shiftl concatenated_bytes left_shift)) (Z_of_byte b))
        ((left_shift + 8) mod 2 ^ 8)
  end.

(** [concatenate_bytes(byte_vector, {first, second})]; the test on the
    distance is made in [size_t] arithmetic. *)
Definition concatenate_bytes (byte_vector : list byte) (start_and_end_pos : Z * Z)
    : option Z :=
  let '(first, second) := start_and_end_pos in
  if decide (usize (second - first) > 3) then Some UINT64_MAX
  else concatenate_loop byte_vector (seqZ first (second - first + 1)) 0 0.

(** [byte_to_msg_type[b]]: [operator[]] of the map inserts a
    value-initialised [MessageType], that is [REQUEST], for a byte that
    is not a key; it does not throw. *)
Definition byte_to_msg_type (b : Z) : MessageType.t :=
  match b with
  | 0x00 => MessageType.REQUEST
  | 0x01 => MessageType.REQUEST_NO_RETURN
  | 0x02 => MessageType.NOTIFICATION
  | 0x80 => MessageType.RESPONSE
  | 0x81 => MessageType.ERROR
  | _ => MessageType.REQUEST
  end.

(** [get_someip_header_from_byte_vector(someip_pdu_byte_vector, someip_header)];
    the result pairs the returned boolean with the header after the
    call. *)
Definition get_someip_header_from_byte_vector (someip_pdu_byte_vector : list byte)
    (someip_header : SOMEIPHeader) : option (bool * SOMEIPHeader) :=
  let SOMEIP_HEADERSIZE_IN_BYTES := 16 in
  let size := Z.of_nat (Datatypes.length someip_pdu_byte_vector) in
  if decide (size >= SOMEIP_HEADERSIZE_IN_BYTES) then
    service ← concatenate_bytes someip_pdu_byte_vector (0, 1);
    b34 ← concatenate_bytes someip_pdu_byte_vector (2, 3);
    let bytes_three_and_four := u16 b34 in
    let msb_in_bytes_three_and_four_is_one :=
      bool_decide (Z.shiftr bytes_three_and_four 15 = 0x1) in
    (* the operands are promoted to [int]: nothing is shifted out *)
    let lower_fifteen_bits_of_bytes_three_and_four :=
      u16 (Z.shiftr (Z.shiftl bytes_three_and_four 1) 1) in
    let message_id' :=
      {| service_id := u16 service;
         method_id :=
           if msb_in_bytes_three_and_four_is_one
           then method_id (message_id someip_header)
           else lower_fifteen_bits_of_bytes_three_and_four;
         event_id :=
           if msb_in_bytes_three_and_four_is_one
           then lower_fifteen_bits_of_bytes_three_and_four
           else event_id (message_id someip_header);
         is_event_notification := msb_in_bytes_three_and_four_is_one |} in
    len ← concatenate_bytes someip_pdu_byte_vector (4, 7);
    let length' := u16 len in
    let num_bytes_after_length := usize (size - 8) in
    if decide (num_bytes_after_length ≠ length') then
      Some (false,
            {| message_id := message_id'; length := length';
               request_id := request_id someip_header;
               protocol_version := protocol_version someip_header;
               iface_version := iface_version someip_header;
               msg_type := msg_type someip_header;
               return_code := return_code someip_header |})
    else
      client ← concatenate_bytes someip_pdu_byte_vector (8, 9);
      session ← concatenate_bytes someip_pdu_byte_vector (10, 11);
      b12 ← someip_pdu_byte_vector !! 12%nat;
      b13 ← someip_pdu_byte_vector !! 13%nat;
      b14 ← someip_pdu_byte_vector !! 14%nat;
      b15 ← someip_pdu_byte_vector !! 15%nat;
      let msg_type' := byte_to_msg_type (Z_of_byte b14) in
      let return_code_byte := Z_of_byte b15 in
      let return_code' :=
        if bool_decide (msg_type' = MessageType.RESPONSE ∨ msg_type' = MessageType.ERROR)
        then (if decide (return_code_byte = 0x00) then ReturnCode.OK else ReturnCode.NOK)
        else (if decide (return_code_byte = 0x00) then ReturnCode.NOTAPPLICABLE
              else ReturnCode.INVALID) in
      Some (true,
            {| message_id := message_id'; length := length';
               request_id := {| client_id := u16 client; session_id := u16 session |};
               protocol_version := Z_of_byte b12;
               iface_version := Z_of_byte b13;
               msg_type := msg_type';
               return_code := return_code' |})
  else Some (false, someip_header).

End SomeIp.

(** ** The object pool ([object_pool/object_pool.cpp])

    [ObjectPool<T>]: a stack of owning pointers, of which [None] is a
    null pointer, and a counter; both methods run under the pool's
    mutex.  [top()] on an empty stack is undefined behaviour in the
    source and yields [None] here. *)

Module ObjectPool.

Section Pool.
Context {T : Type}.

Record t := {
  object_stack_ : list (option T);      (* the top of the stack first *)
  pool_size_ : Z;
  num_objects_in_pool_ : Z
}.

(** The constructor: [pool_size] objects [new T()] are pushed. *)
Definition create (pool_size : Z) (new_T : T) : t :=
  {| object_stack_ := replicate (Z.to_nat pool_size) (Some new_T);
     pool_size_ := pool_size;
     num_objects_in_pool_ := pool_size |}.

(** [acquire()]: the pointer returned ([None] is [nullptr]) and the pool
    after the call. *)
Definition acquire (self : t) : option (option T * t) :=
  if decide (num_objects_in_pool_ self > 0) then
    match object_stack_ self with
    | obj :: rest =>
        Some (obj,
              {| object_stack_ := rest;
                 pool_size_ := pool_size_ self;
                 num_objects_in_pool_ := num_objects_in_pool_ self - 1 |})
    | [] => None
    end
  else Some (None, self).

(** [release(object)] *)
Definition release (object : option T) (self : t) : bool * t :=
  if decide (num_objects_in_pool_ self < pool_size_ self) then
    (true,
     {| object_stack_ := object :: object_stack_ self;
        pool_size_ := pool_size_ self;
        num_objects_in_pool_ := num_objects_in_pool_ self + 1 |})
  else (false, self).

(** Calls of the threads, one after the other. *)
Inductive op :=
  | Acquire
  | Release (object : option T).

Inductive event :=
  | Acquired (object : option T)
  | Released (ok : bool).

Fixpoint run (ops : list op) (self : t) : option (list event * t) :=
  match ops with
  | [] => Some ([], self)
  | Acquire :: rest =>
      '(obj, self) ← acquire self;
      '(evs, self) ← run rest self;
      Some (Acquired obj :: evs, self)
  | Release object :: rest =>
      let '(ok, self) := release object self in
      '(evs, self) ← run rest self;
      Some (Released ok :: evs, self)
  end.

(** The counter is the height of the stack and stays within the size of
    the pool. *)
Definition consistent (self : t) : Prop :=
  num_objects_in_pool_ self = Z.of_nat (Datatypes.length (object_stack_ self)) ∧
  num_objects_in_pool_ self <= pool_size_ self.

End Pool.

Arguments t : clear implicits.
Arguments op : clear implicits.
Arguments event : clear implicits.

End ObjectPool.

(** ** The buffer of sensor samples ([CircularSensorBuffer] of
    [object_pool/multiple_sensors.cpp])

    [push] and [get_all] run under the buffer's mutex.  An access outside
    the vector and a division by zero are undefined behaviour in the
    source and yield [None] here. *)

Module CircularSensorBuffer.

Section Buffer.
Context {SensorSample : Type}.

Record t := {
  capacity_ : Z;
  buffer_ : list SensorSample;
  head_ : Z;
  size_ : Z
}.

(** The constructor: [buffer_(capacity)] holds [capacity] value-initialised
    samples. *)
Definition create (capacity : Z) (empty_sample : SensorSample) : t :=
  {| capacity_ := capacity;
     buffer_ := replicate (Z.to_nat capacity) empty_sample;
     head_ := 0;
     size_ := 0 |}.

(** [push(s)] *)
Definition push (s : SensorSample) (self : t) : option t :=
  if decide (0 <= head_ self < Z.of_nat (Datatypes.length (buffer_ self))) then
    if decide (capacity_ self = 0) then None
    else
      Some {| capacity_ := capacity_ self;
              buffer_ := <[Z.to_nat (head_ self) := s]> (buffer_ self);
              head_ := usize (head_ self + 1) mod capacity_ self;
              size_ := if decide (size_ self < capacity_ self)
                       then size_ self + 1 else size_ self |}
  else None.

(** [get_all()]: the samples from [buffer_.begin()] to
    [buffer_.begin() + size_]. *)
Definition get_all (self : t) : option (list SensorSample) :=
  if decide (0 <= size_ self <= Z.of_nat (Datatypes.length (buffer_ self)))
  then Some (take (Z.to_nat (size_ self)) (buffer_ self))
  else None.

(** The pushes of [samples], one after the other. *)
Fixpoint push_all (samples : list SensorSample) (self : t) : option t :=
  match samples with
  | [] => Some self
  | s :: rest => self ← push s self; push_all rest self
  end.

End Buffer.

Arguments t : clear implicits.

End CircularSensorBuffer.

(** What the buffer holds after the samples [hist] were pushed into a new
    buffer of capacity [c]. *)
Record sensor_cells {S} (c : Z) (hist : list S) (self : CircularSensorBuffer.t S)
    : Prop := {
  sensor_capacity : CircularSensorBuffer.capacity_ self = c;
  sensor_length : Z.of_nat (Datatypes.length (CircularSensorBuffer.buffer_ self)) = c;
  sensor_head :
    CircularSensorBuffer.head_ self = Z.of_nat (Datatypes.length hist) mod c;
  sensor_size :
    CircularSensorBuffer.size_ self = Z.min (Z.of_nat (Datatypes.length hist)) c;
  sensor_slots : ∀ i : nat,
    Z.of_nat i < Z.of_nat (Datatypes.length hist) →
    Z.of_nat (Datatypes.length hist) - c <= Z.of_nat i →
    CircularSensorBuffer.buffer_ self !! Z.to_nat (Z.of_nat i mod c) = hist !! i
}.

(** ** What a call leaves as it was

    [returns Q c]: whenever [c] returns, the worlds before and after it
    are related by [Q]; [K_returns] is the same for a system-level call,
    whether it succeeds or fails. *)

Definition returns {A} (Q : world → world → Prop) (c : M A) : Prop :=
  ∀ w a w', c w = Done a w' → Q w w'.

Definition K_returns {A} (Q : kernel → kernel → Prop) (c : K A) : Prop :=
  ∀ k, match c k with
       | Ok _ k' => Q k k'
       | Err _ k' => Q k k'
       | Crash _ => True
       end.

(** The bytes of the region outside [touched] are the same, and so is
    its length. *)
Definition same_outside (touched : Z → Prop) (w w' : world) : Prop :=
  length (shm w') = length (shm w) ∧
  ∀ i : nat, ¬ touched (Z.of_nat i) → shm w' !! i = shm w !! i.

(** The schedule has lost entries at its front only. *)
Definition schedule_consumed (w w' : world) : Prop :=
  schedule w' `suffix_of` schedule w.

(** Every shared-memory object but [name] is as it was. *)
Definition other_objects (name : string) (k k' : kernel) : Prop :=
  ∀ n, n ≠ name → shm_objs k' !! n = shm_objs k !! n.

(** ** Interruptions

    [quiet w w']: [w'] has the objects of [w] and its schedule without
    the interruptions; [errno] is left out of the comparison. *)

Definition without_interrupts (evs : list wait_event) : list wait_event :=
  filter (λ e, e ≠ WaitInterrupted) evs.

Definition quiet (w w' : world) : Prop :=
  same_objects w w' ∧ schedule w' = without_interrupts (schedule w).

Definition same_outcome {A} (o o' : outcome A) : Prop :=
  match o, o' with
  | Done a w, Done a' w' => a = a' ∧ quiet w w'
  | Blocked s, Blocked s' => s = s'
  | Fault f, Fault f' => f = f'
  | Spin, Spin => True
  | _, _ => False
  end.

Definition insensitive {A} (c : M A) : Prop :=
  ∀ w w', quiet w w' → same_outcome (c w) (c w').

(** The region [init_map(true)] leaves for [N] slots of [S] bytes. *)
Definition fresh_region (N S : Z) : list byte :=
  encode32 RING_MAGIC ++ encode32 1 ++ encode32 N ++ encode32 S
  ++ encode32 0 ++ encode32 0 ++ zeros 28 ++ zeros (N * (sizeof_uint32 + S)).

(** ** What the retry loop of [sem_wait_intr] amounts to

    Leading interruptions of the schedule are retried; the first other
    entry decides. *)

Fixpoint skip_interrupts (evs : list wait_event) : list wait_event :=
  match evs with
  | WaitInterrupted :: rest => skip_interrupts rest
  | _ => evs
  end.

Definition errno_after_wait (w : world) : errno_t :=
  match schedule w with
  | WaitInterrupted :: _ => EINTR
  | _ => errno w
  end.

Definition wait_result (s : sem_id) (w : world) : outcome Z :=
  match skip_interrupts (schedule w) with
  | WaitFailed :: sch =>
      Done (-1) (World (shm w) (free w) (filled w) (mutex w) EINVAL sch)
  | evs =>
      if decide (0 < sem_value s w)
      then Done 0 (set_sem s (sem_value s w - 1)
                     (World (shm w) (free w) (filled w) (mutex w) (errno_after_wait w) (tail evs)))
      else Blocked s
  end.

(** ** Facts about bytes and raw memory *)

Lemma Z_of_byte_range b : 0 <= Z_of_byte b < 256.
Proof.
  unfold Z_of_byte. pose proof (Byte.to_N_bounded b). lia.
Qed.

Lemma Z_of_byte_of_Z z : Z_of_byte (byte_of_Z z) = z mod 256.
Proof.
  unfold Z_of_byte, byte_of_Z.
  assert (Hr : 0 <= z mod 256 < 256) by (apply Z.mod_pos_bound; lia).
  destruct (Byte.of_N (Z.to_N (z mod 256))) as [b|] eqn:E.
  - apply Byte.to_of_N in E. simpl. rewrite E. lia.
  - apply Byte.of_N_None_iff in E. lia.
Qed.

Lemma length_encode32 v : length (encode32 v) = 4%nat.
Proof. reflexivity. Qed.

Lemma decode32_encode32 v : is_u32 v → decode32 (encode32 v) = v.
Proof.
  unfold is_u32, UINT32_MOD. intros Hv. unfold encode32, decode32.
  rewrite !Z_of_byte_of_Z.
  change (2 ^ 8) with 256. change (2 ^ 16) with 65536. change (2 ^ 24) with 16777216.
  change (2 ^ 32) with 4294967296 in Hv.
  assert (E2 : v / 65536 = v / 256 / 256) by (rewrite Z.div_div by lia; reflexivity).
  assert (E3 : v / 16777216 = v / 256 / 256 / 256) by (rewrite !Z.div_div by lia; reflexivity).
  rewrite E2, E3.
  pose proof (Z.div_mod v 256 ltac:(lia)).
  pose proof (Z.div_mod (v / 256) 256 ltac:(lia)).
  pose proof (Z.div_mod (v / 256 / 256) 256 ltac:(lia)).
  assert (0 <= v / 256 / 256 / 256 < 256).
  { rewrite !Z.div_div by lia. split; [apply Z.div_pos; lia|].
    apply Z.div_lt_upper_bound; lia. }
  rewrite (Z.mod_small (v / 256 / 256 / 256) 256) by lia.
  lia.
Qed.

Lemma decode32_range bs : 0 <= decode32 bs < UINT32_MOD.
Proof.
  unfold UINT32_MOD. change (2 ^ 32) with 4294967296.
  destruct bs as [|b0 [|b1 [|b2 [|b3 [|]]]]]; simpl; try lia.
  pose proof (Z_of_byte_range b0). pose proof (Z_of_byte_range b1).
  pose proof (Z_of_byte_range b2). pose proof (Z_of_byte_range b3).
  change (2 ^ 8) with 256. change (2 ^ 16) with 65536. change (2 ^ 24) with 16777216.
  lia.
Qed.

Lemma mem_write_Some m off src :
  0 <= off → off + Z.of_nat (length src) <= Z.of_nat (length m) →
  mem_write m off src
  = Some (take (Z.to_nat off) m ++ src ++ drop (Z.to_nat off + length src) m).
Proof. intros. unfold mem_write. rewrite decide_True by lia. done. Qed.

Lemma mem_write_inv m off src m' :
  mem_write m off src = Some m' →
  0 <= off ∧ off + Z.of_nat (length src) <= Z.of_nat (length m) ∧
  m' = take (Z.to_nat off) m ++ src ++ drop (Z.to_nat off + length src) m.
Proof. unfold mem_write. case_decide; [intros [= <-]; tauto | done]. Qed.

Lemma mem_write_length m off src m' :
  mem_write m off src = Some m' → length m' = length m.
Proof.
  intros (? & ? & ->)%mem_write_inv.
  rewrite !length_app, length_take, length_drop. lia.
Qed.

Lemma mem_write_lookup m off src m' (i : nat) :
  mem_write m off src = Some m' →
  m' !! i = if decide (off <= Z.of_nat i < off + Z.of_nat (length src))
            then src !! (i - Z.to_nat off)%nat else m !! i.
Proof.
  intros (? & ? & ->)%mem_write_inv.
  case_decide as Hi.
  - rewrite lookup_app_r by (rewrite length_take; lia).
    rewrite length_take, lookup_app_l by lia. f_equal. lia.
  - destruct (decide (Z.of_nat i < off)).
    + rewrite lookup_app_l by (rewrite length_take; lia).
      rewrite lookup_take_lt by lia. done.
    + rewrite lookup_app_r by (rewrite length_take; lia).
      rewrite lookup_app_r by (rewrite length_take; lia).
      rewrite lookup_drop, length_take. f_equal. lia.
Qed.

Lemma mem_read_Some m off n :
  0 <= off → 0 <= n → off + n <= Z.of_nat (length m) →
  mem_read m off n = Some (take (Z.to_nat n) (drop (Z.to_nat off) m)).
Proof. intros. unfold mem_read. rewrite decide_True by lia. done. Qed.

Lemma mem_read_inv m off n bs :
  mem_read m off n = Some bs →
  0 <= off ∧ 0 <= n ∧ off + n <= Z.of_nat (length m) ∧
  bs = take (Z.to_nat n) (drop (Z.to_nat off) m).
Proof. unfold mem_read. case_decide; [intros [= <-]; tauto | done]. Qed.

Lemma mem_read_length m off n bs :
  mem_read m off n = Some bs → Z.of_nat (length bs) = n.
Proof.
  intros (? & ? & ? & ->)%mem_read_inv.
  rewrite length_take, length_drop. lia.
Qed.

(** Two reads agree when the two regions have the same length and the
    same bytes in the window read. *)
Lemma mem_read_ext m m' off n :
  length m' = length m →
  (∀ i : nat, off <= Z.of_nat i < off + n → m' !! i = m !! i) →
  mem_read m' off n = mem_read m off n.
Proof.
  intros Hlen Hext. unfold mem_read. rewrite Hlen.
  case_decide as Hb; [|done]. f_equal.
  apply list_eq. intros i.
  destruct (decide (i < Z.to_nat n)%nat).
  - rewrite !lookup_take_lt, !lookup_drop by lia. apply Hext. lia.
  - rewrite !lookup_take_ge by lia. done.
Qed.

(** A read outside the window of a write sees the old bytes. *)
Lemma mem_read_write_other m off src m' off2 n :
  mem_write m off src = Some m' →
  off2 + n <= off ∨ off + Z.of_nat (length src) <= off2 →
  mem_read m' off2 n = mem_read m off2 n.
Proof.
  intros Hw Hdisj. apply mem_read_ext.
  - by eapply mem_write_length.
  - intros i Hi. rewrite (mem_write_lookup _ _ _ _ _ Hw), decide_False by lia. done.
Qed.

(** A read of exactly the window of a write sees the bytes written. *)
Lemma mem_read_write_same m off src m' :
  mem_write m off src = Some m' →
  mem_read m' off (Z.of_nat (length src)) = Some src.
Proof.
  intros Hw. pose proof (mem_write_length _ _ _ _ Hw) as Hlen.
  pose proof (mem_write_inv _ _ _ _ Hw) as (? & ? & _).
  rewrite mem_read_Some by lia. f_equal.
  apply list_eq. intros i.
  destruct (decide (i < length src)%nat).
  - rewrite lookup_take_lt, lookup_drop by lia.
    rewrite (mem_write_lookup _ _ _ _ _ Hw), decide_True by lia. f_equal. lia.
  - rewrite lookup_take_ge by lia. symmetry. apply lookup_ge_None. lia.
Qed.

Lemma load32_store32_same m off v m' :
  is_u32 v → store32 m off v = Some m' → load32 m' off = Some v.
Proof.
  intros Hv Hw. unfold load32, store32 in *.
  pose proof (mem_read_write_same _ _ _ _ Hw) as Hr.
  rewrite length_encode32 in Hr. change (Z.of_nat 4) with 4 in Hr.
  rewrite Hr. change (Some (decode32 (encode32 v)) = Some v).
  by rewrite decode32_encode32.
Qed.

Lemma load32_write_other m off src m' off2 :
  mem_write m off src = Some m' →
  off2 + 4 <= off ∨ off + Z.of_nat (length src) <= off2 →
  load32 m' off2 = load32 m off2.
Proof.
  intros Hw Hd. unfold load32. by erewrite mem_read_write_other.
Qed.

Lemma load32_range m off v : load32 m off = Some v → is_u32 v.
Proof.
  unfold load32. destruct (mem_read m off 4); simpl; [|done].
  intros [= <-]. apply decode32_range.
Qed.

(** ** The retry loop *)

Lemma wait_result_interrupted s w evs :
  schedule w = WaitInterrupted :: evs →
  wait_result s (set_errno EINTR (set_schedule evs w)) = wait_result s w.
Proof.
  intros Hs. unfold wait_result, errno_after_wait. rewrite Hs. simpl.
  destruct s, evs as [|[] ?]; reflexivity.
Qed.

Lemma sem_wait_intr_loop_eq fuel s w :
  (length (schedule w) < fuel)%nat →
  Ring.sem_wait_intr_loop fuel s w = wait_result s w.
Proof.
  revert w. induction fuel as [|fuel IH]; intros w Hfuel; [lia|].
  destruct w as [m fr fi mu e sch]. simpl in Hfuel.
  destruct sch as [|[] sch].
  - unfold wait_result. simpl. unfold mbind, M_bind, sem_wait. simpl.
    case_decide; [|done]. destruct s; reflexivity.
  - unfold wait_result. simpl. unfold mbind, M_bind, sem_wait. simpl.
    case_decide; [|done]. destruct s; reflexivity.
  - etrans; [|apply (wait_result_interrupted s _ sch); reflexivity].
    rewrite <- IH by (simpl in *; lia). reflexivity.
  - reflexivity.
Qed.

(** The loop always leaves through its exit: the bound of the model is
    never the reason for stopping. *)
Lemma sem_wait_intr_eq s w : Ring.sem_wait_intr s w = wait_result s w.
Proof. apply sem_wait_intr_loop_eq. lia. Qed.

Lemma sem_wait_intr_total s w : Ring.sem_wait_intr s w ≠ Spin.
Proof.
  rewrite sem_wait_intr_eq. unfold wait_result.
  destruct (skip_interrupts (schedule w)) as [|[] ?]; try case_decide; done.
Qed.

Lemma plain_sem_wait_intr_eq s w : Plain.sem_wait_intr s w = wait_result s w.
Proof. apply (sem_wait_intr_loop_eq (S (length (schedule w))) s w). lia. Qed.

(** ** Index and offset arithmetic *)

Lemma slot_offset_eq N S idx :
  ring_params N S → 0 <= idx < N →
  slot_offset S idx = sizeof_RingHeader + idx * (sizeof_uint32 + S).
Proof.
  unfold ring_params, SEM_VALUE_MAX, UINT32_MOD. intros [HN HS] Hidx.
  unfold slot_offset, usize, SIZE_MOD, sizeof_uint32.
  change (2 ^ 31 - 1) with 2147483647 in HN.
  change (2 ^ 32) with 4294967296 in HS.
  change (2 ^ 64) with 18446744073709551616.
  rewrite (Z.mod_small (4 + S)) by lia.
  rewrite Z.mod_small; [done|].
  assert (idx * (4 + S) <= 2147483647 * 4294967300)
    by (apply Z.mul_le_mono_nonneg; lia).
  split; [apply Z.mul_nonneg_nonneg; lia | lia].
Qed.

Lemma next_index N t :
  1 <= N <= SEM_VALUE_MAX → u32 (t mod N + 1) mod N = (t + 1) mod N.
Proof.
  unfold SEM_VALUE_MAX, u32, UINT32_MOD. intros HN.
  change (2 ^ 31 - 1) with 2147483647 in HN.
  change (2 ^ 32) with 4294967296.
  pose proof (Z.mod_pos_bound t N ltac:(lia)).
  rewrite (Z.mod_small (t mod N + 1)) by lia.
  rewrite Z.add_mod_idemp_l by lia. done.
Qed.

Lemma index_distinct N i t :
  0 < t - i < N → i mod N ≠ t mod N.
Proof.
  intros Hd Heq.
  assert (Hz : (t - i) mod N = 0).
  { rewrite Zminus_mod, Heq, Z.sub_diag. apply Z.mod_0_l. lia. }
  rewrite Z.mod_small in Hz by lia. lia.
Qed.

(** The byte windows of two different slots do not overlap. *)
Lemma slots_apart S a b :
  0 <= S → 0 <= a → 0 <= b → a ≠ b →
  sizeof_RingHeader + a * (sizeof_uint32 + S) + (sizeof_uint32 + S)
    <= sizeof_RingHeader + b * (sizeof_uint32 + S)
  ∨ sizeof_RingHeader + b * (sizeof_uint32 + S) + (sizeof_uint32 + S)
    <= sizeof_RingHeader + a * (sizeof_uint32 + S).
Proof.
  intros HS Ha Hb Hab. unfold sizeof_uint32, sizeof_RingHeader.
  destruct (decide (a < b)); [left|right]; nia.
Qed.

Lemma slot_in_region N S idx :
  0 <= S → 0 <= idx < N →
  sizeof_RingHeader + idx * (sizeof_uint32 + S) + (sizeof_uint32 + S)
    <= sizeof_RingHeader + N * (sizeof_uint32 + S).
Proof. unfold sizeof_uint32, sizeof_RingHeader. intros. nia. Qed.

(** ** The region part of the invariant *)

Lemma slot_holds_frame S m o src m' idx msg :
  mem_write m o src = Some m' →
  o + Z.of_nat (length src) <= slot_offset S idx
  ∨ slot_offset S idx + (sizeof_uint32 + S) <= o →
  slot_holds S m idx msg → slot_holds S m' idx msg.
Proof.
  unfold sizeof_uint32. intros Hw Hd (Hlen & Hl & Hp). split; [done|]. split.
  - rewrite <- Hl. eapply load32_write_other; [done|]. lia.
  - rewrite <- Hp. eapply mem_read_write_other; [done|]. unfold sizeof_uint32. lia.
Qed.

Lemma region_inv_header_frame N S hist nread m o src m' :
  mem_write m o src = Some m' →
  sizeof_RingHeader <= o →
  region_inv N S hist nread m →
  load32 m' OFF_magic = Some RING_MAGIC ∧
  load32 m' OFF_slot_count = Some N ∧
  load32 m' OFF_slot_size = Some S ∧
  load32 m' OFF_head = Some (nread mod N) ∧
  load32 m' OFF_tail = Some (Z.of_nat (length hist) mod N).
Proof.
  unfold sizeof_RingHeader. intros Hw Ho [].
  repeat split;
    (etrans; [eapply load32_write_other; [done|]|done]);
    unfold OFF_magic, OFF_slot_count, OFF_slot_size, OFF_head, OFF_tail; lia.
Qed.

(** ** Single steps of the monad *)

Lemma bind_Done {A B} (c : M A) (f : A → M B) w a w' :
  c w = Done a w' → (c ≫= f) w = f a w'.
Proof. intros H. unfold mbind, M_bind. by rewrite H. Qed.

Lemma hdr_get_Done off w v : load32 (shm w) off = Some v → hdr_get off w = Done v w.
Proof. intros H. unfold hdr_get. by rewrite H. Qed.

Lemma hdr_set_Done off v w m :
  store32 (shm w) off v = Some m → hdr_set off v w = Done () (set_shm m w).
Proof. intros H. unfold hdr_set. by rewrite H. Qed.

Lemma memcpy_to_Done off src w m :
  mem_write (shm w) off src = Some m → memcpy_to off src w = Done () (set_shm m w).
Proof. intros H. unfold memcpy_to. by rewrite H. Qed.

Lemma memcpy_from_Done off n w bs :
  mem_read (shm w) off n = Some bs → memcpy_from off n w = Done bs w.
Proof. intros H. unfold memcpy_from. by rewrite H. Qed.

Lemma umod_Done a b w : b ≠ 0 → umod a b w = Done (a mod b) w.
Proof. intros H. unfold umod. by rewrite decide_False. Qed.

Lemma sem_post_Done s w :
  sem_value s w < SEM_VALUE_MAX → sem_post s w = Done 0 (set_sem s (sem_value s w + 1) w).
Proof. intros H. unfold sem_post. by rewrite decide_True. Qed.

Lemma failure_in_suffix (l1 l2 : list wait_event) :
  l1 `suffix_of` l2 → WaitFailed ∈ l1 → WaitFailed ∈ l2.
Proof. intros [pre ->] H. apply elem_of_app. by right. Qed.

Lemma skip_interrupts_suffix evs : skip_interrupts evs `suffix_of` evs.
Proof.
  induction evs as [|[] evs IH]; simpl; try done.
  by apply suffix_cons_r.
Qed.

(** The three ways a wait can end.  A wait fails only when the schedule
    holds a failure, and what is left of the schedule is a suffix of it. *)
Lemma wait_result_cases s w :
  (∃ w', wait_result s w = Done (-1) w' ∧ same_objects w w' ∧
         WaitFailed ∈ schedule w)
  ∨ (0 < sem_value s w ∧
     ∃ w1, same_objects w w1 ∧ schedule w1 `suffix_of` schedule w ∧
           wait_result s w = Done 0 (set_sem s (sem_value s w - 1) w1))
  ∨ (sem_value s w <= 0 ∧ wait_result s w = Blocked s).
Proof.
  unfold wait_result. pose proof (skip_interrupts_suffix (schedule w)) as Hsuf.
  destruct (skip_interrupts (schedule w)) as [|[] sch].
  1,2,3: case_decide; [right; left; split; [done|]; eexists; split_and!; cycle 2;
                         [reflexivity|done|simpl]
                      |right; right; split; [lia|done]].
  - apply suffix_nil.
  - etrans; [|exact Hsuf]. by apply suffix_cons_r.
  - etrans; [|exact Hsuf]. by apply suffix_cons_r.
  - left. eexists. split; [done|]. split; [done|].
    eapply failure_in_suffix; [exact Hsuf|]. apply list_elem_of_here.
Qed.

Lemma bind_Done_inv {A B} (c : M A) (f : A → M B) w b w' :
  (c ≫= f) w = Done b w' → ∃ a w1, c w = Done a w1 ∧ f a w1 = Done b w'.
Proof.
  unfold mbind, M_bind. destruct (c w) as [a w1| | |]; [|done..]. eauto.
Qed.

Lemma ring_inv_same N S hist nread lf lr w w' :
  same_objects w w' → ring_inv N S hist nread lf lr w → ring_inv N S hist nread lf lr w'.
Proof.
  intros (Hm & Hfr & Hfi & Hmu) [].
  split; rewrite ?Hm, ?Hfr, ?Hfi, ?Hmu; done.
Qed.

Lemma same_objects_refl w : same_objects w w.
Proof. done. Qed.

(** ** The invariant of a ring of [N] slots of [S] bytes *)

Section Invariant.

Variables N S : Z.
Hypothesis Hp : ring_params N S.

(** Storing one more payload in the slot at [tail] and advancing [tail]. *)
Lemma region_put hist nread m msg :
  region_inv N S hist nread m →
  0 <= nread → Z.of_nat (length hist) - nread < N →
  Z.of_nat (length msg) <= S →
  let off := slot_offset S (Z.of_nat (length hist) mod N) in
  ∃ m1 m2 m3,
    mem_write m off (encode32 (Z.of_nat (length msg))) = Some m1 ∧
    mem_write m1 (off + sizeof_uint32) msg = Some m2 ∧
    load32 m2 OFF_slot_count = Some N ∧
    store32 m2 OFF_tail ((Z.of_nat (length hist) + 1) mod N) = Some m3 ∧
    region_inv N S (hist ++ [msg]) nread m3.
Proof.
  intros Hinv Hnr Hroom Hmsg off.
  pose proof Hp as [HN HS].
  set (T := Z.of_nat (length hist)) in *.
  assert (Hidx : 0 <= T mod N < N) by (apply Z.mod_pos_bound; lia).
  assert (Hoff : off = sizeof_RingHeader + (T mod N) * (sizeof_uint32 + S))
    by (by eapply slot_offset_eq).
  pose proof (slot_in_region N S (T mod N) ltac:(lia) Hidx) as Hin.
  pose proof (inv_size _ _ _ _ _ Hinv) as Hsize.
  unfold sizeof_uint32, sizeof_RingHeader in *.
  destruct (mem_write m off (encode32 (Z.of_nat (length msg)))) as [m1|] eqn:Hw1; last first.
  { rewrite mem_write_Some in Hw1; [done| |rewrite length_encode32]; lia. }
  pose proof (mem_write_length _ _ _ _ Hw1) as Hl1.
  destruct (mem_write m1 (off + 4) msg) as [m2|] eqn:Hw2; last first.
  { rewrite mem_write_Some in Hw2; [done|lia|]. rewrite Hl1. lia. }
  pose proof (mem_write_length _ _ _ _ Hw2) as Hl2.
  destruct (store32 m2 OFF_tail ((T + 1) mod N)) as [m3|] eqn:Hw3; last first.
  { unfold store32, OFF_tail in Hw3.
    rewrite mem_write_Some in Hw3; [done|lia|]. rewrite length_encode32, Hl2, Hl1. lia. }
  pose proof (mem_write_length _ _ _ _ Hw3) as Hl3.
  unfold store32 in Hw3.
  destruct (region_inv_header_frame _ _ _ _ _ _ _ _ Hw1 ltac:(unfold sizeof_RingHeader; lia) Hinv)
    as (Hmg1 & Hsc1 & Hss1 & Hh1 & Ht1).
  assert (Hfr2 : ∀ o, o + 4 <= 52 → load32 m2 o = load32 m1 o).
  { intros o Ho. eapply load32_write_other; [done|]. lia. }
  assert (Hfr3 : ∀ o, o + 4 <= 20 → load32 m3 o = load32 m2 o).
  { intros o Ho. eapply load32_write_other; [done|]. unfold OFF_tail. lia. }
  exists m1, m2, m3. split; [done|]. split; [done|]. split.
  { rewrite Hfr2 by (unfold OFF_slot_count; lia). done. }
  split; [done|]. split.
  - unfold sizeof_uint32, sizeof_RingHeader. lia.
  - rewrite Hfr3, Hfr2 by (unfold OFF_magic; lia). done.
  - rewrite Hfr3, Hfr2 by (unfold OFF_slot_count; lia). done.
  - rewrite Hfr3, Hfr2 by (unfold OFF_slot_size; lia). done.
  - rewrite Hfr3, Hfr2 by (unfold OFF_head; lia). done.
  - rewrite length_app. simpl.
    replace (Z.of_nat (length hist + 1)) with (T + 1) by (unfold T; lia).
    eapply load32_store32_same; [|done].
    pose proof (Z.mod_pos_bound (T + 1) N ltac:(lia)).
    unfold is_u32, UINT32_MOD, SEM_VALUE_MAX in *. lia.
  - intros i msg' Hi Hlook.
    apply lookup_app_Some in Hlook as [Hold|[Hge Hnew]].
    + pose proof (lookup_lt_Some _ _ _ Hold) as Hlt.
      pose proof (inv_slots _ _ _ _ _ Hinv i msg' Hi Hold) as Hs.
      assert (Hne : Z.of_nat i mod N ≠ T mod N) by (apply index_distinct; unfold T; lia).
      assert (Hi' : 0 <= Z.of_nat i mod N < N) by (apply Z.mod_pos_bound; lia).
      pose proof (slot_offset_eq N S _ Hp Hi') as Hoi.
      pose proof (slots_apart S (Z.of_nat i mod N) (T mod N) ltac:(lia) ltac:(lia) ltac:(lia) Hne)
        as Hap.
      unfold sizeof_uint32, sizeof_RingHeader in *.
      eapply slot_holds_frame; [exact Hw3| |].
      { left. rewrite length_encode32. unfold OFF_tail. lia. }
      eapply slot_holds_frame; [exact Hw2| |].
      { unfold sizeof_uint32. lia. }
      eapply slot_holds_frame; [exact Hw1| |done].
      { rewrite length_encode32. unfold sizeof_uint32. lia. }
    + destruct (i - length hist)%nat eqn:Ei; [|by destruct n]. simpl in Hnew.
      injection Hnew as <-.
      assert (i = length hist) as -> by lia. fold T. fold off.
      split; [done|]. split.
      * etrans; [eapply load32_write_other; [exact Hw3|]|].
        { right. rewrite length_encode32. unfold OFF_tail, sizeof_uint32. lia. }
        etrans; [eapply load32_write_other; [exact Hw2|]|].
        { left. lia. }
        eapply load32_store32_same; [|exact Hw1].
        unfold is_u32. unfold UINT32_MOD in *. lia.
      * unfold sizeof_uint32.
        etrans; [eapply mem_read_write_other; [exact Hw3|]|].
        { right. rewrite length_encode32. unfold OFF_tail. lia. }
        by eapply mem_read_write_same.
Qed.

(** Handing out the payload of the slot at [head] and advancing [head]. *)
Lemma region_take hist nread m msg :
  region_inv N S hist nread m →
  0 <= nread → hist !! Z.to_nat nread = Some msg →
  let off := slot_offset S (nread mod N) in
  ∃ bs m',
    mem_read m off sizeof_uint32 = Some bs ∧
    decode32 bs = Z.of_nat (length msg) ∧
    mem_read m (off + sizeof_uint32) (Z.of_nat (length msg)) = Some msg ∧
    store32 m OFF_head ((nread + 1) mod N) = Some m' ∧
    load32 m' OFF_slot_count = Some N ∧
    region_inv N S hist (nread + 1) m'.
Proof.
  intros Hinv Hnr Hlook off.
  pose proof Hp as [HN HS].
  pose proof (inv_slots _ _ _ _ _ Hinv (Z.to_nat nread) msg ltac:(lia) Hlook) as Hs.
  rewrite Z2Nat.id in Hs by lia.
  destruct Hs as (Hlen & Hl & Hpay).
  unfold load32 in Hl. subst off.
  set (off := slot_offset S (nread mod N)) in *.
  destruct (mem_read m off 4) as [bs|] eqn:Hbs; simpl in Hl; [|done].
  injection Hl as Hdec.
  pose proof (inv_size _ _ _ _ _ Hinv) as Hsize.
  unfold sizeof_uint32, sizeof_RingHeader in *.
  destruct (store32 m OFF_head ((nread + 1) mod N)) as [m'|] eqn:Hw; last first.
  { unfold store32, OFF_head in Hw.
    rewrite mem_write_Some in Hw; [done|lia|]. rewrite length_encode32. nia. }
  pose proof (mem_write_length _ _ _ _ Hw) as Hl'.
  unfold store32 in Hw.
  assert (Hfr : ∀ o, o + 4 <= 16 ∨ 20 <= o → load32 m' o = load32 m o).
  { intros o Ho. eapply load32_write_other; [done|].
    rewrite length_encode32. unfold OFF_head. lia. }
  exists bs, m'.
  split; [done|]. split; [done|]. split; [done|]. split; [done|]. split.
  { rewrite Hfr by (unfold OFF_slot_count; lia). apply Hinv. }
  split.
  - unfold sizeof_uint32, sizeof_RingHeader. lia.
  - rewrite Hfr by (unfold OFF_magic; lia). apply Hinv.
  - rewrite Hfr by (unfold OFF_slot_count; lia). apply Hinv.
  - rewrite Hfr by (unfold OFF_slot_size; lia). apply Hinv.
  - eapply load32_store32_same; [|done].
    pose proof (Z.mod_pos_bound (nread + 1) N ltac:(lia)).
    unfold is_u32, UINT32_MOD, SEM_VALUE_MAX in *. lia.
  - rewrite Hfr by (unfold OFF_tail; lia). apply Hinv.
  - intros i msg' Hi Hlook'.
    pose proof (inv_slots _ _ _ _ _ Hinv i msg' ltac:(lia) Hlook') as Hs.
    assert (Hi' : 0 <= Z.of_nat i mod N < N) by (apply Z.mod_pos_bound; lia).
    pose proof (slot_offset_eq N S _ Hp Hi') as Hoi.
    unfold sizeof_uint32, sizeof_RingHeader in *.
    eapply slot_holds_frame; [exact Hw| |done].
    left. rewrite length_encode32. unfold OFF_head. nia.
Qed.

(** *** One call under the invariant *)

Lemma write_message_spec hist nread lf lr self data len w :
  slot_size_ self = S →
  ring_inv N S hist nread lf lr w →
  match Ring.write_message self data len w with
  | Done true w' =>
      len <= S ∧ 0 <= len <= Z.of_nat (length data) ∧
      ring_inv N S (hist ++ [take (Z.to_nat len) data]) nread lf lr w'
  | Done false w' =>
      (len > S ∨ WaitFailed ∈ schedule w) ∧
      ((same_objects w w' ∧ ring_inv N S hist nread lf lr w')
       ∨ (len <= S ∧ ring_inv N S hist nread (lf + 1) lr w'))
  | Blocked s => s = SemFree ∧ free w = 0 ∧ len <= S
  | Fault f => f = OutOfBounds ∧ ¬ 0 <= len <= Z.of_nat (length data)
  | Spin => False
  end.
Proof.
  intros HS Hinv. pose proof Hp as [HN HSr].
  unfold Ring.write_message. rewrite HS.
  case_decide as Hbig.
  { split; [by left|]. left. split; [apply same_objects_refl|done]. }
  destruct (wait_result_cases SemFree w)
    as [(w1 & Hw1 & Hs1 & Hf1)|[(Hpos & w1 & Hs1 & Hsuf1 & Hw1)|(Hz & Hw1)]];
    rewrite <- sem_wait_intr_eq in Hw1.
  { rewrite (bind_Done _ _ _ _ _ Hw1). simpl.
    split; [by right|]. left. split; [done|]. by eapply ring_inv_same. }
  2: { unfold mbind, M_bind. rewrite Hw1. simpl in Hz.
       destruct Hinv. split; [done|]. split; lia. }
  rewrite (bind_Done _ _ _ _ _ Hw1), decide_False by lia.
  set (w1' := set_sem SemFree (sem_value SemFree w - 1) w1).
  destruct Hs1 as (Hm1 & Hfr1 & Hfi1 & Hmu1).
  destruct Hinv as [Hreg Hpend Hlost Hfree Hfilled Hnn Hmutex].
  simpl in Hpos.
  destruct (wait_result_cases SemMutex w1')
    as [(w2 & Hw2 & Hs2 & Hf2)|[(Hpos2 & w2 & Hs2 & _ & Hw2)|(Hz & Hw2)]];
    rewrite <- sem_wait_intr_eq in Hw2.
  { rewrite (bind_Done _ _ _ _ _ Hw2). simpl.
    split.
    { right. eapply failure_in_suffix; [exact Hsuf1|]. by destruct w1. }
    right. split; [lia|].
    destruct Hs2 as (Hm2 & Hfr2 & Hfi2 & Hmu2). simpl in *.
    split; rewrite ?Hm2, ?Hfr2, ?Hfi2, ?Hmu2, ?Hm1, ?Hfi1, ?Hmu1; try done; lia. }
  2: { simpl in Hz. lia. }
  rewrite (bind_Done _ _ _ _ _ Hw2), decide_False by lia.
  destruct Hs2 as (Hm2 & Hfr2 & Hfi2 & Hmu2). simpl in Hm2, Hfr2, Hfi2, Hmu2, Hpos2.
  set (w2' := set_sem SemMutex (sem_value SemMutex w1' - 1) w2).
  assert (Hshm : shm w2' = shm w) by (simpl; congruence).
  assert (Hfr' : free w2' = free w - 1) by (simpl; congruence).
  assert (Hfi' : filled w2' = filled w) by (simpl; congruence).
  assert (Hmu' : mutex w2' = 0) by (simpl; lia).
  clearbody w2'. clear dependent w1. clear dependent w2.
  erewrite bind_Done; [|apply hdr_get_Done; rewrite Hshm; apply Hreg].
  set (T := Z.of_nat (length hist)) in *.
  set (off := slot_offset S (T mod N)).
  assert (Hidx : 0 <= T mod N < N) by (apply Z.mod_pos_bound; lia).
  assert (Hoff : off = sizeof_RingHeader + (T mod N) * (sizeof_uint32 + S))
    by (by eapply slot_offset_eq).
  pose proof (slot_in_region N S (T mod N) ltac:(lia) Hidx) as Hin.
  pose proof (inv_size _ _ _ _ _ Hreg) as Hsize.
  destruct (decide (0 <= len <= Z.of_nat (length data))) as [Hbuf|Hbuf]; last first.
  { (* [data] does not hold [len] bytes *)
    unfold sizeof_uint32, sizeof_RingHeader in *.
    erewrite bind_Done; last first.
    { apply memcpy_to_Done. rewrite Hshm. apply mem_write_Some; [lia|].
      rewrite length_encode32. lia. }
    unfold buffer_prefix. rewrite decide_False by lia.
    unfold mbind, M_bind, raise. done. }
  set (msg := take (Z.to_nat len) data).
  assert (Hmsg : Z.of_nat (length msg) = len)
    by (unfold msg; rewrite length_take; lia).
  destruct (region_put hist nread (shm w) msg Hreg ltac:(lia) ltac:(fold T; lia)
              ltac:(lia)) as (m1 & m2 & m3 & Hwr1 & Hwr2 & Hsc & Hwr3 & Hreg').
  fold T in Hwr1, Hwr2, Hwr3. fold off in Hwr1, Hwr2. rewrite Hmsg in Hwr1.
  erewrite bind_Done; [|apply memcpy_to_Done; rewrite Hshm; exact Hwr1].
  unfold buffer_prefix. rewrite decide_True by lia. fold msg.
  erewrite bind_Done; [|reflexivity].
  erewrite bind_Done; [|apply memcpy_to_Done; exact Hwr2].
  erewrite bind_Done; [|apply hdr_get_Done; exact Hsc].
  erewrite bind_Done; [|apply umod_Done; lia].
  rewrite next_index by done.
  erewrite bind_Done; [|apply hdr_set_Done; exact Hwr3].
  unfold SEM_VALUE_MAX in *.
  erewrite bind_Done; [|apply sem_post_Done; simpl; unfold SEM_VALUE_MAX; lia].
  erewrite bind_Done; [|apply sem_post_Done; simpl; unfold SEM_VALUE_MAX; lia].
  simpl. split; [lia|]. split; [lia|].
  split; simpl; rewrite ?length_app; simpl; try done; lia.
Qed.

Lemma read_message_spec hist nread lf lr self out w :
  slot_size_ self = S →
  ring_inv N S hist nread lf lr w →
  match Ring.read_message self out w with
  | Done (true, out') w' =>
      hist !! Z.to_nat nread = Some out' ∧ ring_inv N S hist (nread + 1) lf lr w'
  | Done (false, out') w' =>
      out' = out ∧ WaitFailed ∈ schedule w ∧
      ((same_objects w w' ∧ ring_inv N S hist nread lf lr w')
       ∨ ring_inv N S hist nread lf (lr + 1) w')
  | Blocked s => s = SemFilled ∧ filled w = 0
  | Fault f => False
  | Spin => False
  end.
Proof.
  intros HS Hinv. pose proof Hp as [HN HSr].
  unfold Ring.read_message. rewrite HS.
  destruct (wait_result_cases SemFilled w)
    as [(w1 & Hw1 & Hs1 & Hf1)|[(Hpos & w1 & Hs1 & Hsuf1 & Hw1)|(Hz & Hw1)]];
    rewrite <- sem_wait_intr_eq in Hw1.
  { rewrite (bind_Done _ _ _ _ _ Hw1). simpl.
    split; [done|]. split; [done|]. left. split; [done|]. by eapply ring_inv_same. }
  2: { unfold mbind, M_bind. rewrite Hw1. simpl in Hz.
       destruct Hinv. split; [done|]. lia. }
  rewrite (bind_Done _ _ _ _ _ Hw1), decide_False by lia.
  set (w1' := set_sem SemFilled (sem_value SemFilled w - 1) w1).
  destruct Hs1 as (Hm1 & Hfr1 & Hfi1 & Hmu1).
  destruct Hinv as [Hreg Hpend Hlost Hfree Hfilled Hnn Hmutex].
  simpl in Hpos.
  destruct (wait_result_cases SemMutex w1')
    as [(w2 & Hw2 & Hs2 & Hf2)|[(Hpos2 & w2 & Hs2 & _ & Hw2)|(Hz & Hw2)]];
    rewrite <- sem_wait_intr_eq in Hw2.
  { rewrite (bind_Done _ _ _ _ _ Hw2). simpl.
    split; [done|]. split.
    { eapply failure_in_suffix; [exact Hsuf1|]. by destruct w1. }
    right.
    destruct Hs2 as (Hm2 & Hfr2 & Hfi2 & Hmu2). simpl in *.
    split; rewrite ?Hm2, ?Hfr2, ?Hfi2, ?Hmu2, ?Hm1, ?Hfr1, ?Hmu1; try done; lia. }
  2: { simpl in Hz. lia. }
  rewrite (bind_Done _ _ _ _ _ Hw2), decide_False by lia.
  destruct Hs2 as (Hm2 & Hfr2 & Hfi2 & Hmu2). simpl in Hm2, Hfr2, Hfi2, Hmu2, Hpos2.
  set (w2' := set_sem SemMutex (sem_value SemMutex w1' - 1) w2).
  assert (Hshm : shm w2' = shm w) by (simpl; congruence).
  assert (Hfr' : free w2' = free w) by (simpl; congruence).
  assert (Hfi' : filled w2' = filled w - 1) by (simpl; congruence).
  assert (Hmu' : mutex w2' = 0) by (simpl; lia).
  clearbody w2'. clear dependent w1. clear dependent w2.
  erewrite bind_Done; [|apply hdr_get_Done; rewrite Hshm; apply Hreg].
  set (T := Z.of_nat (length hist)) in *.
  destruct (hist !! Z.to_nat nread) as [msg|] eqn:Hlook; last first.
  { apply lookup_ge_None in Hlook. lia. }
  destruct (region_take hist nread (shm w) msg Hreg ltac:(lia) Hlook)
    as (bs & m' & Hrd1 & Hdec & Hrd2 & Hwr & Hsc & Hreg').
  erewrite bind_Done; [|apply memcpy_from_Done; rewrite Hshm; exact Hrd1].
  rewrite Hdec.
  erewrite bind_Done; [|apply memcpy_from_Done; rewrite Hshm; exact Hrd2].
  erewrite bind_Done; [|apply hdr_get_Done; rewrite Hshm; apply Hreg].
  erewrite bind_Done; [|apply umod_Done; lia].
  rewrite next_index by done.
  erewrite bind_Done; [|apply hdr_set_Done; rewrite Hshm; exact Hwr].
  erewrite bind_Done; [|apply sem_post_Done; simpl; unfold SEM_VALUE_MAX; lia].
  erewrite bind_Done; [|apply sem_post_Done; simpl; unfold SEM_VALUE_MAX in *; lia].
  simpl. split; [done|].
  split; simpl; try done; lia.
Qed.

(** *** Sequences of calls under the invariant *)

Lemma run_spec producer consumer ops :
  slot_size_ producer = S → slot_size_ consumer = S →
  ∀ hist nread lf lr w evs w',
    ring_inv N S hist nread lf lr w →
    run producer consumer ops w = Done evs w' →
    ∃ nread' lf' lr',
      ring_inv N S (hist ++ written evs) nread' lf' lr' w' ∧
      nread' = nread + Z.of_nat (length (delivered evs)) ∧
      delivered evs
      = take (length (delivered evs)) (drop (Z.to_nat nread) (hist ++ written evs)) ∧
      (all_ok evs → lf' = lf ∧ lr' = lr).
Proof.
  intros Hsp Hsc.
  induction ops as [|[data len|out] ops IH]; intros hist nread lf lr w evs w' Hinv Hrun.
  - injection Hrun as <- <-. exists nread, lf, lr. simpl. rewrite app_nil_r.
    split; [done|]. split; [lia|]. done.
  - simpl in Hrun.
    apply bind_Done_inv in Hrun as (ok & w1 & Hw & Hrun).
    apply bind_Done_inv in Hrun as (evs1 & w2 & Hrest & Hret).
    injection Hret as <- <-.
    pose proof (write_message_spec hist nread lf lr producer data len w Hsp Hinv)
      as Hspec.
    rewrite Hw in Hspec. destruct ok.
    + destruct Hspec as (_ & _ & Hinv1).
      destruct (IH _ _ _ _ _ _ _ Hinv1 Hrest) as (n' & lf' & lr' & Hinv' & Hn' & Hdel & Hok).
      exists n', lf', lr'. simpl. rewrite <- app_assoc in Hinv', Hdel. simpl in Hinv', Hdel.
      split; [done|]. split; [done|]. split; [done|].
      intros Hall. apply Hok. by inversion Hall.
    + assert (∃ lf1, ring_inv N S hist nread lf1 lr w1) as [lf1 Hinv1].
      { destruct Hspec as [_ [[_ ?]|[_ ?]]]; eauto. }
      destruct (IH _ _ _ _ _ _ _ Hinv1 Hrest) as (n' & lf' & lr' & Hinv' & Hn' & Hdel & Hok).
      exists n', lf', lr'. simpl.
      split; [done|]. split; [done|]. split; [done|].
      intros Hall. by inversion Hall.
  - simpl in Hrun.
    apply bind_Done_inv in Hrun as ([ok out'] & w1 & Hr & Hrun).
    apply bind_Done_inv in Hrun as (evs1 & w2 & Hrest & Hret).
    injection Hret as <- <-.
    pose proof (read_message_spec hist nread lf lr consumer out w Hsc Hinv) as Hspec.
    rewrite Hr in Hspec. destruct ok.
    + destruct Hspec as (Hlook & Hinv1).
      destruct (IH _ _ _ _ _ _ _ Hinv1 Hrest) as (n' & lf' & lr' & Hinv' & Hn' & Hdel & Hok).
      pose proof (inv_pending _ _ _ _ _ _ _ Hinv) as Hnr.
      exists n', lf', lr'. simpl.
      split; [done|]. split; [lia|]. split.
      * rewrite (drop_S _ out' (Z.to_nat nread)) by (by apply lookup_app_l_Some).
        simpl. f_equal.
        replace (Datatypes.S (Z.to_nat nread)) with (Z.to_nat (nread + 1)) by lia. done.
      * intros Hall. apply Hok. by inversion Hall.
    + assert (∃ lr1, ring_inv N S hist nread lf lr1 w1) as [lr1 Hinv1].
      { destruct Hspec as (_ & _ & [[_ ?]|?]); eauto. }
      destruct (IH _ _ _ _ _ _ _ Hinv1 Hrest) as (n' & lf' & lr' & Hinv' & Hn' & Hdel & Hok).
      exists n', lf', lr'. simpl.
      split; [done|]. split; [done|]. split; [done|].
      intros Hall. by inversion Hall.
Qed.

End Invariant.

(** ** Creating a ring *)

Lemma map_size_eq N S :
  0 <= N <= SEM_VALUE_MAX → 0 <= S < UINT32_MOD →
  usize (sizeof_RingHeader + usize (N * usize (sizeof_uint32 + S)))
  = sizeof_RingHeader + N * (sizeof_uint32 + S).
Proof.
  unfold SEM_VALUE_MAX, UINT32_MOD, usize, SIZE_MOD, sizeof_uint32, sizeof_RingHeader.
  change (2 ^ 31 - 1) with 2147483647. change (2 ^ 32) with 4294967296.
  change (2 ^ 64) with 18446744073709551616. intros HN HS.
  rewrite (Z.mod_small (4 + S)) by lia.
  assert (0 <= N * (4 + S) <= 2147483647 * 4294967300).
  { split; [apply Z.mul_nonneg_nonneg; lia|apply Z.mul_le_mono_nonneg; lia]. }
  rewrite (Z.mod_small (N * (4 + S))) by lia.
  rewrite Z.mod_small by lia. done.
Qed.

Lemma length_zeros n : 0 <= n → Z.of_nat (length (zeros n)) = n.
Proof. intros. unfold zeros. rewrite length_replicate. lia. Qed.

(** The header stores and the [memset] of [init_map] on a region of
    exactly the computed size. *)
Lemma init_region N S m0 :
  0 <= N <= SEM_VALUE_MAX → 0 <= S < UINT32_MOD →
  Z.of_nat (length m0) = sizeof_RingHeader + N * (sizeof_uint32 + S) →
  ∃ m1 m2 m3 m4 m5 m6 m7,
    store32 m0 OFF_magic RING_MAGIC = Some m1 ∧
    store32 m1 OFF_version 1 = Some m2 ∧
    store32 m2 OFF_slot_count N = Some m3 ∧
    store32 m3 OFF_slot_size S = Some m4 ∧
    store32 m4 OFF_head 0 = Some m5 ∧
    store32 m5 OFF_tail 0 = Some m6 ∧
    mem_write m6 sizeof_RingHeader (zeros (N * (sizeof_uint32 + S))) = Some m7 ∧
    length m7 = length m0 ∧
    region_inv N S [] 0 m7.
Proof.
  intros HN HS Hlen.
  assert (Hnn : 0 <= N * (sizeof_uint32 + S))
    by (unfold sizeof_uint32; apply Z.mul_nonneg_nonneg; lia).
  unfold sizeof_RingHeader in *.
  assert (Hst : ∀ m off v, length m = length m0 → 0 <= off → off + 4 <= 52 →
            ∃ m', store32 m off v = Some m' ∧ length m' = length m0).
  { intros m off v Hm ??. unfold store32.
    destruct (mem_write m off (encode32 v)) as [m'|] eqn:E.
    - exists m'. split; [done|]. by rewrite (mem_write_length _ _ _ _ E).
    - rewrite mem_write_Some in E; [done|lia|]. rewrite length_encode32, Hm. lia. }
  destruct (Hst m0 OFF_magic RING_MAGIC) as (m1 & H1 & L1); [done|unfold OFF_magic; lia..|].
  destruct (Hst m1 OFF_version 1) as (m2 & H2 & L2); [done|unfold OFF_version; lia..|].
  destruct (Hst m2 OFF_slot_count N) as (m3 & H3 & L3); [done|unfold OFF_slot_count; lia..|].
  destruct (Hst m3 OFF_slot_size S) as (m4 & H4 & L4); [done|unfold OFF_slot_size; lia..|].
  destruct (Hst m4 OFF_head 0) as (m5 & H5 & L5); [done|unfold OFF_head; lia..|].
  destruct (Hst m5 OFF_tail 0) as (m6 & H6 & L6); [done|unfold OFF_tail; lia..|].
  destruct (mem_write m6 52 (zeros (N * (sizeof_uint32 + S)))) as [m7|] eqn:H7; last first.
  { rewrite mem_write_Some in H7; [done|lia|]. rewrite length_zeros, L6 by done. lia. }
  pose proof (mem_write_length _ _ _ _ H7) as L7.
  exists m1, m2, m3, m4, m5, m6, m7.
  do 7 (split; [done|]). split; [congruence|].
  unfold store32 in *.
  assert (Hu : ∀ v, 0 <= v < UINT32_MOD → is_u32 v) by done.
  unfold SEM_VALUE_MAX, UINT32_MOD in *.
  split.
  - unfold sizeof_RingHeader. lia.
  - etrans; [eapply load32_write_other; [exact H7|unfold OFF_magic; lia]|].
    etrans; [eapply load32_write_other; [exact H6|unfold OFF_magic, OFF_tail; lia]|].
    etrans; [eapply load32_write_other; [exact H5|unfold OFF_magic, OFF_head; lia]|].
    etrans; [eapply load32_write_other; [exact H4|unfold OFF_magic, OFF_slot_size; lia]|].
    etrans; [eapply load32_write_other; [exact H3|unfold OFF_magic, OFF_slot_count; lia]|].
    etrans; [eapply load32_write_other; [exact H2|unfold OFF_magic, OFF_version; lia]|].
    eapply load32_store32_same; [|exact H1]. done.
  - etrans; [eapply load32_write_other; [exact H7|unfold OFF_slot_count; lia]|].
    etrans; [eapply load32_write_other; [exact H6|unfold OFF_slot_count, OFF_tail; lia]|].
    etrans; [eapply load32_write_other; [exact H5|unfold OFF_slot_count, OFF_head; lia]|].
    etrans; [eapply load32_write_other; [exact H4|unfold OFF_slot_count, OFF_slot_size; lia]|].
    eapply load32_store32_same; [|exact H3]. apply Hu. unfold UINT32_MOD. lia.
  - etrans; [eapply load32_write_other; [exact H7|unfold OFF_slot_size; lia]|].
    etrans; [eapply load32_write_other; [exact H6|unfold OFF_slot_size, OFF_tail; lia]|].
    etrans; [eapply load32_write_other; [exact H5|unfold OFF_slot_size, OFF_head; lia]|].
    eapply load32_store32_same; [|exact H4]. apply Hu. unfold UINT32_MOD. lia.
  - etrans; [eapply load32_write_other; [exact H7|unfold OFF_head; lia]|].
    etrans; [eapply load32_write_other; [exact H6|unfold OFF_head, OFF_tail; lia]|].
    rewrite Zmod_0_l. eapply load32_store32_same; [|exact H5]. done.
  - etrans; [eapply load32_write_other; [exact H7|unfold OFF_tail; lia]|].
    simpl. rewrite Zmod_0_l. eapply load32_store32_same; [|exact H6]. done.
  - intros i msg _ Hl. by rewrite lookup_nil in Hl.
Qed.

Lemma K_bind_Ok {A B} (c : K A) (f : A → K B) k a k1 :
  c k = Ok a k1 → (c ≫= f) k = f a k1.
Proof. intros H. unfold mbind, K_bind. by rewrite H. Qed.

Lemma K_bind_Ok_inv {A B} (c : K A) (f : A → K B) k b k' :
  (c ≫= f) k = Ok b k' → ∃ a k1, c k = Ok a k1 ∧ f a k1 = Ok b k'.
Proof.
  unfold mbind, K_bind. destruct (c k) as [a k1| |]; [|done..]. eauto.
Qed.

Lemma K_bind_assoc {A B C} (c : K A) (g : A → K B) (f : B → K C) k :
  ((c ≫= g) ≫= f) k = (c ≫= (λ a, g a ≫= f)) k.
Proof. unfold mbind, K_bind. by destruct (c k). Qed.

Lemma map_write_Ok name off src k m m' :
  shm_objs k !! name = Some m → mem_write m off src = Some m' →
  map_write name off src k = Ok () (Kernel (<[name := m']> (shm_objs k)) (sem_objs k)).
Proof. intros Hk Hw. unfold map_write. rewrite Hk. simpl. by rewrite Hw. Qed.

Lemma map_load32_Ok name off k m v :
  shm_objs k !! name = Some m → load32 m off = Some v →
  map_load32 name off k = Ok v k.
Proof. intros Hk Hl. unfold map_load32. rewrite Hk. simpl. by rewrite Hl. Qed.

Lemma off_t_of_small n : n < 2 ^ 63 → off_t_of n = n.
Proof. intros. unfold off_t_of. by rewrite decide_True by done. Qed.

Lemma total_size_bound N S :
  0 <= N <= SEM_VALUE_MAX → 0 <= S < UINT32_MOD →
  0 <= N * (sizeof_uint32 + S) ∧
  sizeof_RingHeader + N * (sizeof_uint32 + S) < 2 ^ 64.
Proof.
  unfold SEM_VALUE_MAX, UINT32_MOD, sizeof_uint32, sizeof_RingHeader.
  change (2 ^ 31 - 1) with 2147483647. change (2 ^ 32) with 4294967296.
  change (2 ^ 64) with 18446744073709551616. intros HN HS.
  assert (N * (4 + S) <= 2147483647 * 4294967300)
    by (apply Z.mul_le_mono_nonneg; lia).
  split; [apply Z.mul_nonneg_nonneg; lia|lia].
Qed.

Lemma shm_open_create name k :
  ∃ k1 obj, shm_open name true k = Ok true k1 ∧
            shm_objs k1 !! name = Some obj ∧ sem_objs k1 = sem_objs k.
Proof.
  unfold shm_open. destruct (shm_objs k !! name) as [obj|] eqn:E.
  - by exists k, obj.
  - eexists _, []. split; [done|]. simpl. by rewrite lookup_insert_eq.
Qed.

(** A computed size of [2^63] bytes or more is a negative [off_t]:
    [ftruncate] refuses it and no handle is returned. *)
Lemma init_map_create_huge p k N S :
  slot_count_ p = N → slot_size_ p = S →
  0 <= N <= SEM_VALUE_MAX → 0 <= S < UINT32_MOD →
  2 ^ 63 <= sizeof_RingHeader + N * (sizeof_uint32 + S) →
  ∃ k', Ring.init_map p true k = Err "ftruncate" k'.
Proof.
  intros HpN HpS HN HS Hbig.
  pose proof (total_size_bound N S HN HS) as [Hnn Hlt].
  unfold Ring.init_map. rewrite HpN, HpS, map_size_eq by done.
  destruct (shm_open_create (shm_name_ p) k) as (k1 & obj & Hopen & Hk1 & _).
  rewrite (K_bind_Ok _ _ _ _ _ Hopen). cbn [negb]. cbv iota.
  assert (Htr : ftruncate (shm_name_ p)
                  (off_t_of (sizeof_RingHeader + N * (sizeof_uint32 + S))) k1
                = Ok false k1).
  { unfold ftruncate, off_t_of. rewrite Hk1.
    change (2 ^ 63) with 9223372036854775808 in *.
    change (2 ^ 64) with 18446744073709551616 in *.
    destruct (decide (_ < 9223372036854775808)); [lia|].
    rewrite decide_True by lia. done. }
  rewrite K_bind_assoc, (K_bind_Ok _ _ _ _ _ Htr). simpl.
  by eexists.
Qed.

(** Otherwise [init_map(true)] succeeds whatever the name space holds,
    and leaves an initialised region of the computed size. *)
Lemma init_map_create p k N S :
  slot_count_ p = N → slot_size_ p = S →
  0 <= N <= SEM_VALUE_MAX → 0 <= S < UINT32_MOD →
  sizeof_RingHeader + N * (sizeof_uint32 + S) < 2 ^ 63 →
  ∃ m k',
    Ring.init_map p true k
    = Ok (with_map p (sizeof_RingHeader + N * (sizeof_uint32 + S)) N S) k' ∧
    shm_objs k' !! shm_name_ p = Some m ∧
    sem_objs k' = sem_objs k ∧
    region_inv N S [] 0 m ∧
    Z.of_nat (length m) = sizeof_RingHeader + N * (sizeof_uint32 + S).
Proof.
  intros HpN HpS HN HS Hlt.
  pose proof (total_size_bound N S HN HS) as [Hnn _].
  set (total := sizeof_RingHeader + N * (sizeof_uint32 + S)) in *.
  assert (Htot : 52 <= total) by (unfold total, sizeof_RingHeader; lia).
  unfold Ring.init_map. rewrite HpN, HpS, map_size_eq by done. fold total.
  set (name := shm_name_ p).
  destruct (shm_open_create name k) as (k1 & obj & Hopen & Hk1 & Hs1).
  rewrite (K_bind_Ok _ _ _ _ _ Hopen). cbn [negb]. cbv iota.
  set (m0 := resize (Z.to_nat total) x00 obj).
  set (k2 := Kernel (<[name := m0]> (shm_objs k1)) (sem_objs k1)).
  assert (Htr : ftruncate name (off_t_of total) k1 = Ok true k2).
  { unfold ftruncate. rewrite Hk1, off_t_of_small by done.
    rewrite decide_False by lia. done. }
  assert (Hm0 : Z.of_nat (length m0) = total).
  { unfold m0. rewrite length_resize. lia. }
  rewrite K_bind_assoc, (K_bind_Ok _ _ _ _ _ Htr). cbn [negb]. cbv iota.
  erewrite K_bind_Ok; [|reflexivity].
  assert (Hmap : mmap name total k2 = Ok true k2).
  { unfold mmap. rewrite bool_decide_eq_true_2; [done|].
    split; [lia|]. simpl. rewrite lookup_insert_eq. eauto. }
  rewrite (K_bind_Ok _ _ _ _ _ Hmap). cbn [negb]. cbv iota.
  destruct (init_region N S m0 HN HS Hm0)
    as (m1 & m2 & m3 & m4 & m5 & m6 & m7 & H1 & H2 & H3 & H4 & H5 & H6 & H7 & Hl7 & Hreg).
  unfold map_store32, store32 in *.
  erewrite K_bind_Ok; [|eapply map_write_Ok; [apply lookup_insert_eq|exact H1]].
  erewrite K_bind_Ok; [|eapply map_write_Ok; [apply lookup_insert_eq|exact H2]].
  erewrite K_bind_Ok; [|eapply map_write_Ok; [apply lookup_insert_eq|exact H3]].
  erewrite K_bind_Ok; [|eapply map_write_Ok; [apply lookup_insert_eq|exact H4]].
  erewrite K_bind_Ok; [|eapply map_write_Ok; [apply lookup_insert_eq|exact H5]].
  erewrite K_bind_Ok; [|eapply map_write_Ok; [apply lookup_insert_eq|exact H6]].
  replace (usize (total - sizeof_RingHeader)) with (N * (sizeof_uint32 + S)); last first.
  { unfold total, usize, SIZE_MOD. rewrite Z.mod_small; [lia|].
    change (2 ^ 63) with 9223372036854775808 in Hlt.
    change (2 ^ 64) with 18446744073709551616. unfold sizeof_RingHeader in *. lia. }
  erewrite K_bind_Ok; [|eapply map_write_Ok; [apply lookup_insert_eq|exact H7]].
  eexists m7, _. split; [reflexivity|]. simpl.
  split; [apply lookup_insert_eq|]. split; [done|]. split; [done|].
  rewrite Hl7. done.
Qed.

(** ** The names of the three semaphores *)

Lemma replace_slashes_app a b :
  replace_slashes (a +:+ b) = (replace_slashes a +:+ replace_slashes b)%string.
Proof.
  induction a as [|c a IH]; [done|].
  change (String c a +:+ b)%string with (String c (a +:+ b)). simpl.
  rewrite IH. done.
Qed.

Lemma sanitize_sem_suffix name suffix :
  Ring.sanitize_sem (name +:+ suffix)
  = ("/" +:+ replace_slashes name +:+ replace_slashes suffix)%string.
Proof. unfold Ring.sanitize_sem. by rewrite replace_slashes_app. Qed.

Lemma sem_names_distinct name :
  Ring.sanitize_sem (name +:+ "_free") ≠ Ring.sanitize_sem (name +:+ "_filled") ∧
  Ring.sanitize_sem (name +:+ "_free") ≠ Ring.sanitize_sem (name +:+ "_mutex") ∧
  Ring.sanitize_sem (name +:+ "_filled") ≠ Ring.sanitize_sem (name +:+ "_mutex").
Proof.
  rewrite !sanitize_sem_suffix.
  repeat split; intros H;
    apply (inj (String.app "/")), (inj (String.app (replace_slashes name))) in H;
    discriminate H.
Qed.

(** The handle that a successful [create_or_open(name, N, S, true)] returns. *)
Lemma sem_open_excl_fresh name v k :
  sem_objs k !! name = None → v <= SEM_VALUE_MAX →
  sem_open_excl name v k
  = Ok (Some name) (Kernel (shm_objs k) (<[name := v]> (sem_objs k))).
Proof. intros Hk Hv. unfold sem_open_excl. rewrite Hk, decide_True by done. done. Qed.

Lemma sem_open_excl_refused name v k :
  is_Some (sem_objs k !! name) ∨ SEM_VALUE_MAX < v →
  sem_open_excl name v k = Ok None k.
Proof.
  intros H. unfold sem_open_excl.
  destruct (sem_objs k !! name); [done|].
  destruct H as [[? [=]]|H]. rewrite decide_False by lia. done.
Qed.


(** ** [create_or_open] in create mode *)

Lemma create_or_open_create_ok name N S k :
  0 <= N <= SEM_VALUE_MAX → 0 <= S < UINT32_MOD →
  total_size N S < 2 ^ 63 → sems_absent name k →
  ∃ m k',
    Ring.create_or_open name N S true k
    = Ok (open_handle name (total_size N S) N S true) k' ∧
    shm_objs k' !! name = Some m ∧
    region_inv N S [] 0 m ∧
    Z.of_nat (length m) = total_size N S ∧
    sem_objs k'
    = <[Ring.sanitize_sem (name +:+ "_mutex") := 1]>
        (<[Ring.sanitize_sem (name +:+ "_filled") := 0]>
           (<[Ring.sanitize_sem (name +:+ "_free") := N]> (sem_objs k))).
Proof.
  intros HN HS Hlt (Hfr & Hfi & Hmu).
  destruct (sem_names_distinct name) as (Hd1 & Hd2 & Hd3).
  unfold Ring.create_or_open. cbv zeta.
  match goal with |- context [Ring.init_map ?p true] =>
    destruct (init_map_create p k N S eq_refl eq_refl HN HS Hlt)
      as (m & k' & Hinit & Hm & Hsems & Hreg & Hlen) end.
  rewrite (K_bind_Ok _ _ _ _ _ Hinit). simpl in Hm |- *.
  erewrite K_bind_Ok; [|apply sem_open_excl_fresh; [by rewrite Hsems|lia]].
  simpl.
  erewrite K_bind_Ok; last first.
  { apply sem_open_excl_fresh; [|unfold SEM_VALUE_MAX; lia].
    simpl. rewrite lookup_insert_ne by done. by rewrite Hsems. }
  simpl.
  erewrite K_bind_Ok; last first.
  { apply sem_open_excl_fresh; [|unfold SEM_VALUE_MAX; lia].
    simpl. rewrite !lookup_insert_ne by done. by rewrite Hsems. }
  simpl. eexists m, _. split; [reflexivity|]. simpl. rewrite Hsems. done.
Qed.

Lemma create_or_open_create_inv name N S k owner k1 :
  is_u32 N → is_u32 S →
  Ring.create_or_open name N S true k = Ok owner k1 →
  N <= SEM_VALUE_MAX ∧ total_size N S < 2 ^ 63 ∧ sems_absent name k.
Proof.
  intros [HN0 _] HS Hc.
  destruct (decide (N <= SEM_VALUE_MAX)) as [HN|HN]; last first.
  { exfalso. unfold Ring.create_or_open in Hc.
    apply K_bind_Ok_inv in Hc as (p1 & k' & _ & Hc).
    erewrite K_bind_Ok in Hc; [|apply sem_open_excl_refused; right; lia].
    done. }
  split; [done|].
  destruct (decide (total_size N S < 2 ^ 63)) as [Hlt|Hlt]; last first.
  { exfalso. unfold Ring.create_or_open in Hc. cbv zeta in Hc.
    match type of Hc with context [Ring.init_map ?p true] =>
      destruct (init_map_create_huge p k N S eq_refl eq_refl (conj HN0 HN) HS)
        as (k' & Hinit); [unfold total_size in Hlt; lia|] end.
    unfold mbind, K_bind in Hc. rewrite Hinit in Hc. done. }
  split; [done|].
  destruct (sem_names_distinct name) as (Hd1 & Hd2 & Hd3).
  unfold Ring.create_or_open in Hc. cbv zeta in Hc.
  match type of Hc with context [Ring.init_map ?p true] =>
    destruct (init_map_create p k N S eq_refl eq_refl (conj HN0 HN) HS Hlt)
      as (m & k' & Hinit & Hm & Hsems & Hreg & _) end.
  rewrite (K_bind_Ok _ _ _ _ _ Hinit) in Hc. simpl in Hc.
  destruct (sem_objs k !! Ring.sanitize_sem (name +:+ "_free")) eqn:Efr.
  { erewrite K_bind_Ok in Hc;
      [|apply sem_open_excl_refused; left; rewrite Hsems, Efr; eauto]. done. }
  erewrite K_bind_Ok in Hc; [|apply sem_open_excl_fresh; [by rewrite Hsems|lia]].
  simpl in Hc.
  destruct (sem_objs k !! Ring.sanitize_sem (name +:+ "_filled")) eqn:Efi.
  { erewrite K_bind_Ok in Hc; last first.
    { apply sem_open_excl_refused; left. simpl.
      rewrite lookup_insert_ne, Hsems, Efi by done. eauto. }
    done. }
  erewrite K_bind_Ok in Hc; last first.
  { apply sem_open_excl_fresh; [|unfold SEM_VALUE_MAX; lia].
    simpl. rewrite lookup_insert_ne by done. by rewrite Hsems. }
  simpl in Hc.
  destruct (sem_objs k !! Ring.sanitize_sem (name +:+ "_mutex")) eqn:Emu.
  { erewrite K_bind_Ok in Hc; last first.
    { apply sem_open_excl_refused; left. simpl.
      rewrite !lookup_insert_ne, Hsems, Emu by done. eauto. }
    done. }
  done.
Qed.

(** ** [create_or_open] in attach mode *)

Lemma shm_open_existing name k m :
  shm_objs k !! name = Some m → shm_open name false k = Ok true k.
Proof. intros H. unfold shm_open. by rewrite H. Qed.

Lemma fstat_existing name k m :
  shm_objs k !! name = Some m → fstat name k = Ok (Some (Z.of_nat (length m))) k.
Proof. intros H. unfold fstat. by rewrite H. Qed.

Lemma sem_open_present name k :
  is_Some (sem_objs k !! name) → sem_open name k = Ok (Some name) k.
Proof. intros [v H]. unfold sem_open. by rewrite H. Qed.

Lemma open_sems_retry_present n p k :
  is_Some (sem_objs k !! sem_free_name_ p) →
  is_Some (sem_objs k !! sem_filled_name_ p) →
  is_Some (sem_objs k !! sem_mutex_name_ p) →
  Ring.open_sems_retry (Datatypes.S n) p k
  = Ok (with_sems p (Some (sem_free_name_ p)) (Some (sem_filled_name_ p))
          (Some (sem_mutex_name_ p))) k.
Proof.
  intros H1 H2 H3. simpl.
  rewrite (K_bind_Ok _ _ _ _ _ (sem_open_present _ _ H1)).
  rewrite (K_bind_Ok _ _ _ _ _ (sem_open_present _ _ H2)).
  rewrite (K_bind_Ok _ _ _ _ _ (sem_open_present _ _ H3)).
  rewrite bool_decide_eq_true_2 by done. done.
Qed.

(** A region that is too small for the requested geometry: no handle. *)
Lemma init_map_attach_small p k m :
  shm_objs k !! shm_name_ p = Some m →
  usize (Z.of_nat (length m)) < computed_map_size (slot_count_ p) (slot_size_ p) →
  Ring.init_map p false k = Err "shm too small" k.
Proof.
  intros Hm Hsmall. unfold Ring.init_map.
  rewrite (K_bind_Ok _ _ _ _ _ (shm_open_existing _ _ _ Hm)). cbn [negb]. cbv iota.
  rewrite K_bind_assoc, (K_bind_Ok _ _ _ _ _ (fstat_existing _ _ _ Hm)).
  unfold computed_map_size in Hsmall. rewrite decide_True by done. done.
Qed.

(** A valid ring that is large enough: the geometry of the header is adopted. *)
Lemma init_map_attach_ok p k m N S hist nread :
  shm_objs k !! shm_name_ p = Some m →
  region_inv N S hist nread m →
  ¬ usize (Z.of_nat (length m)) < computed_map_size (slot_count_ p) (slot_size_ p) →
  Ring.init_map p false k = Ok (with_map p (Z.of_nat (length m)) N S) k.
Proof.
  intros Hm Hreg Hbig. unfold Ring.init_map.
  rewrite (K_bind_Ok _ _ _ _ _ (shm_open_existing _ _ _ Hm)). cbn [negb]. cbv iota.
  rewrite K_bind_assoc, (K_bind_Ok _ _ _ _ _ (fstat_existing _ _ _ Hm)).
  unfold computed_map_size in Hbig. rewrite decide_False by done.
  erewrite K_bind_Ok; [|reflexivity].
  assert (Hmap : mmap (shm_name_ p) (Z.of_nat (length m)) k = Ok true k).
  { unfold mmap. rewrite bool_decide_eq_true_2; [done|]. split; [|by rewrite Hm].
    pose proof (load32_range _ _ _ (inv_slot_count _ _ _ _ _ Hreg)) as [HN _].
    pose proof (load32_range _ _ _ (inv_slot_size _ _ _ _ _ Hreg)) as [HS _].
    pose proof (inv_size _ _ _ _ _ Hreg) as Hsz.
    unfold sizeof_RingHeader, sizeof_uint32 in Hsz. nia. }
  rewrite (K_bind_Ok _ _ _ _ _ Hmap). cbn [negb]. cbv iota.
  erewrite K_bind_Ok; [|eapply map_load32_Ok; [done|apply Hreg]].
  rewrite decide_False by (intros H; by apply H).
  erewrite K_bind_Ok; [|eapply map_load32_Ok; [done|apply Hreg]].
  erewrite K_bind_Ok; [|eapply map_load32_Ok; [done|apply Hreg]].
  done.
Qed.

Lemma create_or_open_attach name n s k m N S hist nread :
  shm_objs k !! name = Some m →
  region_inv N S hist nread m →
  sems_present name k →
  Ring.create_or_open name n s false k
  = if decide (usize (Z.of_nat (length m)) < computed_map_size n s)
    then Err "shm too small" k
    else Ok (open_handle name (Z.of_nat (length m)) N S false) k.
Proof.
  intros Hm Hreg (H1 & H2 & H3). unfold Ring.create_or_open. cbv zeta.
  case_decide as Hsz.
  - unfold mbind, K_bind. rewrite (init_map_attach_small _ k m); done.
  - erewrite K_bind_Ok; [|by eapply init_map_attach_ok].
    erewrite K_bind_Ok; [|by apply open_sems_retry_present].
    reflexivity.
Qed.

(** ** Sessions *)

Lemma world_of_open_handle name map_size N S owner sched k m fr fi mu :
  shm_objs k !! name = Some m →
  sem_objs k !! Ring.sanitize_sem (name +:+ "_free") = Some fr →
  sem_objs k !! Ring.sanitize_sem (name +:+ "_filled") = Some fi →
  sem_objs k !! Ring.sanitize_sem (name +:+ "_mutex") = Some mu →
  world_of (open_handle name map_size N S owner) sched k
  = Some (World m fr fi mu ENONE sched).
Proof.
  intros Hm Hfr Hfi Hmu. unfold world_of. simpl.
  rewrite Hm. simpl. rewrite Hfr. simpl. rewrite Hfi. simpl. rewrite Hmu. done.
Qed.

(** Every session that gets as far as running its calls starts them in
    a world that satisfies the invariant of an empty ring; the handles and
    that world do not depend on the calls. *)
Lemma session_start name N S advisory sched ops k r :
  is_u32 N → is_u32 S →
  session name N S advisory sched ops k = Some r →
  N <= SEM_VALUE_MAX ∧
  ∃ producer consumer w0,
    slot_size_ producer = S ∧ slot_size_ consumer = S ∧
    ring_inv N S [] 0 0 0 w0 ∧ schedule w0 = sched ∧
    ∀ ops', session name N S advisory sched ops' k = Some (run producer consumer ops' w0).
Proof.
  intros HN HS Hs. unfold session in Hs |- *.
  destruct (Ring.create_or_open name N S true k) as [owner k1| |] eqn:Hc; [|done..].
  destruct (create_or_open_create_inv _ _ _ _ _ _ HN HS Hc) as (HNmax & Hlt & Habs).
  split; [done|].
  destruct (create_or_open_create_ok name N S k ltac:(unfold is_u32 in HN; lia) HS Hlt Habs)
    as (m & k' & Hc' & Hm & Hreg & _ & Hsems).
  rewrite Hc in Hc'. injection Hc' as -> ->.
  destruct (sem_names_distinct name) as (Hd1 & Hd2 & Hd3).
  assert (Hfr : sem_objs k' !! Ring.sanitize_sem (name +:+ "_free") = Some N).
  { rewrite Hsems, !lookup_insert_ne, lookup_insert_eq by done. done. }
  assert (Hfi : sem_objs k' !! Ring.sanitize_sem (name +:+ "_filled") = Some 0).
  { rewrite Hsems, lookup_insert_ne, lookup_insert_eq by done. done. }
  assert (Hmu : sem_objs k' !! Ring.sanitize_sem (name +:+ "_mutex") = Some 1).
  { rewrite Hsems, lookup_insert_eq. done. }
  assert (Hinv : ring_inv N S [] 0 0 0 (World m N 0 1 ENONE sched)).
  { destruct HN. split; simpl; try done; lia. }
  destruct advisory as [[n s]|].
  - assert (Hpres : sems_present name k').
    { unfold sems_present. rewrite Hfr, Hfi, Hmu. eauto. }
    pose proof (create_or_open_attach name n s k' m N S [] 0 Hm Hreg Hpres) as Hatt.
    rewrite Hatt in Hs |- *.
    case_decide; [done|].
    eexists _, _, (World m N 0 1 ENONE sched). split_and!; cycle 4.
    { intros ops'. erewrite world_of_open_handle by done. reflexivity. }
    all: done.
  - eexists _, _, (World m N 0 1 ENONE sched). split_and!; cycle 4.
    { intros ops'. erewrite world_of_open_handle by done. reflexivity. }
    all: done.
Qed.

Lemma session_run name N S advisory sched ops k r :
  is_u32 N → is_u32 S →
  session name N S advisory sched ops k = Some r →
  N <= SEM_VALUE_MAX ∧
  ∃ producer consumer w0,
    slot_size_ producer = S ∧ slot_size_ consumer = S ∧
    ring_inv N S [] 0 0 0 w0 ∧ schedule w0 = sched ∧
    run producer consumer ops w0 = r ∧
    ∀ ops', session name N S advisory sched ops' k = Some (run producer consumer ops' w0).
Proof.
  intros HN HS Hs.
  destruct (session_start _ _ _ _ _ _ _ _ HN HS Hs)
    as (HNmax & producer & consumer & w0 & Hp & Hc & Hinv & Hsch & Hall).
  split; [done|]. exists producer, consumer, w0.
  split_and!; try done. rewrite Hall in Hs. by injection Hs.
Qed.

(** ** Counters and indices after a session *)

Lemma run_app producer consumer ops1 ops2 w evs1 w1 evs2 w2 :
  run producer consumer ops1 w = Done evs1 w1 →
  run producer consumer ops2 w1 = Done evs2 w2 →
  run producer consumer (ops1 ++ ops2) w = Done (evs1 ++ evs2) w2.
Proof.
  revert w evs1. induction ops1 as [|[data len|out] ops1 IH]; intros w evs1 H1 H2.
  - by injection H1 as <- <-.
  - simpl in H1 |- *.
    apply bind_Done_inv in H1 as (ok & w' & Hw & H1).
    apply bind_Done_inv in H1 as (evs' & w'' & Hrest & Hret).
    injection Hret as <- <-.
    rewrite (bind_Done _ _ _ _ _ Hw), (bind_Done _ _ _ _ _ (IH _ _ Hrest H2)). done.
  - simpl in H1 |- *.
    apply bind_Done_inv in H1 as (r & w' & Hr & H1).
    apply bind_Done_inv in H1 as (evs' & w'' & Hrest & Hret).
    injection Hret as <- <-.
    rewrite (bind_Done _ _ _ _ _ Hr), (bind_Done _ _ _ _ _ (IH _ _ Hrest H2)). done.
Qed.

(** What holds after the calls of a session have all returned. *)
Lemma session_end name N S advisory sched ops k evs w' :
  1 <= N → is_u32 N → is_u32 S →
  session name N S advisory sched ops k = Some (Done evs w') →
  ring_params N S ∧
  ∃ producer consumer w0 lf lr,
    slot_size_ producer = S ∧ slot_size_ consumer = S ∧
    (∀ ops', session name N S advisory sched ops' k = Some (run producer consumer ops' w0)) ∧
    run producer consumer ops w0 = Done evs w' ∧
    ring_inv N S (written evs) (Z.of_nat (length (delivered evs))) lf lr w' ∧
    (all_ok evs → lf = 0 ∧ lr = 0).
Proof.
  intros HN1 HN HS Hs.
  destruct (session_run _ _ _ _ _ _ _ _ HN HS Hs)
    as (HNmax & producer & consumer & w0 & Hp & Hc & Hinv & _ & Hrun & Hall).
  assert (Hpar : ring_params N S) by done.
  split; [done|].
  destruct (run_spec N S Hpar producer consumer ops Hp Hc _ _ _ _ _ _ _ Hinv Hrun)
    as (n' & lf' & lr' & Hinv' & Hn' & _ & Hok).
  exists producer, consumer, w0, lf', lr'.
  rewrite app_nil_l in Hinv'. replace n' with (Z.of_nat (length (delivered evs))) in Hinv' by lia.
  split_and!; done.
Qed.

(** C3 (amended). After the calls of a session on a ring of [N >= 1]
    slots have all returned successfully, with [k] messages written and
    not yet read: [0 <= k <= N], the filled semaphore is [k], the free
    semaphore is [N - k], and [k] is congruent to [tail - head] modulo
    [N]; it equals [(tail - head) mod N] whenever the ring is not full
    ([k < N]), and on a full ring ([k = N]) [tail] equals [head]. *)
Theorem semaphore_counts name N S advisory sched ops k evs w' :
  1 <= N → is_u32 N → is_u32 S →
  session name N S advisory sched ops k = Some (Done evs w') →
  all_ok evs →
  0 <= unread evs <= N ∧
  filled w' = unread evs ∧
  free w' = N - unread evs ∧
  ∃ h t,
    load32 (shm w') OFF_head = Some h ∧ load32 (shm w') OFF_tail = Some t ∧
    0 <= h < N ∧ 0 <= t < N ∧
    (t - h) mod N = unread evs mod N ∧
    (unread evs < N → (t - h) mod N = unread evs) ∧
    (unread evs = N → t = h).
Proof.
  intros HN1 HN HS Hs Hok.
  destruct (session_end _ _ _ _ _ _ _ _ _ HN1 HN HS Hs)
    as (Hpar & producer & consumer & w0 & lf & lr & _ & _ & _ & _ & Hinv & Hz).
  destruct (Hz Hok) as [-> ->].
  destruct Hinv as [Hreg Hpend _ Hfree Hfilled Hnn _].
  unfold unread.
  set (T := Z.of_nat (length (written evs))) in *.
  set (R := Z.of_nat (length (delivered evs))) in *.
  split; [lia|]. split; [lia|]. split; [lia|].
  exists (R mod N), (T mod N).
  split; [apply Hreg|]. split; [apply Hreg|].
  assert (Hmod : (T mod N - R mod N) mod N = (T - R) mod N)
    by (by rewrite <- Zminus_mod).
  pose proof (Z.mod_pos_bound R N ltac:(lia)) as Hh.
  pose proof (Z.mod_pos_bound T N ltac:(lia)) as Ht.
  split; [done|]. split; [done|]. split; [done|]. split.
  - intros Hlt. rewrite Hmod. apply Z.mod_small. lia.
  - intros Hfull. rewrite Hfull, Z_mod_same_full in Hmod.
    destruct (decide (R mod N <= T mod N)).
    + rewrite Z.mod_small in Hmod by lia. lia.
    + replace (T mod N - R mod N) with (-(R mod N - T mod N)) in Hmod by lia.
      apply Z.mod_opp_l_z in Hmod; [|lia].
      rewrite Z.opp_involutive, Z.mod_small in Hmod by lia. lia.
Qed.

Lemma semaphore_counts_witness :
  (∃ w', session "/ring_t2" 2 8 (Some (1, 1)) [] fill_ops empty_kernel
         = Some (Done fill_events w') ∧ filled w' = unread fill_events) ∧
  all_ok fill_events.
Proof.
  assert (Hok : all_ok fill_events) by (repeat constructor).
  split; [|exact Hok].
  assert (H : ∃ w', session "/ring_t2" 2 8 (Some (1, 1)) [] fill_ops empty_kernel
                    = Some (Done fill_events w')).
  { eexists. vm_compute. reflexivity. }
  destruct H as [w' H]. exists w'. split; [exact H|].
  apply (semaphore_counts "/ring_t2" 2 8 (Some (1, 1)) [] fill_ops empty_kernel fill_events w');
    [lia|unfold is_u32, UINT32_MOD; lia..|exact H|exact Hok].
Defined.

(** C3 as stated fails on a full ring: with two slots and two unread
    messages, [head] and [tail] are both 0, so [(tail - head) mod N] is 0
    while the filled semaphore is 2. *)
Lemma semaphore_counts_counterexample :
  ∃ evs w',
    session "/ring_t2" 2 8 None [] [OpWrite [x61] 1; OpWrite [x62; x62] 2] empty_kernel
    = Some (Done evs w') ∧
    all_ok evs ∧ unread evs = 2 ∧ filled w' = 2 ∧ free w' = 0 ∧
    load32 (shm w') OFF_head = Some 0 ∧ load32 (shm w') OFF_tail = Some 0 ∧
    (0 - 0) mod 2 ≠ unread evs.
Proof.
  eexists _, _. split; [vm_compute; reflexivity|].
  split; [repeat constructor|]. vm_compute. repeat split; congruence.
Qed.

(** ** The payload limit *)

Lemma write_message_succeeds N S hist nread lf lr self data len w :
  ring_params N S → slot_size_ self = S →
  ring_inv N S hist nread lf lr w →
  0 < free w → WaitFailed ∉ schedule w →
  0 <= len <= S → len <= Z.of_nat (length data) →
  ∃ w', Ring.write_message self data len w = Done true w' ∧
        ring_inv N S (hist ++ [take (Z.to_nat len) data]) nread lf lr w'.
Proof.
  intros Hp HS Hinv Hfree Hsch Hlen Hbuf.
  pose proof (write_message_spec N S Hp hist nread lf lr self data len w HS Hinv) as Hspec.
  destruct (Ring.write_message self data len w) as [[] w'|s|f|].
  - exists w'. split; [done|]. apply Hspec.
  - destruct Hspec as [[?|?] _]; [lia|done].
  - destruct Hspec as (_ & ? & _). lia.
  - destruct Hspec as [_ Hbad]. destruct Hbad. lia.
  - done.
Qed.

(** C2. A payload longer than [slot_size] makes [write_message] return
    [false] at once: the world is left exactly as it was, semaphores,
    region and schedule of waits included.  A payload of exactly
    [slot_size] bytes is stored: appended to any session whose calls
    returned and left a free slot, with no failing wait to come, the
    call returns [true], takes one free token and adds one filled token. *)
Theorem payload_limit :
  (∀ self data len w,
     slot_size_ self < len → Ring.write_message self data len w = Done false w)
  ∧
  (∀ name N S advisory sched ops k evs w' data,
     1 <= N → is_u32 N → is_u32 S →
     session name N S advisory sched ops k = Some (Done evs w') →
     0 < free w' → WaitFailed ∉ schedule w' →
     Z.of_nat (length data) = S →
     ∃ w'',
       session name N S advisory sched (ops ++ [OpWrite data S]) k
       = Some (Done (evs ++ [EvWrite data S true]) w'') ∧
       free w'' = free w' - 1 ∧ filled w'' = filled w' + 1 ∧ mutex w'' = mutex w').
Proof.
  split.
  - intros self data len w Hbig. unfold Ring.write_message.
    rewrite decide_True by lia. done.
  - intros name N S advisory sched ops k evs w' data HN1 HN HS Hs Hfree Hsch Hlen.
    destruct (session_end _ _ _ _ _ _ _ _ _ HN1 HN HS Hs)
      as (Hpar & producer & consumer & w0 & lf & lr & Hp & _ & Hall & Hrun & Hinv & _).
    destruct (write_message_succeeds N S _ _ lf lr producer data S w' Hpar Hp Hinv Hfree Hsch)
      as (w'' & Hw & Hinv''); [unfold is_u32 in HS; lia|lia|].
    exists w''. split.
    + rewrite Hall. f_equal. eapply run_app; [exact Hrun|].
      simpl. rewrite (bind_Done _ _ _ _ _ Hw). done.
    + destruct Hinv as [_ _ _ Hf1 Hfi1 _ Hm1], Hinv'' as [_ _ _ Hf2 Hfi2 _ Hm2].
      rewrite length_app in Hf2, Hfi2. simpl in Hf2, Hfi2. lia.
Qed.

Lemma payload_limit_witness :
  (let w := World [] 2 0 1 ENONE [] in
   Ring.write_message (open_handle "/ring_t2" 76 2 8 true) (replicate 9 x61) 9 w
   = Done false w) ∧
  (∃ w' w'',
     session "/ring_t2" 2 8 None [] [] empty_kernel = Some (Done [] w') ∧
     session "/ring_t2" 2 8 None [] ([] ++ [OpWrite (replicate 8 x61) 8]) empty_kernel
     = Some (Done ([] ++ [EvWrite (replicate 8 x61) 8 true]) w'') ∧
     free w'' = free w' - 1 ∧ filled w'' = filled w' + 1 ∧ mutex w'' = mutex w').
Proof.
  split.
  - apply (proj1 payload_limit). simpl. lia.
  - assert (H : ∃ w', session "/ring_t2" 2 8 None [] [] empty_kernel = Some (Done [] w') ∧
                      0 < free w' ∧ schedule w' = []).
    { eexists. split; [vm_compute; reflexivity|]. split; [vm_compute|]; reflexivity. }
    destruct H as (w' & Hs & Hfree & Hsch). exists w'.
    destruct (proj2 payload_limit "/ring_t2" 2 8 None [] [] empty_kernel [] w'
                (replicate 8 x61)) as (w'' & H); [lia|unfold is_u32, UINT32_MOD; lia..
                |exact Hs|exact Hfree|rewrite Hsch; apply not_elem_of_nil|reflexivity|].
    exists w''. split; [exact Hs|exact H].
Defined.

(** ** Failing waits *)

Lemma wait_result_Done s w r w' :
  wait_result s w = Done r w' →
  (r = 0 ∧ 0 < sem_value s w ∧ shm w' = shm w ∧
   ∃ w1, same_objects w w1 ∧ w' = set_sem s (sem_value s w - 1) w1)
  ∨ (r = -1 ∧ same_objects w w' ∧ errno w' = EINVAL).
Proof.
  unfold wait_result.
  destruct (skip_interrupts (schedule w)) as [|[] sch].
  1,2,3: case_decide; [|done]; intros [= <- <-]; left;
         (split; [done|]); (split; [done|]); (split; [by destruct s|]);
         eexists; split; [|reflexivity]; done.
  intros [= <- <-]. right. done.
Qed.

(** C9. When the wait on the free semaphore succeeds and the following
    wait on the mutex fails with an error other than an interruption,
    [write_message] returns [false] and does not post the free token
    back: the free semaphore is one less than before the call, and the
    region (slots, head, tail), the filled semaphore and the mutex are
    as before. *)
Theorem mutex_failure_leaks_free self data len w w1 w2 :
  len <= slot_size_ self →
  Ring.sem_wait_intr SemFree w = Done 0 w1 →
  Ring.sem_wait_intr SemMutex w1 = Done (-1) w2 →
  Ring.write_message self data len w = Done false w2 ∧
  errno w2 ≠ EINTR ∧
  free w2 = free w - 1 ∧
  shm w2 = shm w ∧ filled w2 = filled w ∧ mutex w2 = mutex w.
Proof.
  intros Hlen H1 H2. split.
  - unfold Ring.write_message. rewrite decide_False by lia.
    rewrite (bind_Done _ _ _ _ _ H1), decide_False by lia.
    rewrite (bind_Done _ _ _ _ _ H2), decide_True by lia. done.
  - rewrite sem_wait_intr_eq in H1, H2.
    apply wait_result_Done in H1 as [(_ & _ & _ & w1' & Hs1 & ->)|[? _]]; [|lia].
    apply wait_result_Done in H2 as [[? _]|(_ & Hs2 & He)]; [lia|].
    destruct Hs1 as (Hm1 & Hfr1 & Hfi1 & Hmu1), Hs2 as (Hm2 & Hfr2 & Hfi2 & Hmu2).
    simpl in *. rewrite He. split; [done|]. split_and!; congruence.
Qed.

Lemma mutex_failure_leaks_free_witness :
  let w := World [] 2 0 1 ENONE [WaitInterrupted; WaitGranted; WaitFailed] in
  let w2 := World [] 1 0 1 EINVAL [] in
  Ring.write_message (open_handle "/ring_t2" 76 2 8 true) [x61] 1 w = Done false w2 ∧
  errno w2 ≠ EINTR ∧
  free w2 = free w - 1 ∧
  shm w2 = shm w ∧ filled w2 = filled w ∧ mutex w2 = mutex w.
Proof.
  apply (mutex_failure_leaks_free (open_handle "/ring_t2" 76 2 8 true) [x61] 1
           (World [] 2 0 1 ENONE [WaitInterrupted; WaitGranted; WaitFailed])
           (World [] 1 0 1 EINTR [WaitFailed])
           (World [] 1 0 1 EINVAL [])).
  - simpl. lia.
  - vm_compute. reflexivity.
  - vm_compute. reflexivity.
Defined.

(** ** A ring without slots *)

Lemma write_message_starved self data len w :
  free w = 0 →
  match Ring.write_message self data len w with
  | Done ok w' => ok = false ∧ same_objects w w'
  | Blocked s => s = SemFree
  | Fault _ => False
  | Spin => False
  end.
Proof.
  intros Hfree. unfold Ring.write_message.
  case_decide; [done|].
  destruct (wait_result_cases SemFree w)
    as [(w1 & Hw1 & Hs1 & _)|[(Hpos & _)|(_ & Hw1)]];
    [| simpl in Hpos; lia |]; rewrite <- sem_wait_intr_eq in Hw1.
  - rewrite (bind_Done _ _ _ _ _ Hw1). done.
  - unfold mbind, M_bind. rewrite Hw1. done.
Qed.

Lemma read_message_starved self out w :
  filled w = 0 →
  match Ring.read_message self out w with
  | Done r w' => r.1 = false ∧ same_objects w w'
  | Blocked s => s = SemFilled
  | Fault _ => False
  | Spin => False
  end.
Proof.
  intros Hfilled. unfold Ring.read_message.
  destruct (wait_result_cases SemFilled w)
    as [(w1 & Hw1 & Hs1 & _)|[(Hpos & _)|(_ & Hw1)]];
    [| simpl in Hpos; lia |]; rewrite <- sem_wait_intr_eq in Hw1.
  - rewrite (bind_Done _ _ _ _ _ Hw1). done.
  - unfold mbind, M_bind. rewrite Hw1. done.
Qed.

Lemma run_starved producer consumer ops :
  ∀ w, free w = 0 → filled w = 0 →
    match run producer consumer ops w with
    | Done evs w' => none_ok evs
    | Blocked s => s = SemFree ∨ s = SemFilled
    | Fault _ => False
    | Spin => False
    end.
Proof.
  induction ops as [|[data len|out] ops IH]; intros w Hfree Hfilled.
  - constructor.
  - simpl. pose proof (write_message_starved producer data len w Hfree) as Hw.
    unfold mbind at 1, M_bind at 1.
    destruct (Ring.write_message producer data len w) as [ok w1| | |]; try done; [|by left].
    destruct Hw as [-> (Hm & Hfr & Hfi & Hmu)].
    specialize (IH w1 ltac:(congruence) ltac:(congruence)).
    unfold mbind, M_bind.
    destruct (run producer consumer ops w1); try done. by constructor.
  - simpl. pose proof (read_message_starved consumer out w Hfilled) as Hr.
    unfold mbind at 1, M_bind at 1.
    destruct (Ring.read_message consumer out w) as [r w1| | |]; try done; [|by right].
    destruct Hr as [Hr (Hm & Hfr & Hfi & Hmu)].
    specialize (IH w1 ltac:(congruence) ltac:(congruence)).
    unfold mbind, M_bind.
    destruct (run producer consumer ops w1); try done. by constructor.
Qed.

(** C10 (amended). [create_or_open] in create mode does not validate
    [slot_count]: with [slot_count = 0] it returns a handle whenever the
    three semaphore names are free.  On that ring no call of
    [write_message] or [read_message] reaches [(idx + 1) % slot_count]:
    the free and the filled semaphore are both 0, so every call parks on
    its first wait or returns [false], and none divides by zero.  For
    [slot_count >= 1], [head] and [tail] lie in [[0, slot_count)] after
    the calls of any session. *)
Theorem slot_count_modulus :
  (∀ name S k,
     is_u32 S → sems_absent name k →
     ∃ owner k', Ring.create_or_open name 0 S true k = Ok owner k' ∧ slot_count_ owner = 0)
  ∧
  (∀ name S advisory sched ops k r,
     is_u32 S →
     session name 0 S advisory sched ops k = Some r →
     match r with
     | Done evs _ => none_ok evs
     | Blocked s => s = SemFree ∨ s = SemFilled
     | Fault _ => False
     | Spin => False
     end)
  ∧
  (∀ name N S advisory sched ops k evs w',
     1 <= N → is_u32 N → is_u32 S →
     session name N S advisory sched ops k = Some (Done evs w') →
     ∃ h t,
       load32 (shm w') OFF_head = Some h ∧ load32 (shm w') OFF_tail = Some t ∧
       0 <= h < N ∧ 0 <= t < N).
Proof.
  split_and!.
  - intros name S k HS Habs.
    destruct (create_or_open_create_ok name 0 S k) as (m & k' & Hc & _);
      [unfold SEM_VALUE_MAX; lia|done|unfold total_size, sizeof_RingHeader; lia|done|].
    eexists _, _. split; [exact Hc|done].
  - intros name S advisory sched ops k r HS Hs.
    destruct (session_run name 0 S advisory sched ops k r) as
      (_ & producer & consumer & w0 & _ & _ & Hinv & _ & <- & _);
      [unfold is_u32, UINT32_MOD; lia|done|done|].
    destruct Hinv as [_ _ _ Hfree Hfilled _ _]. simpl in Hfree, Hfilled.
    by apply run_starved.
  - intros name N S advisory sched ops k evs w' HN1 HN HS Hs.
    destruct (session_end _ _ _ _ _ _ _ _ _ HN1 HN HS Hs)
      as (Hpar & producer & consumer & w0 & lf & lr & _ & _ & _ & _ & Hinv & _).
    destruct Hinv as [Hreg _ _ _ _ _ _].
    eexists _, _. split; [apply Hreg|]. split; [apply Hreg|].
    split; apply Z.mod_pos_bound; lia.
Qed.

Lemma slot_count_modulus_witness :
  (∃ owner k', Ring.create_or_open "/ring_0" 0 8 true empty_kernel = Ok owner k' ∧
               slot_count_ owner = 0) ∧
  (∃ w', session "/ring_0" 0 8 None [WaitFailed] [OpWrite [x61] 1] empty_kernel
         = Some (Done [EvWrite [x61] 1 false] w')) ∧
  none_ok [EvWrite [x61] 1 false] ∧
  (∃ w', session "/ring_t2" 2 8 (Some (1, 1)) [] fill_ops empty_kernel
         = Some (Done fill_events w') ∧
         ∃ h t, load32 (shm w') OFF_head = Some h ∧ load32 (shm w') OFF_tail = Some t ∧
                0 <= h < 2 ∧ 0 <= t < 2).
Proof.
  destruct slot_count_modulus as (Ha & Hb & Hc).
  assert (Hs0 : ∃ w', session "/ring_0" 0 8 None [WaitFailed] [OpWrite [x61] 1] empty_kernel
                      = Some (Done [EvWrite [x61] 1 false] w'))
    by (eexists; vm_compute; reflexivity).
  split_and!.
  - apply (Ha "/ring_0" 8 empty_kernel); [unfold is_u32, UINT32_MOD; lia|].
    unfold sems_absent. vm_compute. done.
  - exact Hs0.
  - destruct Hs0 as [w' Hs0].
    apply (Hb "/ring_0" 8 None [WaitFailed] [OpWrite [x61] 1] empty_kernel _
             ltac:(unfold is_u32, UINT32_MOD; lia) Hs0).
  - assert (H : ∃ w', session "/ring_t2" 2 8 (Some (1, 1)) [] fill_ops empty_kernel
                      = Some (Done fill_events w')).
    { eexists. vm_compute. reflexivity. }
    destruct H as [w' H]. exists w'. split; [exact H|].
    apply (Hc "/ring_t2" 2 8 (Some (1, 1)) [] fill_ops empty_kernel fill_events w');
      [lia|unfold is_u32, UINT32_MOD; lia..|exact H].
Defined.

(** C10 as stated fails: on the handle created with [slot_count = 0],
    [write_message] parks on the free semaphore and [read_message] on the
    filled semaphore; neither evaluates the modulo by zero. *)
Lemma slot_count_modulus_counterexample :
  session "/ring_0" 0 8 None [] [OpWrite [x61] 1] empty_kernel = Some (Blocked SemFree) ∧
  session "/ring_0" 0 8 None [] [OpRead []] empty_kernel = Some (Blocked SemFilled) ∧
  session "/ring_0" 0 8 None [] [OpWrite [x61] 1] empty_kernel ≠ Some (Fault DivByZero) ∧
  session "/ring_0" 0 8 None [] [OpRead []] empty_kernel ≠ Some (Fault DivByZero).
Proof.
  assert (Hw : session "/ring_0" 0 8 None [] [OpWrite [x61] 1] empty_kernel
               = Some (Blocked SemFree)) by (vm_compute; reflexivity).
  assert (Hr : session "/ring_0" 0 8 None [] [OpRead []] empty_kernel
               = Some (Blocked SemFilled)) by (vm_compute; reflexivity).
  split_and!; [done|done|by rewrite Hw|by rewrite Hr].
Qed.

(** ** The two copies of the ring operations *)

(** C4. The two copies of the ring operations do not agree, by a slip
    of the unannotated copy: it tests the result of the first wait with
    [!], so it returns [false] exactly when that wait succeeded.  On the ring of the unit test (4 slots of 64
    bytes, payload "hello") [write_message] of [shared_ring.cpp] returns
    [true] and publishes the message, while the unannotated copy returns
    [false] after taking a free token and stores nothing; when the first
    wait fails, [shared_ring.cpp] returns [false] and the unannotated copy
    stores the message and returns [true]. *)
Theorem plain_write_message_differs :
  ∃ h k w,
    Ring.create_or_open "/test_ring" 4 64 true empty_kernel = Ok h k ∧
    world_of h [] k = Some w ∧ free w = 4 ∧ filled w = 0 ∧
    (∃ w1, Ring.write_message h hello 5 w = Done true w1 ∧
           free w1 = 3 ∧ filled w1 = 1) ∧
    (∃ w2, Plain.write_message h hello 5 w = Done false w2 ∧
           free w2 = 3 ∧ filled w2 = 0 ∧ shm w2 = shm w) ∧
    (∃ w3, Ring.write_message h hello 5 (set_schedule [WaitFailed] w) = Done false w3 ∧
           free w3 = 4 ∧ filled w3 = 0 ∧ shm w3 = shm w) ∧
    (∃ w4, Plain.write_message h hello 5 (set_schedule [WaitFailed] w) = Done true w4 ∧
           free w4 = 4 ∧ filled w4 = 1).
Proof.
  eexists _, _, _. split; [vm_compute; reflexivity|].
  split; [vm_compute; reflexivity|].
  split; [reflexivity|]. split; [reflexivity|].
  split_and!; eexists; (split; [vm_compute; reflexivity|]); vm_compute; done.
Qed.

(** The same slip in [read_message]: after one stored message, the read
    of [shared_ring.cpp] returns it, the read of the unannotated copy returns
    [false] and leaves the buffer as it was. *)
Lemma plain_read_message_differs :
  ∃ h k w w1,
    Ring.create_or_open "/test_ring" 4 64 true empty_kernel = Ok h k ∧
    world_of h [] k = Some w ∧
    Ring.write_message h hello 5 w = Done true w1 ∧
    (∃ w2, Ring.read_message h [] w1 = Done (true, hello) w2) ∧
    (∃ w3, Plain.read_message h [] w1 = Done (false, []) w3 ∧ filled w3 = 0).
Proof.
  eexists _, _, _, _. split; [vm_compute; reflexivity|].
  split; [vm_compute; reflexivity|]. split; [vm_compute; reflexivity|].
  split; eexists; [vm_compute; reflexivity|].
  split; vm_compute; reflexivity.
Qed.

(** ** Semaphore names *)

Lemma count_slashes_app a b :
  count_slashes (a +:+ b) = (count_slashes a + count_slashes b)%nat.
Proof.
  induction a as [|c a IH]; [done|].
  change (String c a +:+ b)%string with (String c (a +:+ b)). simpl.
  rewrite IH. lia.
Qed.

Lemma count_slashes_replace s : count_slashes (replace_slashes s) = 0%nat.
Proof.
  induction s as [|c s IH]; [done|]. simpl. rewrite IH.
  destruct (decide (c = "/"%char)) as [->|Hc]; [done|].
  by rewrite decide_False.
Qed.

Lemma init_map_handle p create k p1 k1 :
  Ring.init_map p create k = Ok p1 k1 → ∃ a b c, p1 = with_map p a b c.
Proof.
  unfold Ring.init_map, mbind, K_bind, mret, K_ret, fail_with.
  intros H.
  repeat (case_match; try done); simplify_eq; eauto.
Qed.

Lemma open_sems_retry_names n :
  ∀ p k p1 k1, Ring.open_sems_retry n p k = Ok p1 k1 → same_names p p1.
Proof.
  induction n as [|n IH]; intros p k p1 k1 H.
  - by injection H as <- <-.
  - simpl in H. unfold mbind, K_bind, sem_open, mret, K_ret in H.
    repeat (case_match; try done); simplify_eq; try done;
      match goal with H : Ring.open_sems_retry _ _ _ = _ |- _ => by apply IH in H end.
Qed.

Lemma create_or_open_names name N S create k h k' :
  Ring.create_or_open name N S create k = Ok h k' →
  shm_name_ h = name ∧
  sem_free_name_ h = Ring.sanitize_sem (name +:+ "_free") ∧
  sem_filled_name_ h = Ring.sanitize_sem (name +:+ "_filled") ∧
  sem_mutex_name_ h = Ring.sanitize_sem (name +:+ "_mutex").
Proof.
  unfold Ring.create_or_open. cbv zeta. intros H.
  apply K_bind_Ok_inv in H as (p1 & k1 & Hinit & H).
  apply init_map_handle in Hinit as (a & b & c & ->).
  destruct create.
  - unfold mbind, K_bind, sem_open_excl, mret, K_ret, fail_with in H. simpl in H.
    repeat (case_match; try done); simplify_eq; done.
  - apply K_bind_Ok_inv in H as (p2 & k2 & Hretry & H).
    apply open_sems_retry_names in Hretry as (? & ? & ? & ?).
    case_match; [done|]. injection H as <- <-. simpl in *. done.
Qed.

(** C6 (amended). For every ring name [R], the three semaphore names are
    ['/'] followed by [R + "_free"], [R + "_filled"] and [R + "_mutex"] in
    which every ['/'], the leading one of [R] included, is replaced by
    ['_']; each name therefore holds exactly one ['/'], its first
    character.  These are the names stored in every handle that
    [create_or_open] returns, and both copies of [sanitize_sem] agree. *)
Theorem semaphore_names R :
  (Ring.sanitize_sem (R +:+ "_free") = String "/" (replace_slashes R +:+ "_free") ∧
   Ring.sanitize_sem (R +:+ "_filled") = String "/" (replace_slashes R +:+ "_filled") ∧
   Ring.sanitize_sem (R +:+ "_mutex") = String "/" (replace_slashes R +:+ "_mutex")) ∧
  (count_slashes (Ring.sanitize_sem (R +:+ "_free")) = 1%nat ∧
   count_slashes (Ring.sanitize_sem (R +:+ "_filled")) = 1%nat ∧
   count_slashes (Ring.sanitize_sem (R +:+ "_mutex")) = 1%nat) ∧
  (∀ suffix, Plain.sanitize_sem (R +:+ suffix) = Ring.sanitize_sem (R +:+ suffix)) ∧
  (∀ N S create k h k',
     Ring.create_or_open R N S create k = Ok h k' →
     sem_free_name_ h = Ring.sanitize_sem (R +:+ "_free") ∧
     sem_filled_name_ h = Ring.sanitize_sem (R +:+ "_filled") ∧
     sem_mutex_name_ h = Ring.sanitize_sem (R +:+ "_mutex")).
Proof.
  split_and!; try (rewrite sanitize_sem_suffix; reflexivity).
  1,2,3: rewrite sanitize_sem_suffix, !count_slashes_app, count_slashes_replace; reflexivity.
  - reflexivity.
  - intros N S create k h k' H. by apply create_or_open_names in H as (_ & ? & ? & ?).
Qed.

Lemma semaphore_names_witness :
  ∃ h k',
    Ring.create_or_open "/ipc_demo_1234" 8 256 true empty_kernel = Ok h k' ∧
    sem_free_name_ h = "/_ipc_demo_1234_free"%string ∧
    sem_filled_name_ h = "/_ipc_demo_1234_filled"%string ∧
    sem_mutex_name_ h = "/_ipc_demo_1234_mutex"%string.
Proof.
  assert (H : ∃ h k', Ring.create_or_open "/ipc_demo_1234" 8 256 true empty_kernel = Ok h k').
  { eexists _, _. vm_compute. reflexivity. }
  destruct H as (h & k' & H). exists h, k'. split; [exact H|].
  destruct (semaphore_names "/ipc_demo_1234") as (_ & _ & _ & Hn).
  exact (Hn 8 256 true empty_kernel h k' H).
Defined.

(** C6 as stated fails: the leading ['/'] of the ring name is replaced
    too, so the free semaphore of ["/ipc_demo_1234"] is not named
    ["/ipc_demo_1234_free"]. *)
Lemma semaphore_names_counterexample :
  Ring.sanitize_sem ("/ipc_demo_1234" +:+ "_free") = "/_ipc_demo_1234_free"%string ∧
  Ring.sanitize_sem ("/ipc_demo_1234" +:+ "_free") ≠ "/ipc_demo_1234_free"%string ∧
  Plain.sanitize_sem ("/ipc_demo_1234" +:+ "_free") ≠ "/ipc_demo_1234_free"%string.
Proof. split_and!; vm_compute; congruence. Qed.

(** ** The size check of the attach branch *)

Lemma created_kernel name N S k h k1 :
  is_u32 N → is_u32 S →
  Ring.create_or_open name N S true k = Ok h k1 →
  ∃ m,
    shm_objs k1 !! name = Some m ∧ region_inv N S [] 0 m ∧
    Z.of_nat (length m) = total_size N S ∧ total_size N S < 2 ^ 63 ∧
    sems_present name k1.
Proof.
  intros HN HS Hc.
  destruct (create_or_open_create_inv _ _ _ _ _ _ HN HS Hc) as (HNmax & Hlt & Habs).
  destruct (create_or_open_create_ok name N S k ltac:(unfold is_u32 in HN; lia) HS Hlt Habs)
    as (m & k' & Hc' & Hm & Hreg & Hlen & Hsems).
  rewrite Hc in Hc'. injection Hc' as -> ->.
  destruct (sem_names_distinct name) as (Hd1 & Hd2 & Hd3).
  exists m. unfold sems_present. split_and!; try done; rewrite Hsems.
  - rewrite !lookup_insert_ne, lookup_insert_eq by done. eauto.
  - rewrite lookup_insert_ne, lookup_insert_eq by done. eauto.
  - rewrite lookup_insert_eq. eauto.
Qed.

Lemma plain_init_map_attach_small p k m :
  shm_objs k !! shm_name_ p = Some m →
  usize (Z.of_nat (length m)) < sizeof_RingHeader →
  Plain.init_map p false k = Err "shm too small" k.
Proof.
  intros Hm Hsmall. unfold Plain.init_map.
  rewrite (K_bind_Ok _ _ _ _ _ (shm_open_existing _ _ _ Hm)). cbn [negb]. cbv iota.
  rewrite K_bind_assoc, (K_bind_Ok _ _ _ _ _ (fstat_existing _ _ _ Hm)).
  rewrite decide_True by done. done.
Qed.

Lemma plain_init_map_attach_ok p k m N S hist nread :
  shm_objs k !! shm_name_ p = Some m →
  region_inv N S hist nread m →
  Z.of_nat (length m) < SIZE_MOD →
  Plain.init_map p false k = Ok (with_map p (Z.of_nat (length m)) N S) k.
Proof.
  intros Hm Hreg Hlt. unfold Plain.init_map.
  pose proof (load32_range _ _ _ (inv_slot_count _ _ _ _ _ Hreg)) as [HN _].
  pose proof (load32_range _ _ _ (inv_slot_size _ _ _ _ _ Hreg)) as [HS _].
  pose proof (inv_size _ _ _ _ _ Hreg) as Hsz.
  assert (52 <= Z.of_nat (length m))
    by (unfold sizeof_RingHeader, sizeof_uint32 in Hsz; nia).
  rewrite (K_bind_Ok _ _ _ _ _ (shm_open_existing _ _ _ Hm)). cbn [negb]. cbv iota.
  rewrite K_bind_assoc, (K_bind_Ok _ _ _ _ _ (fstat_existing _ _ _ Hm)).
  rewrite decide_False; last first.
  { unfold usize. rewrite Z.mod_small by lia. unfold sizeof_RingHeader. lia. }
  erewrite K_bind_Ok; [|reflexivity].
  assert (Hmap : mmap (shm_name_ p) (Z.of_nat (length m)) k = Ok true k).
  { unfold mmap. rewrite bool_decide_eq_true_2; [done|]. split; [lia|by rewrite Hm]. }
  rewrite (K_bind_Ok _ _ _ _ _ Hmap). cbn [negb]. cbv iota.
  erewrite K_bind_Ok; [|eapply map_load32_Ok; [done|apply Hreg]].
  rewrite decide_False by (intros H'; by apply H').
  erewrite K_bind_Ok; [|eapply map_load32_Ok; [done|apply Hreg]].
  erewrite K_bind_Ok; [|eapply map_load32_Ok; [done|apply Hreg]].
  done.
Qed.

Lemma plain_create_or_open_attach name n s k m N S hist nread :
  shm_objs k !! name = Some m →
  region_inv N S hist nread m →
  Z.of_nat (length m) < SIZE_MOD →
  sems_present name k →
  Plain.create_or_open name n s false k
  = Ok (open_handle name (Z.of_nat (length m)) N S false) k.
Proof.
  intros Hm Hreg Hlt (H1 & H2 & H3). unfold Plain.create_or_open. cbv zeta.
  erewrite K_bind_Ok; [|by eapply plain_init_map_attach_ok].
  erewrite K_bind_Ok; [|by apply sem_open_present]. simpl.
  erewrite K_bind_Ok; [|by apply sem_open_present]. simpl.
  erewrite K_bind_Ok; [|by apply sem_open_present]. reflexivity.
Qed.

(** C7 (amended). In attach mode [create_or_open] of [shared_ring.cpp]
    queries the size of the existing region and returns no handle, with
    the diagnostic "shm too small", whenever that size is less than the
    total computed for the requested [slot_count] and [slot_size]
    ([sizeof(header) + slot_count * (4 + slot_size)] when nothing wraps
    around); on a ring created with [N] slots of [S] bytes it returns a
    handle exactly when the request does not exceed the size of that
    ring.  The unannotated copy only requires the region to hold the header:
    it fails when the size is less than [sizeof(header)], and attaches to
    every created ring whatever geometry is requested. *)
Theorem attach_size_check :
  (∀ name n s k m,
     shm_objs k !! name = Some m →
     usize (Z.of_nat (length m)) < computed_map_size n s →
     Ring.create_or_open name n s false k = Err "shm too small" k)
  ∧
  (∀ n s, 0 <= n <= SEM_VALUE_MAX → is_u32 s → computed_map_size n s = total_size n s)
  ∧
  (∀ name N S n s k h k1,
     is_u32 N → is_u32 S →
     Ring.create_or_open name N S true k = Ok h k1 →
     Ring.create_or_open name n s false k1
     = if decide (total_size N S < computed_map_size n s)
       then Err "shm too small" k1
       else Ok (open_handle name (total_size N S) N S false) k1)
  ∧
  (∀ name n s k m,
     shm_objs k !! name = Some m →
     usize (Z.of_nat (length m)) < sizeof_RingHeader →
     Plain.create_or_open name n s false k = Err "shm too small" k)
  ∧
  (∀ name N S n s k h k1,
     is_u32 N → is_u32 S →
     Ring.create_or_open name N S true k = Ok h k1 →
     Plain.create_or_open name n s false k1
     = Ok (open_handle name (total_size N S) N S false) k1).
Proof.
  assert (Hsmall : ∀ z, 0 <= z < 2 ^ 63 → usize z = z).
  { intros z Hz. unfold usize, SIZE_MOD. apply Z.mod_small.
    change (2 ^ 63) with 9223372036854775808 in Hz.
    change (2 ^ 64) with 18446744073709551616. lia. }
  split_and!.
  - intros name n s k m Hm Hlt. unfold Ring.create_or_open. cbv zeta.
    unfold mbind, K_bind. rewrite (init_map_attach_small _ k m); done.
  - intros n s Hn Hs. by apply map_size_eq.
  - intros name N S n s k h k1 HN HS Hc.
    destruct (created_kernel _ _ _ _ _ _ HN HS Hc) as (m & Hm & Hreg & Hlen & Hlt & Hpres).
    rewrite (create_or_open_attach name n s k1 m N S [] 0 Hm Hreg Hpres).
    rewrite Hlen, Hsmall by (unfold total_size, sizeof_RingHeader, sizeof_uint32 in *;
                             destruct HN, HS; nia).
    done.
  - intros name n s k m Hm Hlt. unfold Plain.create_or_open. cbv zeta.
    unfold mbind, K_bind. rewrite (plain_init_map_attach_small _ k m); done.
  - intros name N S n s k h k1 HN HS Hc.
    destruct (created_kernel _ _ _ _ _ _ HN HS Hc) as (m & Hm & Hreg & Hlen & Hlt & Hpres).
    rewrite (plain_create_or_open_attach name n s k1 m N S [] 0 Hm Hreg); [by rewrite Hlen| |done].
    rewrite Hlen. unfold SIZE_MOD.
    change (2 ^ 63) with 9223372036854775808 in Hlt.
    change (2 ^ 64) with 18446744073709551616. lia.
Qed.

Lemma attach_size_check_witness :
  ∃ h k1,
    Ring.create_or_open "/ring_t1" 1 1 true empty_kernel = Ok h k1 ∧
    Ring.create_or_open "/ring_t1" 8 256 false k1 = Err "shm too small" k1 ∧
    Ring.create_or_open "/ring_t1" 1 1 false k1
    = Ok (open_handle "/ring_t1" 57 1 1 false) k1 ∧
    Plain.create_or_open "/ring_t1" 8 256 false k1
    = Ok (open_handle "/ring_t1" 57 1 1 false) k1.
Proof.
  assert (H : ∃ h k1, Ring.create_or_open "/ring_t1" 1 1 true empty_kernel = Ok h k1).
  { eexists _, _. vm_compute. reflexivity. }
  destruct H as (h & k1 & H). exists h, k1. split; [exact H|].
  destruct attach_size_check as (_ & _ & Hring & _ & Hplain).
  assert (Hu : is_u32 1) by (unfold is_u32, UINT32_MOD; lia).
  split_and!.
  - exact (Hring "/ring_t1" 1 1 8 256 empty_kernel h k1 Hu Hu H).
  - exact (Hring "/ring_t1" 1 1 1 1 empty_kernel h k1 Hu Hu H).
  - exact (Hplain "/ring_t1" 1 1 8 256 empty_kernel h k1 Hu Hu H).
Defined.

(** C7 as stated fails on the unannotated copy: a ring of one slot of one byte
    (57 bytes) is attached with a request for 8 slots of 256 bytes, whose
    total is 2132 bytes. *)
Lemma attach_size_check_counterexample :
  ∃ h k1 m,
    Ring.create_or_open "/ring_t1" 1 1 true empty_kernel = Ok h k1 ∧
    shm_objs k1 !! "/ring_t1"%string = Some m ∧
    Z.of_nat (length m) = 57 ∧ computed_map_size 8 256 = 2132 ∧
    Plain.create_or_open "/ring_t1" 8 256 false k1
    = Ok (open_handle "/ring_t1" 57 1 1 false) k1.
Proof.
  eexists _, _, _. split; [vm_compute; reflexivity|].
  split; [vm_compute; reflexivity|].
  split_and!; vm_compute; reflexivity.
Qed.

(** ** Reading a request *)

Lemma substring_0_all s : ∀ n, (String.length s <= n)%nat → String.substring 0 n s = s.
Proof.
  induction s as [|c s IH]; intros [|n] Hn; simpl in *; try done; try lia.
  rewrite IH by lia. done.
Qed.

Lemma c_string_nul_free s : nul_free s = true → Daemon.c_string s = s.
Proof.
  induction s as [|c s IH]; [done|]. simpl. intros [Hc Hs]%andb_prop.
  apply negb_true_iff, bool_decide_eq_false in Hc.
  rewrite decide_False by done. by rewrite IH.
Qed.

Lemma string_app_cons c a b : (String c a +:+ b)%string = String c (a +:+ b).
Proof. reflexivity. Qed.

Lemma string_app_nil_r a : (a +:+ "")%string = a.
Proof. induction a as [|c a IH]; [done|]. by rewrite string_app_cons, IH. Qed.

Lemma string_length_app a b :
  String.length (a +:+ b) = (String.length a + String.length b)%nat.
Proof. induction a as [|c a IH]; [done|]. rewrite string_app_cons. simpl. by rewrite IH. Qed.

Lemma nul_free_app a b : nul_free (a +:+ b) = nul_free a && nul_free b.
Proof.
  induction a as [|c a IH]; [done|]. rewrite string_app_cons. simpl.
  by rewrite IH, andb_assoc.
Qed.

Lemma take_token_app t rest :
  space_free t = true →
  match rest with EmptyString => True | String c _ => Ascii.is_space c = true end →
  Daemon.take_token (t +:+ rest) = (t, rest).
Proof.
  intros Ht Hrest. induction t as [|c t IH].
  - change ("" +:+ rest)%string with rest. destruct rest as [|c r]; [done|].
    simpl. by rewrite Hrest.
  - rewrite string_app_cons. simpl in Ht |- *.
    apply andb_prop in Ht as [Hc Ht]. apply negb_true_iff in Hc.
    rewrite Hc, IH by done. done.
Qed.

Lemma extract_token t rest :
  is_token t →
  match rest with EmptyString => True | String c _ => Ascii.is_space c = true end →
  Daemon.extract (t +:+ rest) = (t, rest).
Proof.
  intros (Hne & _ & Hsp) Hrest. unfold Daemon.extract.
  destruct t as [|c t]; [done|].
  assert (Hskip : Daemon.skip_ws (String c t +:+ rest) = (String c t +:+ rest)%string).
  { rewrite string_app_cons. simpl in Hsp |- *.
    apply andb_prop in Hsp as [Hc _]. apply negb_true_iff in Hc. by rewrite Hc. }
  rewrite Hskip. by apply take_token_app.
Qed.

Lemma extract_blank s : Daemon.extract (String " " s) = Daemon.extract s.
Proof. reflexivity. Qed.

(** What the daemon reads from a well-formed REGISTER request. *)
Lemma serve_register key addr ring registry :
  is_token key → is_token addr → is_token ring →
  (String.length (Client.register_request key addr ring) < Daemon.BUF_SIZE)%nat →
  Daemon.serve (Some (Client.register_request key addr ring)) registry
  = Daemon.on_register (" " +:+ key +:+ " " +:+ addr +:+ " " +:+ ring) registry.
Proof.
  intros Hk Ha Hr Hlen. unfold Daemon.serve.
  rewrite substring_0_all by (unfold Daemon.BUF_SIZE in *; lia).
  unfold Client.register_request in *.
  rewrite decide_False; last first.
  { rewrite string_length_app. simpl. lia. }
  rewrite c_string_nul_free; last first.
  { destruct Hk as (_ & Hk & _), Ha as (_ & Ha & _), Hr as (_ & Hr & _).
    rewrite !nul_free_app, Hk, Ha, Hr. done. }
  change ("REGISTER " +:+ key +:+ " " +:+ addr +:+ " " +:+ ring)%string
    with ("REGISTER" +:+ (" " +:+ key +:+ " " +:+ addr +:+ " " +:+ ring))%string.
  rewrite (extract_token "REGISTER"); [|done|done].
  rewrite decide_True by done. done.
Qed.

Lemma on_register_tokens key addr ring registry :
  is_token key → is_token addr → is_token ring →
  Daemon.on_register (" " +:+ key +:+ " " +:+ addr +:+ " " +:+ ring) registry
  = let vec := default [] (registry !! key) in
    let vec' := vec ++ [ {| Daemon.sock := addr; Daemon.shm := ring |} ] in
    {| Daemon.registry_after := <[key := vec']> registry;
       Daemon.sent := Daemon.reply_existing key addr vec
                      ++ Daemon.notify_peers key addr ring vec';
       Daemon.logged := [("REGISTER: " +:+ key +:+ " " +:+ addr +:+ " " +:+ ring)%string] |}.
Proof.
  intros Hk Ha Hr. unfold Daemon.on_register.
  change (" " +:+ key +:+ " " +:+ addr +:+ " " +:+ ring)%string
    with (String " " (key +:+ String " " (addr +:+ String " " ring))).
  rewrite extract_blank, (extract_token key) by done.
  rewrite extract_blank, (extract_token addr) by done.
  rewrite extract_blank. rewrite <- (string_app_nil_r ring) at 1.
  rewrite (extract_token ring) by done. done.
Qed.

(** ** The two loops of the REGISTER branch *)

Lemma reply_existing_map key addr vec :
  Daemon.reply_existing key addr vec
  = (λ p, {| Daemon.dest := Daemon.sun_path addr;
             Daemon.payload := Daemon.peer_record key (Daemon.sock p) (Daemon.shm p) |})
    <$> vec.
Proof. induction vec as [|p vec IH]; [done|]. simpl. by rewrite IH. Qed.

Lemma notify_peers_app key addr ring v1 v2 :
  Daemon.notify_peers key addr ring (v1 ++ v2)
  = Daemon.notify_peers key addr ring v1 ++ Daemon.notify_peers key addr ring v2.
Proof.
  induction v1 as [|p v1 IH]; [done|]. simpl.
  case_decide; [done|]. by rewrite IH.
Qed.

Lemma notify_peers_filter key addr ring vec :
  Daemon.notify_peers key addr ring vec
  = (λ p, {| Daemon.dest := Daemon.sun_path (Daemon.sock p);
             Daemon.payload := Daemon.peer_record key addr ring |})
    <$> filter (λ p, Daemon.sock p ≠ addr) vec.
Proof.
  induction vec as [|p vec IH]; [done|]. simpl. rewrite filter_cons.
  destruct (decide (Daemon.sock p = addr)) as [Heq|Hne].
  - rewrite decide_False by (intros H; by apply H). done.
  - rewrite decide_True by done. simpl. by rewrite IH.
Qed.

Lemma filter_all_other addr (vec : list Daemon.ClientInfo) :
  Forall (λ p, Daemon.sock p ≠ addr) vec →
  filter (λ p, Daemon.sock p ≠ addr) vec = vec.
Proof.
  induction 1 as [|p vec Hp _ IH]; [done|].
  rewrite filter_cons, decide_True by done. by rewrite IH.
Qed.

(** C8 (amended). On [REGISTER key addr ring] with [k] participants
    already registered under [key], the daemon sends [k] PEER datagrams
    to the new client's address, one per existing participant and
    describing it, in registration order; appends the new participant to
    the list of [key]; then sends one PEER datagram describing the new
    participant to each existing participant whose address differs from
    [addr], and to no one else.  Participants already registered under
    [addr] itself are skipped together with the new entry, so these are
    exactly [k] datagrams only when no existing participant has the
    address [addr].  (A datagram is addressed to the first 107 bytes of
    the address, the capacity of [sun_path].) *)
Theorem register_notifications key addr ring registry :
  is_token key → is_token addr → is_token ring →
  (String.length (Client.register_request key addr ring) < Daemon.BUF_SIZE)%nat →
  let existing := default [] (registry !! key) in
  let r := Daemon.serve (Some (Client.register_request key addr ring)) registry in
  Daemon.registry_after r
  = <[key := existing ++ [ {| Daemon.sock := addr; Daemon.shm := ring |} ]]> registry ∧
  Daemon.sent r
  = ((λ p, {| Daemon.dest := Daemon.sun_path addr;
              Daemon.payload := Daemon.peer_record key (Daemon.sock p) (Daemon.shm p) |})
     <$> existing)
    ++ ((λ p, {| Daemon.dest := Daemon.sun_path (Daemon.sock p);
                 Daemon.payload := Daemon.peer_record key addr ring |})
        <$> filter (λ p, Daemon.sock p ≠ addr) existing) ∧
  (Forall (λ p, Daemon.sock p ≠ addr) existing →
   Daemon.sent r
   = ((λ p, {| Daemon.dest := Daemon.sun_path addr;
               Daemon.payload := Daemon.peer_record key (Daemon.sock p) (Daemon.shm p) |})
      <$> existing)
     ++ ((λ p, {| Daemon.dest := Daemon.sun_path (Daemon.sock p);
                  Daemon.payload := Daemon.peer_record key addr ring |})
         <$> existing) ∧
   length (Daemon.sent r) = (length existing + length existing)%nat).
Proof.
  intros Hk Ha Hr Hlen existing r.
  assert (Hsent : Daemon.sent r
    = ((λ p, {| Daemon.dest := Daemon.sun_path addr;
                Daemon.payload := Daemon.peer_record key (Daemon.sock p) (Daemon.shm p) |})
       <$> existing)
      ++ ((λ p, {| Daemon.dest := Daemon.sun_path (Daemon.sock p);
                   Daemon.payload := Daemon.peer_record key addr ring |})
          <$> filter (λ p, Daemon.sock p ≠ addr) existing)).
  { unfold r. rewrite serve_register, on_register_tokens by done. simpl.
    rewrite reply_existing_map, notify_peers_app. fold existing. f_equal.
    simpl. rewrite decide_True by done. rewrite app_nil_r.
    apply notify_peers_filter. }
  split_and!.
  - unfold r. rewrite serve_register, on_register_tokens by done. done.
  - exact Hsent.
  - intros Hall. rewrite Hsent, filter_all_other by done.
    split; [done|]. by rewrite length_app, !length_fmap.
Qed.

Lemma register_notifications_witness :
  let r := Daemon.serve (Some (Client.register_request "demo" "/tmp/ipc_consumer_9.sock" "-"))
             demo_registry in
  Daemon.registry_after r
  = <[ "demo"%string := [demo_producer;
                          {| Daemon.sock := "/tmp/ipc_consumer_9.sock"; Daemon.shm := "-" |}] ]>
      demo_registry ∧
  Daemon.sent r
  = [ {| Daemon.dest := "/tmp/ipc_consumer_9.sock";
         Daemon.payload := "PEER demo /tmp/ipc_producer_7.sock /ipc_demo_7" |};
      {| Daemon.dest := "/tmp/ipc_producer_7.sock";
         Daemon.payload := "PEER demo /tmp/ipc_consumer_9.sock -" |} ].
Proof.
  destruct (register_notifications "demo" "/tmp/ipc_consumer_9.sock" "-" demo_registry)
    as (Hreg & Hsent & _).
  - split; [done|]. split; vm_compute; reflexivity.
  - split; [done|]. split; vm_compute; reflexivity.
  - split; [done|]. split; vm_compute; reflexivity.
  - vm_compute. lia.
  - split; [exact Hreg|]. rewrite Hsent. vm_compute. reflexivity.
Defined.

(** C8 as stated fails when an existing participant has the address of
    the new client: with one participant registered ([k = 1]), a
    REGISTER from the same address with another ring produces the reply
    to the new client and no datagram that describes the new participant. *)
Lemma register_notifications_counterexample :
  let r := Daemon.serve
             (Some (Client.register_request "demo" "/tmp/ipc_producer_7.sock" "/ipc_demo_8"))
             demo_registry in
  demo_registry !! "demo"%string = Some [demo_producer] ∧
  Daemon.sent r
  = [ {| Daemon.dest := "/tmp/ipc_producer_7.sock";
         Daemon.payload := "PEER demo /tmp/ipc_producer_7.sock /ipc_demo_7" |} ] ∧
  filter (λ d, Daemon.payload d
               = Daemon.peer_record "demo" "/tmp/ipc_producer_7.sock" "/ipc_demo_8")
    (Daemon.sent r) = [].
Proof. split_and!; vm_compute; reflexivity. Qed.

(** ** Requests other than REGISTER *)

(** C5 (amended). The daemon handles REGISTER only.  Every other
    request, DEREGISTER included, leaves the registry as it was and sends
    nothing; a DEREGISTER request is logged as unrecognised and the
    record it names stays registered. *)
Theorem unrecognised_requests_ignored :
  (∀ received registry,
     command_of received ≠ "REGISTER"%string →
     Daemon.registry_after (Daemon.serve received registry) = registry ∧
     Daemon.sent (Daemon.serve received registry) = [])
  ∧
  (∀ key addr ring registry,
     let r := Daemon.serve (Some (Client.deregister_request key addr ring)) registry in
     command_of (Some (Client.deregister_request key addr ring)) = "DEREGISTER"%string ∧
     Daemon.registry_after r = registry ∧ Daemon.sent r = [] ∧
     ∃ msg, Daemon.logged r = [("unrecognised request: " +:+ msg)%string]).
Proof.
  assert (Hgen : ∀ received registry,
            command_of received ≠ "REGISTER"%string →
            Daemon.registry_after (Daemon.serve received registry) = registry ∧
            Daemon.sent (Daemon.serve received registry) = [] ∧
            (command_of received ≠ EmptyString →
             ∃ msg, Daemon.logged (Daemon.serve received registry)
                    = [("unrecognised request: " +:+ msg)%string])).
  { intros [dgram|] registry Hcmd; [|done]. unfold command_of in *. unfold Daemon.serve.
    set (buf := String.substring 0 (Daemon.BUF_SIZE - 1) dgram) in *.
    case_decide as Hlen.
    - split; [done|]. split; [done|]. intros Hne. exfalso. apply Hne.
      destruct buf; [reflexivity|discriminate Hlen].
    - destruct (Daemon.extract (Daemon.c_string buf)) as [cmd iss]. simpl in Hcmd.
      rewrite decide_False by done. eauto. }
  split.
  - intros received registry Hcmd. destruct (Hgen received registry Hcmd) as (? & ? & _). done.
  - intros key addr ring registry r.
    assert (Hcmd : command_of (Some (Client.deregister_request key addr ring))
                   = "DEREGISTER"%string) by reflexivity.
    split; [done|]. unfold r.
    destruct (Hgen (Some (Client.deregister_request key addr ring)) registry)
      as (? & ? & Hlog); [by rewrite Hcmd|].
    split; [done|]. split; [done|]. apply Hlog. by rewrite Hcmd.
Qed.

Lemma unrecognised_requests_ignored_witness :
  Daemon.registry_after (Daemon.serve (Some "PING demo"%string) demo_registry) = demo_registry ∧
  Daemon.sent (Daemon.serve (Some "PING demo"%string) demo_registry) = [].
Proof.
  apply (proj1 unrecognised_requests_ignored (Some "PING demo"%string) demo_registry).
  vm_compute. congruence.
Defined.

(** C5 as stated fails: after a DEREGISTER request that names the
    registered producer, the producer is still registered. *)
Lemma unrecognised_requests_ignored_counterexample :
  let r := Daemon.serve
             (Some (Client.deregister_request "demo" "/tmp/ipc_producer_7.sock" "/ipc_demo_7"))
             demo_registry in
  demo_registry !! "demo"%string = Some [demo_producer] ∧
  Daemon.registry_after r !! "demo"%string = Some [demo_producer] ∧
  Daemon.sent r = [].
Proof. split_and!; vm_compute; reflexivity. Qed.

(** ** What the system-level calls leave as it was *)

Section KReturns.
Context (Q : kernel → kernel → Prop).
Hypothesis Q_refl : ∀ k, Q k k.
Hypothesis Q_trans : ∀ k1 k2 k3, Q k1 k2 → Q k2 k3 → Q k1 k3.

Lemma K_returns_ret {A} (a : A) : K_returns Q (mret a).
Proof. intros k. apply Q_refl. Qed.

Lemma K_returns_fail {A} diag : K_returns Q (fail_with (A := A) diag).
Proof. intros k. apply Q_refl. Qed.

Lemma K_returns_bind {A B} (c : K A) (f : A → K B) :
  K_returns Q c → (∀ a, K_returns Q (f a)) → K_returns Q (c ≫= f).
Proof.
  intros Hc Hf k. specialize (Hc k). unfold mbind, K_bind.
  destruct (c k) as [a k1|d k1|e]; [|done..].
  specialize (Hf a k1). destruct (f a k1); eauto.
Qed.

End KReturns.

Lemma other_objects_refl name k : other_objects name k k.
Proof. by intros n _. Qed.

Lemma other_objects_trans name k1 k2 k3 :
  other_objects name k1 k2 → other_objects name k2 k3 → other_objects name k1 k3.
Proof. intros H1 H2 n Hn. by rewrite H2, H1. Qed.

Lemma shm_open_others name create : K_returns (other_objects name) (shm_open name create).
Proof.
  intros k. unfold shm_open.
  destruct (shm_objs k !! name); [apply other_objects_refl|].
  destruct create; [|apply other_objects_refl].
  intros n Hn. simpl. by rewrite lookup_insert_ne.
Qed.

Lemma ftruncate_others name len : K_returns (other_objects name) (ftruncate name len).
Proof.
  intros k. unfold ftruncate.
  destruct (shm_objs k !! name); [|apply other_objects_refl].
  case_decide; [apply other_objects_refl|].
  intros n Hn. simpl. by rewrite lookup_insert_ne.
Qed.

Lemma map_write_others name off src : K_returns (other_objects name) (map_write name off src).
Proof.
  intros k. unfold map_write.
  destruct (shm_objs k !! name ≫= _); [|done].
  intros n Hn. simpl. by rewrite lookup_insert_ne.
Qed.

Lemma sem_open_excl_others name sem v : K_returns (other_objects name) (sem_open_excl sem v).
Proof.
  intros k. unfold sem_open_excl.
  destruct (sem_objs k !! sem); [apply other_objects_refl|].
  case_decide; [|apply other_objects_refl]. by intros n _.
Qed.

(** Calls that change nothing. *)
Lemma fstat_readonly name : K_returns (λ k k', k' = k) (fstat name).
Proof. by intros k. Qed.

Lemma mmap_readonly name len : K_returns (λ k k', k' = k) (mmap name len).
Proof. by intros k. Qed.

Lemma map_load32_readonly name off : K_returns (λ k k', k' = k) (map_load32 name off).
Proof. intros k. unfold map_load32. by destruct (_ ≫= _). Qed.

Lemma sem_open_readonly name : K_returns (λ k k', k' = k) (sem_open name).
Proof. intros k. unfold sem_open. by destruct (_ !! _). Qed.

Lemma shm_open_readonly name : K_returns (λ k k', k' = k) (shm_open name false).
Proof. intros k. unfold shm_open. by destruct (_ !! _). Qed.

Lemma K_returns_weaken {A} (Q Q' : kernel → kernel → Prop) (c : K A) :
  (∀ k k', Q k k' → Q' k k') → K_returns Q c → K_returns Q' c.
Proof. intros HQ Hc k. specialize (Hc k). destruct (c k); eauto. Qed.

Ltac K_step Q Q_refl Q_trans :=
  first
    [ apply (K_returns_bind Q Q_trans); [|intros ?]
    | apply (K_returns_ret Q Q_refl)
    | apply (K_returns_fail Q Q_refl)
    | match goal with |- K_returns _ (if ?b then _ else _) => destruct b end
    | match goal with |- K_returns _ (match ?o with _ => _ end) => destruct o end ].

Lemma eq_kernel_refl (k : kernel) : k = k.
Proof. done. Qed.

Lemma eq_kernel_trans (k1 k2 k3 : kernel) : k2 = k1 → k3 = k2 → k3 = k1.
Proof. congruence. Qed.

Lemma init_map_attach_readonly p :
  K_returns (λ k k', k' = k) (Ring.init_map p false).
Proof.
  unfold Ring.init_map. cbv zeta.
  repeat first
    [ apply shm_open_readonly | apply fstat_readonly | apply mmap_readonly
    | apply map_load32_readonly | K_step (λ k k' : kernel, k' = k) eq_kernel_refl eq_kernel_trans ].
Qed.

Lemma open_sems_retry_readonly n :
  ∀ p, K_returns (λ k k', k' = k) (Ring.open_sems_retry n p).
Proof.
  induction n as [|n IH]; intros p; simpl.
  - apply (K_returns_ret (λ k k' : kernel, k' = k) eq_kernel_refl).
  - repeat first [ apply sem_open_readonly | apply IH
                 | K_step (λ k k' : kernel, k' = k) eq_kernel_refl eq_kernel_trans ].
Qed.

Lemma attach_readonly name n s :
  K_returns (λ k k', k' = k) (Ring.create_or_open name n s false).
Proof.
  unfold Ring.create_or_open. cbv zeta.
  repeat first [ apply init_map_attach_readonly | apply open_sems_retry_readonly
               | K_step (λ k k' : kernel, k' = k) eq_kernel_refl eq_kernel_trans ].
Qed.

Lemma plain_init_map_attach_readonly p :
  K_returns (λ k k', k' = k) (Plain.init_map p false).
Proof.
  unfold Plain.init_map. cbv zeta.
  repeat first
    [ apply shm_open_readonly | apply fstat_readonly | apply mmap_readonly
    | apply map_load32_readonly | K_step (λ k k' : kernel, k' = k) eq_kernel_refl eq_kernel_trans ].
Qed.

Lemma plain_attach_readonly name n s :
  K_returns (λ k k', k' = k) (Plain.create_or_open name n s false).
Proof.
  unfold Plain.create_or_open. cbv zeta.
  repeat first [ apply plain_init_map_attach_readonly | apply sem_open_readonly
               | K_step (λ k k' : kernel, k' = k) eq_kernel_refl eq_kernel_trans ].
Qed.

Lemma init_map_others p create :
  K_returns (other_objects (shm_name_ p)) (Ring.init_map p create).
Proof.
  unfold Ring.init_map, map_store32. cbv zeta.
  repeat first
    [ apply shm_open_others | apply ftruncate_others | apply map_write_others
    | apply (K_returns_weaken (λ k k', k' = k));
      [intros ? ? ->; apply other_objects_refl
      |first [apply fstat_readonly | apply mmap_readonly | apply map_load32_readonly]]
    | K_step (other_objects (shm_name_ p)) (other_objects_refl (shm_name_ p)) (other_objects_trans (shm_name_ p)) ].
Qed.

Lemma create_or_open_others name N S create :
  K_returns (other_objects name) (Ring.create_or_open name N S create).
Proof.
  unfold Ring.create_or_open. cbv zeta. destruct create.
  - repeat first
      [ match goal with |- K_returns _ (Ring.init_map ?p ?c) => apply (init_map_others p c) end
      | apply sem_open_excl_others
      | K_step (other_objects name) (other_objects_refl name) (other_objects_trans name) ].
  - apply (K_returns_weaken (λ k k', k' = k)); [intros ? ? ->; apply other_objects_refl|].
    apply attach_readonly.
Qed.

(** The handle remembers the mode it was obtained in. *)
Lemma open_sems_retry_owner n :
  ∀ p k p1 k1, Ring.open_sems_retry n p k = Ok p1 k1 → owner_ p1 = owner_ p.
Proof.
  induction n as [|n IH]; intros p k p1 k1 H.
  - by injection H as <- <-.
  - simpl in H. unfold mbind, K_bind, sem_open, mret, K_ret in H.
    repeat (case_match; try done); simplify_eq; try done;
      match goal with H : Ring.open_sems_retry _ _ _ = _ |- _ => by apply IH in H end.
Qed.

Lemma create_or_open_owner name N S create k h k' :
  Ring.create_or_open name N S create k = Ok h k' → owner_ h = create.
Proof.
  unfold Ring.create_or_open. cbv zeta. intros H.
  apply K_bind_Ok_inv in H as (p1 & k1 & Hinit & H).
  apply init_map_handle in Hinit as (a & b & c & ->).
  destruct create.
  - unfold mbind, K_bind, sem_open_excl, mret, K_ret, fail_with in H. simpl in H.
    repeat (case_match; try done); simplify_eq; done.
  - apply K_bind_Ok_inv in H as (p2 & k2 & Hretry & H).
    apply open_sems_retry_owner in Hretry.
    case_match; [done|]. injection H as <- <-. simpl in *. done.
Qed.

(** ** The name space after [create_or_open] and [unlink_resources] *)

Lemma create_or_open_create_kernel name N S k :
  0 <= N <= SEM_VALUE_MAX → 0 <= S < UINT32_MOD →
  total_size N S < 2 ^ 63 → sems_absent name k →
  ∃ m,
    Ring.create_or_open name N S true k
    = Ok (open_handle name (total_size N S) N S true)
         (Kernel (<[name := m]> (shm_objs k))
            (<[Ring.sanitize_sem (name +:+ "_mutex") := 1]>
               (<[Ring.sanitize_sem (name +:+ "_filled") := 0]>
                  (<[Ring.sanitize_sem (name +:+ "_free") := N]> (sem_objs k))))) ∧
    region_inv N S [] 0 m ∧
    Z.of_nat (length m) = total_size N S.
Proof.
  intros HN HS Hlt Habs.
  destruct (create_or_open_create_ok name N S k HN HS Hlt Habs)
    as (m & k' & Hc & Hm & Hreg & Hlen & Hsems).
  pose proof (create_or_open_others name N S true k) as Hoth. rewrite Hc in Hoth.
  exists m. split; [|done]. rewrite Hc. f_equal.
  destruct k' as [shm' sem']. simpl in *. f_equal; [|done].
  apply map_eq. intros n. destruct (decide (n = name)) as [->|Hn].
  - by rewrite lookup_insert_eq.
  - rewrite lookup_insert_ne by done. by apply Hoth.
Qed.

Lemma delete_inserted (m : gmap string Z) a b c x y z :
  m !! a = None → m !! b = None → m !! c = None →
  delete c (delete b (delete a (<[c := z]> (<[b := y]> (<[a := x]> m))))) = m.
Proof.
  intros Ha Hb Hc. apply map_eq. intros i.
  rewrite !lookup_delete, !lookup_insert.
  repeat case_decide; simplify_eq; done.
Qed.

Lemma shm_open_absent name k :
  shm_objs k !! name = None → shm_open name false k = Ok false k.
Proof. intros H. unfold shm_open. by rewrite H. Qed.

Lemma attach_without_region name n s k :
  shm_objs k !! name = None →
  Ring.create_or_open name n s false k = Err "shm_open" k.
Proof.
  intros Hk. unfold Ring.create_or_open. cbv zeta.
  match goal with |- context [Ring.init_map ?p false] =>
    assert (Hinit : Ring.init_map p false k = Err "shm_open" k) end.
  { unfold Ring.init_map. cbv zeta.
    erewrite K_bind_Ok; [|by apply shm_open_absent]. done. }
  unfold mbind at 1. unfold K_bind at 1. by rewrite Hinit.
Qed.

Lemma plain_attach_without_region name n s k :
  shm_objs k !! name = None →
  Plain.create_or_open name n s false k = Err "shm_open" k.
Proof.
  intros Hk. unfold Plain.create_or_open. cbv zeta.
  match goal with |- context [Plain.init_map ?p false] =>
    assert (Hinit : Plain.init_map p false k = Err "shm_open" k) end.
  { unfold Plain.init_map. cbv zeta.
    erewrite K_bind_Ok; [|by apply shm_open_absent]. done. }
  unfold mbind at 1. unfold K_bind at 1. by rewrite Hinit.
Qed.

(** X1. The owner's [unlink_resources] undoes [create_or_open]: the three
    semaphore names and the region name leave the name space, which is
    then as it was before the creation (an earlier object of the same
    name is gone too); a later attach finds no region, and the ring can
    be created again. *)
Theorem create_then_unlink name N S k h k1 :
  is_u32 N → is_u32 S →
  Ring.create_or_open name N S true k = Ok h k1 →
  let k2 := Kernel (delete name (shm_objs k)) (sem_objs k) in
  Ring.unlink_resources h k1 = Ok () k2 ∧
  (∀ n s, Ring.create_or_open name n s false k2 = Err "shm_open" k2) ∧
  (∃ k3, Ring.create_or_open name N S true k2 = Ok h k3).
Proof.
  intros HN HS Hc k2.
  destruct (create_or_open_create_inv _ _ _ _ _ _ HN HS Hc) as (HNmax & Hlt & Habs).
  destruct (create_or_open_create_kernel name N S k) as (m & Hc' & _);
    [unfold is_u32 in *; lia|done..|].
  rewrite Hc' in Hc. injection Hc as <- <-.
  split; [|split].
  - unfold Ring.unlink_resources, open_handle, sem_unlink, shm_unlink, mbind, K_bind.
    simpl. unfold k2. f_equal. f_equal.
    + by rewrite delete_insert_eq.
    + destruct Habs as (? & ? & ?). by apply delete_inserted.
  - intros n s. apply attach_without_region. simpl. apply lookup_delete_eq.
  - destruct (create_or_open_create_kernel name N S k2) as (m2 & Hc2 & _);
      [unfold is_u32 in *; lia|done..|].
    eauto.
Qed.

Lemma create_then_unlink_witness :
  ∃ h k1,
    Ring.create_or_open "/test_ring" 4 64 true empty_kernel = Ok h k1 ∧
    Ring.unlink_resources h k1 = Ok () empty_kernel ∧
    Ring.create_or_open "/test_ring" 1 1 false empty_kernel = Err "shm_open" empty_kernel.
Proof.
  eexists _, _. split; [vm_compute; reflexivity|].
  edestruct (create_then_unlink "/test_ring" 4 64 empty_kernel) as (H1 & H2 & _);
    [vm_compute; split; congruence | vm_compute; split; congruence
    | vm_compute; reflexivity |].
  split; [exact H1|exact (H2 1 1)].
Defined.

(** X2. Attaching never changes the name space, whether it returns a
    handle or not, and a handle obtained by attaching is not an owner:
    its [unlink_resources] removes nothing. *)
Theorem attach_changes_nothing name n s k :
  match Ring.create_or_open name n s false k with
  | Ok h k' => k' = k ∧ owner_ h = false ∧ ∀ k'', Ring.unlink_resources h k'' = Ok () k''
  | Err _ k' => k' = k
  | Crash _ => True
  end.
Proof.
  pose proof (attach_readonly name n s k) as Hro.
  destruct (Ring.create_or_open name n s false k) as [h k'|d k'|f] eqn:E; [|done..].
  split; [done|]. apply create_or_open_owner in E. split; [done|].
  intros k''. unfold Ring.unlink_resources. by rewrite E.
Qed.

(** ** Every way [create_or_open] ends *)

Lemma init_map_create_kernel p k N S :
  slot_count_ p = N → slot_size_ p = S →
  0 <= N <= SEM_VALUE_MAX → 0 <= S < UINT32_MOD →
  total_size N S < 2 ^ 63 →
  ∃ m,
    Ring.init_map p true k
    = Ok (with_map p (total_size N S) N S)
         (Kernel (<[shm_name_ p := m]> (shm_objs k)) (sem_objs k)) ∧
    region_inv N S [] 0 m ∧
    Z.of_nat (length m) = total_size N S.
Proof.
  intros HpN HpS HN HS Hlt.
  destruct (init_map_create p k N S HpN HpS HN HS Hlt)
    as (m & k' & Hinit & Hm & Hsems & Hreg & Hlen).
  pose proof (init_map_others p true k) as Hoth. rewrite Hinit in Hoth.
  exists m. split; [|done]. rewrite Hinit. f_equal.
  destruct k' as [shm' sem']. simpl in *. f_equal; [|done].
  apply map_eq. intros n. destruct (decide (n = shm_name_ p)) as [->|Hn].
  - by rewrite lookup_insert_eq.
  - rewrite lookup_insert_ne by done. by apply Hoth.
Qed.

(** X3. Creation returns a handle only when the slot count is at most
    [SEM_VALUE_MAX], the computed size is a non-negative [off_t] and none
    of the three semaphore names is taken; in every other case the caller
    gets no handle.  When a handle is returned it is the owner's with the
    geometry asked for, the region has the computed size with its header
    set and [head = tail = 0], the semaphores start at [N], 0 and 1, and
    no other object of the name space has changed. *)
Theorem create_success_conditions name N S k h k' :
  is_u32 N → is_u32 S →
  Ring.create_or_open name N S true k = Ok h k' →
  (N <= SEM_VALUE_MAX ∧ total_size N S < 2 ^ 63 ∧ sems_absent name k) ∧
  h = open_handle name (total_size N S) N S true ∧
  sem_objs k'
  = <[Ring.sanitize_sem (name +:+ "_mutex") := 1]>
      (<[Ring.sanitize_sem (name +:+ "_filled") := 0]>
         (<[Ring.sanitize_sem (name +:+ "_free") := N]> (sem_objs k))) ∧
  ∃ m, shm_objs k' = <[name := m]> (shm_objs k) ∧
       region_inv N S [] 0 m ∧ Z.of_nat (length m) = total_size N S.
Proof.
  intros HN HS Hc.
  pose proof (create_or_open_create_inv _ _ _ _ _ _ HN HS Hc) as Hcond.
  split; [exact Hcond|]. destruct Hcond as (HNmax & Hlt & Habs).
  destruct (create_or_open_create_kernel name N S k) as (m & Hc' & Hreg & Hlen);
    [destruct HN; lia|done..|].
  rewrite Hc' in Hc. injection Hc as <- <-. simpl.
  split; [done|]. split; [done|]. by exists m.
Qed.

Lemma create_success_conditions_witness :
  ∃ h k',
    Ring.create_or_open "/test_ring" 4 64 true empty_kernel = Ok h k' ∧
    (4 <= SEM_VALUE_MAX ∧ total_size 4 64 < 2 ^ 63 ∧ sems_absent "/test_ring" empty_kernel) ∧
    h = open_handle "/test_ring" (total_size 4 64) 4 64 true.
Proof.
  assert (H : ∃ h k', Ring.create_or_open "/test_ring" 4 64 true empty_kernel = Ok h k').
  { eexists _, _. vm_compute. reflexivity. }
  destruct H as (h & k' & H). exists h, k'. split; [exact H|].
  destruct (create_success_conditions "/test_ring" 4 64 empty_kernel h k')
    as (Hcond & Hh & _);
    [unfold is_u32, UINT32_MOD; lia|unfold is_u32, UINT32_MOD; lia|exact H|].
  split; [exact Hcond|exact Hh].
Defined.

(** X4. A creation that fails on a semaphore is not rolled back.  When
    the name of the free semaphore is taken (the ring is live), no handle
    is returned, yet the region has been created or reset: its header
    reads [head = tail = 0] and the semaphores keep their values.  When
    only a later name is taken, the free semaphore created before stays
    in the name space. *)
Theorem failed_create_not_undone name N S k :
  0 <= N <= SEM_VALUE_MAX → is_u32 S → total_size N S < 2 ^ 63 →
  (is_Some (sem_objs k !! Ring.sanitize_sem (name +:+ "_free")) →
   ∃ m, Ring.create_or_open name N S true k
        = Err "sem_open free" (Kernel (<[name := m]> (shm_objs k)) (sem_objs k)) ∧
        region_inv N S [] 0 m) ∧
  (sem_objs k !! Ring.sanitize_sem (name +:+ "_free") = None →
   is_Some (sem_objs k !! Ring.sanitize_sem (name +:+ "_filled")) →
   ∃ m, Ring.create_or_open name N S true k
        = Err "sem_open filled"
            (Kernel (<[name := m]> (shm_objs k))
               (<[Ring.sanitize_sem (name +:+ "_free") := N]> (sem_objs k))) ∧
        region_inv N S [] 0 m).
Proof.
  intros HN HS Hlt.
  destruct (sem_names_distinct name) as (Hd1 & Hd2 & Hd3).
  split.
  - intros Hfree. unfold Ring.create_or_open. cbv zeta.
    match goal with |- context [Ring.init_map ?p true] =>
      destruct (init_map_create_kernel p k N S eq_refl eq_refl HN HS Hlt)
        as (m & Hinit & Hreg & _) end.
    exists m. split; [|done].
    rewrite (K_bind_Ok _ _ _ _ _ Hinit). simpl.
    erewrite K_bind_Ok; [|apply sem_open_excl_refused; by left]. done.
  - intros Hfree Hfilled. unfold Ring.create_or_open. cbv zeta.
    match goal with |- context [Ring.init_map ?p true] =>
      destruct (init_map_create_kernel p k N S eq_refl eq_refl HN HS Hlt)
        as (m & Hinit & Hreg & _) end.
    exists m. split; [|done].
    rewrite (K_bind_Ok _ _ _ _ _ Hinit). simpl.
    erewrite K_bind_Ok; [|apply sem_open_excl_fresh; [done|lia]]. simpl.
    erewrite K_bind_Ok; last first.
    { apply sem_open_excl_refused. left. simpl. by rewrite lookup_insert_ne. }
    done.
Qed.

Lemma failed_create_not_undone_witness :
  let k := Kernel ∅ {[ "/_ring_t2_free"%string := 2 ]} in
  ∃ m, Ring.create_or_open "/ring_t2" 1 1 true k
       = Err "sem_open free" (Kernel (<[ "/ring_t2"%string := m ]> (shm_objs k)) (sem_objs k)) ∧
       region_inv 1 1 [] 0 m.
Proof.
  intros k.
  apply (proj1 (failed_create_not_undone "/ring_t2" 1 1 k
                  ltac:(unfold SEM_VALUE_MAX; lia)
                  ltac:(unfold is_u32, UINT32_MOD; lia)
                  ltac:(vm_compute; reflexivity))).
  vm_compute. eauto.
Defined.

(** [open_sems_retry] when one of the three names is missing: every
    round fails, and the handle keeps a [SEM_FAILED] entry. *)
Lemma open_sems_retry_absent n :
  ∀ p k,
    ¬ (is_Some (sem_objs k !! sem_free_name_ p) ∧
       is_Some (sem_objs k !! sem_filled_name_ p) ∧
       is_Some (sem_objs k !! sem_mutex_name_ p)) →
    ∃ p', Ring.open_sems_retry (Datatypes.S n) p k = Ok p' k ∧
          (sem_free_ p' = None ∨ sem_filled_ p' = None ∨ sem_mutex_ p' = None).
Proof.
  assert (Hround : ∀ p k,
    ¬ (is_Some (sem_objs k !! sem_free_name_ p) ∧
       is_Some (sem_objs k !! sem_filled_name_ p) ∧
       is_Some (sem_objs k !! sem_mutex_name_ p)) →
    ∃ fr fi mu,
      (fr = None ∨ fi = None ∨ mu = None) ∧
      ∀ rest, Ring.open_sems_retry (Datatypes.S rest) p k
              = Ring.open_sems_retry rest (with_sems p fr fi mu) k).
  { intros p k Habs.
    exists (match sem_objs k !! sem_free_name_ p with Some _ => Some (sem_free_name_ p) | None => None end),
           (match sem_objs k !! sem_filled_name_ p with Some _ => Some (sem_filled_name_ p) | None => None end),
           (match sem_objs k !! sem_mutex_name_ p with Some _ => Some (sem_mutex_name_ p) | None => None end).
    split.
    - destruct (sem_objs k !! sem_free_name_ p); [|by left].
      destruct (sem_objs k !! sem_filled_name_ p); [|by right; left].
      destruct (sem_objs k !! sem_mutex_name_ p); [|by right; right].
      destruct Habs. eauto.
    - intros rest. simpl. unfold mbind, K_bind, sem_open.
      destruct (sem_objs k !! sem_free_name_ p) eqn:E1;
        destruct (sem_objs k !! sem_filled_name_ p) eqn:E2;
        destruct (sem_objs k !! sem_mutex_name_ p) eqn:E3;
        try (rewrite bool_decide_eq_false_2 by (intros (? & ? & ?); done); done).
      destruct Habs. eauto. }
  induction n as [|n IH]; intros p k Habs.
  - destruct (Hround p k Habs) as (fr & fi & mu & Hnone & Heq).
    rewrite Heq. simpl. eexists. split; [reflexivity|]. done.
  - destruct (Hround p k Habs) as (fr & fi & mu & Hnone & Heq).
    rewrite Heq. apply IH. done.
Qed.

(** X5. Every way an attach ends once the region exists and holds the
    header fields: the size is checked first, then the magic number,
    then the semaphores (after twenty rounds); on success the geometry
    is the header's, not the caller's.  Without a region the call fails
    in [shm_open]. *)
Theorem attach_outcome :
  (∀ name n s k,
     shm_objs k !! name = None →
     Ring.create_or_open name n s false k = Err "shm_open" k)
  ∧
  (∀ name n s k m magic N S,
     shm_objs k !! name = Some m →
     load32 m OFF_magic = Some magic →
     load32 m OFF_slot_count = Some N →
     load32 m OFF_slot_size = Some S →
     Ring.create_or_open name n s false k
     = if decide (usize (Z.of_nat (length m)) < computed_map_size n s)
       then Err "shm too small" k
       else if decide (magic ≠ RING_MAGIC) then Err "bad shm magic" k
       else if decide (sems_present name k)
            then Ok (open_handle name (Z.of_nat (length m)) N S false) k
            else Err ("Failed to open semaphores for " +:+ name) k).
Proof.
  split; [apply attach_without_region|].
  intros name n s k m magic N S Hm Hmagic HN HS.
  unfold Ring.create_or_open. cbv zeta.
  case_decide as Hsz.
  { unfold mbind, K_bind. rewrite (init_map_attach_small _ k m); done. }
  set (p := {| shm_name_ := name; map_size_ := 0; slot_count_ := n; slot_size_ := s;
               owner_ := false; sem_free_ := None; sem_filled_ := None; sem_mutex_ := None;
               sem_free_name_ := Ring.sanitize_sem (name +:+ "_free");
               sem_filled_name_ := Ring.sanitize_sem (name +:+ "_filled");
               sem_mutex_name_ := Ring.sanitize_sem (name +:+ "_mutex") |}).
  assert (Hlen : Z.of_nat (length m) ≠ 0).
  { unfold load32 in Hmagic. destruct (mem_read m OFF_magic 4) as [bs|] eqn:E; [|done].
    apply mem_read_inv in E. unfold OFF_magic in E. lia. }
  assert (Hinit : Ring.init_map p false k
                  = if decide (magic ≠ RING_MAGIC) then Err "bad shm magic" k
                    else Ok (with_map p (Z.of_nat (length m)) N S) k).
  { unfold Ring.init_map.
    rewrite (K_bind_Ok _ _ _ _ _ (shm_open_existing _ _ _ Hm)). cbn [negb]. cbv iota.
    rewrite K_bind_assoc, (K_bind_Ok _ _ _ _ _ (fstat_existing _ _ _ Hm)).
    unfold computed_map_size in Hsz. rewrite decide_False by done.
    erewrite K_bind_Ok; [|reflexivity].
    assert (Hmap : mmap (shm_name_ p) (Z.of_nat (length m)) k = Ok true k).
    { unfold mmap. rewrite bool_decide_eq_true_2; [done|]. split; [done|]. simpl.
      by rewrite Hm. }
    rewrite (K_bind_Ok _ _ _ _ _ Hmap). cbn [negb]. cbv iota.
    erewrite K_bind_Ok; [|eapply map_load32_Ok; [done|exact Hmagic]].
    case_decide; [done|].
    erewrite K_bind_Ok; [|eapply map_load32_Ok; [done|exact HN]].
    erewrite K_bind_Ok; [|eapply map_load32_Ok; [done|exact HS]].
    done. }
  unfold mbind at 1. unfold K_bind at 1. rewrite Hinit.
  case_decide as Hmg; [done|].
  case_decide as Hsems.
  - destruct Hsems as (H1 & H2 & H3).
    erewrite K_bind_Ok; [|by apply open_sems_retry_present]. reflexivity.
  - destruct (open_sems_retry_absent 19 (with_map p (Z.of_nat (length m)) N S) k)
      as (p' & Hretry & Hnone); [done|].
    rewrite (K_bind_Ok _ _ _ _ _ Hretry).
    rewrite bool_decide_eq_true_2 by done. done.
Qed.

Lemma attach_outcome_witness :
  ∃ h k1,
    Ring.create_or_open "/ring_t1" 1 1 true empty_kernel = Ok h k1 ∧
    Ring.create_or_open "/ring_t1" 1 1 false k1
    = Ok (open_handle "/ring_t1" 57 1 1 false) k1 ∧
    Ring.create_or_open "/ring_t9" 1 1 false k1 = Err "shm_open" k1.
Proof.
  eexists _, _. split; [vm_compute; reflexivity|]. split.
  - erewrite (proj2 attach_outcome); [|vm_compute; reflexivity..].
    vm_compute. reflexivity.
  - apply (proj1 attach_outcome). vm_compute. reflexivity.
Defined.

Lemma sem_open_absent name k :
  sem_objs k !! name = None → sem_open name k = Ok None k.
Proof. intros H. unfold sem_open. by rewrite H. Qed.

(** X6. The unannotated copy attaches differently: the size of the
    region is compared with the size of the header only, whatever
    geometry the caller passes, and each semaphore is opened once, the
    first missing one ending the call with its own diagnostic. *)
Theorem plain_attach_outcome :
  (∀ name n s k,
     shm_objs k !! name = None →
     Plain.create_or_open name n s false k = Err "shm_open" k)
  ∧
  (∀ name n s k m magic N S,
     shm_objs k !! name = Some m →
     load32 m OFF_magic = Some magic →
     load32 m OFF_slot_count = Some N →
     load32 m OFF_slot_size = Some S →
     Plain.create_or_open name n s false k
     = if decide (usize (Z.of_nat (length m)) < sizeof_RingHeader)
       then Err "shm too small" k
       else if decide (magic ≠ RING_MAGIC) then Err "bad shm magic" k
       else if decide (sem_objs k !! Ring.sanitize_sem (name +:+ "_free") = None)
            then Err "sem_open free" k
       else if decide (sem_objs k !! Ring.sanitize_sem (name +:+ "_filled") = None)
            then Err "sem_open filled" k
       else if decide (sem_objs k !! Ring.sanitize_sem (name +:+ "_mutex") = None)
            then Err "sem_open mutex" k
       else Ok (open_handle name (Z.of_nat (length m)) N S false) k).
Proof.
  split; [apply plain_attach_without_region|].
  intros name n s k m magic N S Hm Hmagic HN HS.
  unfold Plain.create_or_open. cbv zeta.
  case_decide as Hsz.
  { unfold mbind, K_bind. rewrite (plain_init_map_attach_small _ k m); done. }
  set (p := {| shm_name_ := name; map_size_ := 0; slot_count_ := n; slot_size_ := s;
               owner_ := false; sem_free_ := None; sem_filled_ := None; sem_mutex_ := None;
               sem_free_name_ := Plain.sanitize_sem (name +:+ "_free");
               sem_filled_name_ := Plain.sanitize_sem (name +:+ "_filled");
               sem_mutex_name_ := Plain.sanitize_sem (name +:+ "_mutex") |}).
  assert (Hlen : Z.of_nat (length m) ≠ 0).
  { unfold load32 in Hmagic. destruct (mem_read m OFF_magic 4) as [bs|] eqn:E; [|done].
    apply mem_read_inv in E. unfold OFF_magic in E. lia. }
  assert (Hinit : Plain.init_map p false k
                  = if decide (magic ≠ RING_MAGIC) then Err "bad shm magic" k
                    else Ok (with_map p (Z.of_nat (length m)) N S) k).
  { unfold Plain.init_map.
    rewrite (K_bind_Ok _ _ _ _ _ (shm_open_existing _ _ _ Hm)). cbn [negb]. cbv iota.
    rewrite K_bind_assoc, (K_bind_Ok _ _ _ _ _ (fstat_existing _ _ _ Hm)).
    rewrite decide_False by done.
    erewrite K_bind_Ok; [|reflexivity].
    assert (Hmap : mmap (shm_name_ p) (Z.of_nat (length m)) k = Ok true k).
    { unfold mmap. rewrite bool_decide_eq_true_2; [done|]. split; [done|]. simpl.
      by rewrite Hm. }
    rewrite (K_bind_Ok _ _ _ _ _ Hmap). cbn [negb]. cbv iota.
    erewrite K_bind_Ok; [|eapply map_load32_Ok; [done|exact Hmagic]].
    case_decide; [done|].
    erewrite K_bind_Ok; [|eapply map_load32_Ok; [done|exact HN]].
    erewrite K_bind_Ok; [|eapply map_load32_Ok; [done|exact HS]].
    done. }
  unfold mbind at 1. unfold K_bind at 1. rewrite Hinit.
  case_decide as Hmg; [done|]. simpl.
  change (Plain.sanitize_sem (name +:+ "_free")) with (Ring.sanitize_sem (name +:+ "_free")).
  change (Plain.sanitize_sem (name +:+ "_filled")) with (Ring.sanitize_sem (name +:+ "_filled")).
  change (Plain.sanitize_sem (name +:+ "_mutex")) with (Ring.sanitize_sem (name +:+ "_mutex")).
  case_decide as Hfr.
  { by rewrite (K_bind_Ok _ _ _ _ _ (sem_open_absent _ _ Hfr)). }
  erewrite K_bind_Ok; [|apply sem_open_present; by apply not_eq_None_Some]. simpl.
  case_decide as Hfi.
  { by rewrite (K_bind_Ok _ _ _ _ _ (sem_open_absent _ _ Hfi)). }
  erewrite K_bind_Ok; [|apply sem_open_present; by apply not_eq_None_Some]. simpl.
  case_decide as Hmu.
  { by rewrite (K_bind_Ok _ _ _ _ _ (sem_open_absent _ _ Hmu)). }
  erewrite K_bind_Ok; [|apply sem_open_present; by apply not_eq_None_Some]. simpl.
  reflexivity.
Qed.

Lemma plain_attach_outcome_witness :
  ∃ h k1,
    Ring.create_or_open "/ring_t1" 1 1 true empty_kernel = Ok h k1 ∧
    Plain.create_or_open "/ring_t1" 8 256 false k1
    = Ok (open_handle "/ring_t1" 57 1 1 false) k1 ∧
    Plain.create_or_open "/ring_t9" 1 1 false k1 = Err "shm_open" k1.
Proof.
  eexists _, _. split; [vm_compute; reflexivity|]. split.
  - erewrite (proj2 plain_attach_outcome); [|vm_compute; reflexivity..].
    vm_compute. reflexivity.
  - apply (proj1 plain_attach_outcome). vm_compute. reflexivity.
Defined.

(** ** What the ring operations leave as it was *)

Section Returns.
Context (Q : world → world → Prop).
Hypothesis Q_refl : ∀ w, Q w w.
Hypothesis Q_trans : ∀ w1 w2 w3, Q w1 w2 → Q w2 w3 → Q w1 w3.

Lemma returns_ret {A} (a : A) : returns Q (mret a).
Proof. intros w a' w' [= _ <-]. apply Q_refl. Qed.

Lemma returns_bind {A B} (c : M A) (f : A → M B) :
  returns Q c → (∀ a, returns Q (f a)) → returns Q (c ≫= f).
Proof.
  intros Hc Hf w b w' H. apply bind_Done_inv in H as (a & w1 & H1 & H2).
  eapply Q_trans; [by eapply Hc|by eapply Hf].
Qed.

Lemma returns_raise {A} e : returns Q (raise (A := A) e).
Proof. by intros w a w'. Qed.

End Returns.

Ltac returns_step Q Q_refl Q_trans :=
  first
    [ apply (returns_bind Q Q_trans); [|intros ?]
    | apply (returns_ret Q Q_refl)
    | apply (returns_raise Q)
    | match goal with |- returns _ (if ?b then _ else _) => destruct b end ].

(** Inversion of the single steps. *)
Lemma hdr_get_inv off w v w' :
  hdr_get off w = Done v w' → load32 (shm w) off = Some v ∧ w' = w.
Proof. unfold hdr_get. destruct (load32 _ _); [|done]. by intros [= <- <-]. Qed.

Lemma hdr_set_inv off v w u w' :
  hdr_set off v w = Done u w' → ∃ m, store32 (shm w) off v = Some m ∧ w' = set_shm m w.
Proof. unfold hdr_set. destruct (store32 _ _ _); [|done]. intros [= _ <-]. eauto. Qed.

Lemma memcpy_to_inv off src w u w' :
  memcpy_to off src w = Done u w' →
  ∃ m, mem_write (shm w) off src = Some m ∧ w' = set_shm m w.
Proof. unfold memcpy_to. destruct (mem_write _ _ _); [|done]. intros [= _ <-]. eauto. Qed.

Lemma memcpy_from_inv off n w bs w' :
  memcpy_from off n w = Done bs w' → mem_read (shm w) off n = Some bs ∧ w' = w.
Proof. unfold memcpy_from. destruct (mem_read _ _ _); [|done]. by intros [= <- <-]. Qed.

Lemma buffer_prefix_inv data len w p w' :
  buffer_prefix data len w = Done p w' →
  0 <= len <= Z.of_nat (length data) ∧ p = take (Z.to_nat len) data ∧ w' = w.
Proof. unfold buffer_prefix. case_decide; [|done]. by intros [= <- <-]. Qed.

Lemma umod_inv a b w r w' : umod a b w = Done r w' → b ≠ 0 ∧ r = a mod b ∧ w' = w.
Proof. unfold umod. case_decide; [done|]. by intros [= <- <-]. Qed.

Lemma sem_post_inv s w r w' :
  sem_post s w = Done r w' →
  (r = 0 ∧ w' = set_sem s (sem_value s w + 1) w) ∨ (r = -1 ∧ w' = set_errno EOVERFLOW w).
Proof. unfold sem_post. case_decide; intros [= <- <-]; eauto. Qed.

Lemma shm_set_sem s v w : shm (set_sem s v w) = shm w.
Proof. by destruct s. Qed.

Lemma schedule_set_sem s v w : schedule (set_sem s v w) = schedule w.
Proof. by destruct s. Qed.

(** The schedule only loses entries at its front. *)
Lemma schedule_consumed_refl w : schedule_consumed w w.
Proof. unfold schedule_consumed. done. Qed.

Lemma schedule_consumed_trans w1 w2 w3 :
  schedule_consumed w1 w2 → schedule_consumed w2 w3 → schedule_consumed w1 w3.
Proof. unfold schedule_consumed. intros H1 H2. by etrans. Qed.

Lemma suffix_tail {A} (l : list A) : tail l `suffix_of` l.
Proof. destruct l; [done|]. by apply suffix_cons_r. Qed.

Lemma sem_wait_intr_schedule s : returns schedule_consumed (Ring.sem_wait_intr s).
Proof.
  intros w r w'. rewrite sem_wait_intr_eq. unfold wait_result, schedule_consumed.
  pose proof (skip_interrupts_suffix (schedule w)) as Hsk.
  destruct (skip_interrupts (schedule w)) as [|[] rest] eqn:E;
    try case_decide; intros [= <- <-]; rewrite ?schedule_set_sem; simpl;
    try done; try (etrans; [|exact Hsk]; by apply suffix_cons_r).
Qed.

Lemma same_schedule_consumed {A} (c : M A) :
  (∀ w a w', c w = Done a w' → schedule w' = schedule w) → returns schedule_consumed c.
Proof. intros H w a w' Hc. unfold schedule_consumed. by rewrite (H _ _ _ Hc). Qed.

Lemma hdr_get_schedule off : returns schedule_consumed (hdr_get off).
Proof. apply same_schedule_consumed. intros w a w' H. by apply hdr_get_inv in H as [_ ->]. Qed.

Lemma hdr_set_schedule off v : returns schedule_consumed (hdr_set off v).
Proof.
  apply same_schedule_consumed. intros w a w' H. by apply hdr_set_inv in H as (m & _ & ->).
Qed.

Lemma memcpy_to_schedule off src : returns schedule_consumed (memcpy_to off src).
Proof.
  apply same_schedule_consumed. intros w a w' H. by apply memcpy_to_inv in H as (m & _ & ->).
Qed.

Lemma memcpy_from_schedule off n : returns schedule_consumed (memcpy_from off n).
Proof.
  apply same_schedule_consumed. intros w a w' H. by apply memcpy_from_inv in H as [_ ->].
Qed.

Lemma buffer_prefix_schedule data len : returns schedule_consumed (buffer_prefix data len).
Proof.
  apply same_schedule_consumed. intros w a w' H.
  by apply buffer_prefix_inv in H as (_ & _ & ->).
Qed.

Lemma umod_schedule a b : returns schedule_consumed (umod a b).
Proof.
  apply same_schedule_consumed. intros w r w' H. by apply umod_inv in H as (_ & _ & ->).
Qed.

Lemma sem_post_schedule s : returns schedule_consumed (sem_post s).
Proof.
  apply same_schedule_consumed. intros w r w' H.
  apply sem_post_inv in H as [[_ ->]|[_ ->]]; [apply schedule_set_sem|done].
Qed.

Ltac schedule_steps :=
  repeat first
    [ apply sem_wait_intr_schedule | apply hdr_get_schedule | apply hdr_set_schedule
    | apply memcpy_to_schedule | apply memcpy_from_schedule | apply buffer_prefix_schedule
    | apply umod_schedule | apply sem_post_schedule
    | returns_step schedule_consumed schedule_consumed_refl schedule_consumed_trans ].

Lemma write_message_schedule self data len :
  returns schedule_consumed (Ring.write_message self data len).
Proof. unfold Ring.write_message. schedule_steps. Qed.

Lemma read_message_schedule self out :
  returns schedule_consumed (Ring.read_message self out).
Proof. unfold Ring.read_message. schedule_steps. Qed.

Lemma run_schedule producer consumer ops :
  returns schedule_consumed (run producer consumer ops).
Proof.
  induction ops as [|[data len|out] ops IH]; simpl.
  - apply (returns_ret _ schedule_consumed_refl).
  - apply (returns_bind _ schedule_consumed_trans); [apply write_message_schedule|intros ok].
    apply (returns_bind _ schedule_consumed_trans); [apply IH|intros evs].
    apply (returns_ret _ schedule_consumed_refl).
  - apply (returns_bind _ schedule_consumed_trans); [apply read_message_schedule|intros ok].
    apply (returns_bind _ schedule_consumed_trans); [apply IH|intros evs].
    apply (returns_ret _ schedule_consumed_refl).
Qed.

Lemma no_failure_left w w' :
  schedule_consumed w w' → WaitFailed ∉ schedule w → WaitFailed ∉ schedule w'.
Proof. intros Hs Hn Hin. apply Hn. by eapply failure_in_suffix. Qed.

(** ** Delivery in order *)

Lemma run_lengths producer consumer ops :
  ∀ w evs w', run producer consumer ops w = Done evs w' → all_ok evs →
              (length (delivered evs) + length (written evs) = length ops)%nat.
Proof.
  induction ops as [|[data len|out] ops IH]; intros w evs w' Hrun Hok.
  - by injection Hrun as <- <-.
  - simpl in Hrun.
    apply bind_Done_inv in Hrun as (ok & w1 & _ & Hrun).
    apply bind_Done_inv in Hrun as (evs1 & w2 & Hrest & Hret).
    injection Hret as <- <-. inversion Hok as [|?? Hhd Htl]; subst. simpl.
    rewrite Nat.add_succ_r. f_equal. by eapply IH.
  - simpl in Hrun.
    apply bind_Done_inv in Hrun as (r & w1 & _ & Hrun).
    apply bind_Done_inv in Hrun as (evs1 & w2 & Hrest & Hret).
    injection Hret as <- <-. inversion Hok as [|?? Hhd Htl]; subst. simpl in *.
    rewrite Hhd. simpl. f_equal. by eapply IH.
Qed.

(** Every way a sequence of calls ends when the writes respect the slot
    size and no wait fails: each call returns [true] until a write meets
    a full ring or a read an empty one. *)
Lemma run_outcome N S producer consumer ops :
  ring_params N S → slot_size_ producer = S → slot_size_ consumer = S →
  Forall (fits_slot S) ops →
  ∀ hist nread w,
    ring_inv N S hist nread 0 0 w → WaitFailed ∉ schedule w →
    match run producer consumer ops w with
    | Done evs w' => all_ok evs ∧ written evs = requested ops
    | Blocked _ => in_capacity N ops (Z.of_nat (length hist) - nread) = false
    | Fault _ => False
    | Spin => False
    end.
Proof.
  intros Hp Hsp Hsc Hfits.
  induction Hfits as [|[data len|out] ops Hfit Hfits IH]; intros hist nread w Hinv Hsch.
  - simpl. split; [constructor|done].
  - cbn [run in_capacity requested].
    pose proof (write_message_spec N S Hp hist nread 0 0 producer data len w Hsp Hinv)
      as Hspec.
    pose proof (write_message_schedule producer data len w) as Hcons.
    unfold mbind at 1. unfold M_bind at 1.
    destruct (Ring.write_message producer data len w) as [[] w1|s|f|] eqn:Hw.
    + destruct Hspec as (_ & _ & Hinv1).
      pose proof (no_failure_left _ _ (Hcons _ _ eq_refl) Hsch) as Hsch1.
      specialize (IH _ _ _ Hinv1 Hsch1).
      rewrite length_app in IH. simpl in IH.
      replace (Z.of_nat (length hist + 1) - nread)
        with (Z.of_nat (length hist) - nread + 1) in IH by lia.
      unfold mbind, M_bind.
      destruct (run producer consumer ops w1) as [evs w2|s|f|].
      * destruct IH as [Hok Hwr]. simpl. split; [by constructor|by f_equal].
      * rewrite IH. apply andb_false_r.
      * done.
      * done.
    + destruct Hspec as [[?|?] _]; [simpl in Hfit; lia|done].
    + destruct Hspec as (_ & Hfree & _).
      destruct Hinv as [_ _ _ Hf _ _ _]. rewrite bool_decide_false by lia. done.
    + destruct Hspec as [_ Hbad]. simpl in Hfit. apply Hbad. lia.
    + done.
  - cbn [run in_capacity requested].
    pose proof (read_message_spec N S Hp hist nread 0 0 consumer out w Hsc Hinv) as Hspec.
    pose proof (read_message_schedule consumer out w) as Hcons.
    unfold mbind at 1. unfold M_bind at 1.
    destruct (Ring.read_message consumer out w) as [[[] out'] w1|s|f|] eqn:Hr.
    + destruct Hspec as (Hlook & Hinv1).
      pose proof (no_failure_left _ _ (Hcons _ _ eq_refl) Hsch) as Hsch1.
      specialize (IH _ _ _ Hinv1 Hsch1).
      replace (Z.of_nat (length hist) - (nread + 1))
        with (Z.of_nat (length hist) - nread - 1) in IH by lia.
      unfold mbind, M_bind.
      destruct (run producer consumer ops w1) as [evs w2|s|f|].
      * destruct IH as [Hok Hwr]. simpl. split; [by constructor|done].
      * rewrite IH. apply andb_false_r.
      * done.
      * done.
    + by destruct Hspec as (_ & ? & _).
    + destruct Hspec as (_ & Hfilled).
      destruct Hinv as [_ _ _ _ Hf _ _]. rewrite bool_decide_false by lia. done.
    + done.
    + done.
Qed.

(** C1. On a ring of [N >= 1] slots of [S] bytes, take any sequence of
    [write_message] and [read_message] calls in which every write passes
    a payload of at most [S] bytes, and any schedule of the waits in
    which no wait fails (interrupted waits are allowed).  Then every call
    that returns returns [true]; the buffers filled by the reads are, one
    message per read and byte for byte, the first payloads passed to
    [write_message], in the order of the write calls.  No call runs
    outside the region or the caller's buffer, and the sequence stops
    short only by waiting, at a write that meets a full ring or at a read
    that meets an empty one. *)
Theorem fifo_delivery name N S advisory sched ops k r :
  1 <= N → is_u32 N → is_u32 S →
  Forall (fits_slot S) ops → WaitFailed ∉ sched →
  session name N S advisory sched ops k = Some r →
  match r with
  | Done evs w' =>
      all_ok evs ∧
      delivered evs = take (length (delivered evs)) (requested ops) ∧
      (length (delivered evs) + length (requested ops) = length ops)%nat
  | Blocked _ => in_capacity N ops 0 = false
  | Fault _ => False
  | Spin => False
  end.
Proof.
  intros HN1 HN HS Hfits Hsch Hs.
  destruct (session_run _ _ _ _ _ _ _ _ HN HS Hs)
    as (HNmax & producer & consumer & w0 & Hp & Hc & Hinv & Hsch0 & Hrun & _).
  assert (Hpar : ring_params N S) by done.
  pose proof (run_outcome N S producer consumer ops Hpar Hp Hc Hfits [] 0 w0 Hinv
                ltac:(by rewrite Hsch0)) as Hout.
  rewrite Hrun in Hout. destruct r as [evs w'|s|f|]; [|done..].
  destruct Hout as [Hok Hwr]. split; [done|].
  destruct (run_spec N S Hpar producer consumer ops Hp Hc _ _ _ _ _ _ _ Hinv Hrun)
    as (n' & lf' & lr' & _ & _ & Hdel & _).
  rewrite drop_0, app_nil_l, Hwr in Hdel. split; [done|].
  rewrite <- Hwr. by eapply run_lengths.
Qed.

Lemma fifo_delivery_witness :
  (∃ w', session "/ring_t2" 2 8 (Some (1, 1)) [] fill_ops empty_kernel
         = Some (Done fill_events w')) ∧
  all_ok fill_events ∧
  delivered fill_events = take (length (delivered fill_events)) (requested fill_ops) ∧
  (length (delivered fill_events) + length (requested fill_ops) = length fill_ops)%nat.
Proof.
  assert (H : ∃ w', session "/ring_t2" 2 8 (Some (1, 1)) [] fill_ops empty_kernel
                    = Some (Done fill_events w')).
  { eexists. vm_compute. reflexivity. }
  split; [exact H|]. destruct H as [w' H].
  apply (fifo_delivery "/ring_t2" 2 8 (Some (1, 1)) [] fill_ops empty_kernel
           (Done fill_events w'));
    [lia|unfold is_u32, UINT32_MOD; lia|unfold is_u32, UINT32_MOD; lia
    |repeat constructor; simpl; lia|apply not_elem_of_nil|exact H].
Defined.

(** The bytes a call leaves alone. *)
Lemma same_outside_refl P w : same_outside P w w.
Proof. by split. Qed.

Lemma same_outside_trans P w1 w2 w3 :
  same_outside P w1 w2 → same_outside P w2 w3 → same_outside P w1 w3.
Proof.
  intros [Hl1 H1] [Hl2 H2]. split; [congruence|].
  intros i Hi. by rewrite H2, H1.
Qed.

Lemma same_outside_same_shm P w w' : shm w' = shm w → same_outside P w w'.
Proof. intros H. unfold same_outside. by rewrite H. Qed.

Lemma same_outside_write P w off src m :
  mem_write (shm w) off src = Some m →
  (∀ i, off <= i < off + Z.of_nat (length src) → P i) →
  same_outside P w (set_shm m w).
Proof.
  intros Hw HP. split; simpl.
  - by eapply mem_write_length.
  - intros i Hi. rewrite (mem_write_lookup _ _ _ _ i Hw).
    case_decide; [|done]. destruct Hi. by apply HP.
Qed.

Lemma sem_wait_intr_shm s w r w' :
  Ring.sem_wait_intr s w = Done r w' → shm w' = shm w.
Proof.
  rewrite sem_wait_intr_eq. intros H.
  apply wait_result_Done in H as [(_ & _ & H & _)|(_ & (H & _) & _)]; done.
Qed.

Lemma sem_post_shm s w r w' : sem_post s w = Done r w' → shm w' = shm w.
Proof. intros H. apply sem_post_inv in H as [[_ ->]|[_ ->]]; [apply shm_set_sem|done]. Qed.

Ltac inv_bind H :=
  let a := fresh "a" in let w := fresh "w" in let H1 := fresh "Hstep" in
  apply bind_Done_inv in H as (a & w & H1 & H).

Lemma write_message_frame self data len w ok w' :
  Ring.write_message self data len w = Done ok w' →
  if ok then
    ∃ t, load32 (shm w) OFF_tail = Some t ∧
         let slot := slot_offset (slot_size_ self) t in
         same_outside (λ i, OFF_tail <= i < OFF_tail + sizeof_uint32
                            ∨ slot <= i < slot + sizeof_uint32 + len) w w'
  else shm w' = shm w.
Proof.
  unfold Ring.write_message. intros H.
  case_decide as Hlen; [by injection H as <- <-|].
  inv_bind H. apply sem_wait_intr_shm in Hstep as Hshm1.
  case_decide; [injection H as <- <-; done|].
  inv_bind H. apply sem_wait_intr_shm in Hstep0 as Hshm2.
  case_decide; [injection H as <- <-; congruence|].
  inv_bind H. apply hdr_get_inv in Hstep1 as [Ht ->].
  inv_bind H. apply memcpy_to_inv in Hstep1 as (m1 & Hw1 & ->).
  inv_bind H. apply buffer_prefix_inv in Hstep1 as (Hbuf & -> & ->).
  inv_bind H. apply memcpy_to_inv in Hstep1 as (m2 & Hw2 & ->).
  inv_bind H. apply hdr_get_inv in Hstep1 as [Hsc ->].
  inv_bind H. apply umod_inv in Hstep1 as (Hnz & -> & ->).
  inv_bind H. apply hdr_set_inv in Hstep1 as (m3 & Hw3 & ->).
  inv_bind H. apply sem_post_shm in Hstep1 as Hshm3.
  inv_bind H. apply sem_post_shm in Hstep2 as Hshm4.
  injection H as <- <-.
  exists a1. split; [congruence|]. cbv zeta.
  set (P := λ i : Z, OFF_tail <= i < OFF_tail + sizeof_uint32
                    ∨ slot_offset (slot_size_ self) a1 <= i
                      < slot_offset (slot_size_ self) a1 + sizeof_uint32 + len).
  assert (Hlenp : Z.of_nat (length (take (Z.to_nat len) data)) = len).
  { rewrite length_take. lia. }
  apply (same_outside_trans P _ w1); [by apply same_outside_same_shm; congruence|].
  apply (same_outside_trans P _ (set_shm m1 w1)).
  { eapply same_outside_write; [done|]. intros i Hi. right. rewrite length_encode32 in Hi.
    unfold sizeof_uint32. lia. }
  apply (same_outside_trans P _ (set_shm m2 (set_shm m1 w1))).
  { eapply same_outside_write; [done|]. intros i Hi. right. rewrite Hlenp in Hi.
    unfold sizeof_uint32 in *. lia. }
  apply (same_outside_trans P _ (set_shm m3 (set_shm m2 (set_shm m1 w1)))).
  { eapply same_outside_write; [done|]. intros i Hi. left. rewrite length_encode32 in Hi.
    unfold sizeof_uint32. lia. }
  apply same_outside_same_shm. congruence.
Qed.

Lemma read_message_frame self out w ok out' w' :
  Ring.read_message self out w = Done (ok, out') w' →
  same_outside (λ i, OFF_head <= i < OFF_head + sizeof_uint32) w w' ∧
  (ok = false → shm w' = shm w ∧ out' = out).
Proof.
  unfold Ring.read_message. intros H.
  inv_bind H. apply sem_wait_intr_shm in Hstep as Hshm1.
  case_decide; [injection H as <- <- <-; split; [by apply same_outside_same_shm|done]|].
  inv_bind H. apply sem_wait_intr_shm in Hstep0 as Hshm2.
  case_decide;
    [injection H as <- <- <-;
     split; [apply same_outside_same_shm; congruence|intros _; split; congruence]|].
  inv_bind H. apply hdr_get_inv in Hstep1 as [Hh ->].
  inv_bind H. apply memcpy_from_inv in Hstep1 as [Hr1 ->].
  inv_bind H. apply memcpy_from_inv in Hstep1 as [Hr2 ->].
  inv_bind H. apply hdr_get_inv in Hstep1 as [Hsc ->].
  inv_bind H. apply umod_inv in Hstep1 as (Hnz & -> & ->).
  inv_bind H. apply hdr_set_inv in Hstep1 as (m3 & Hw3 & ->).
  inv_bind H. apply sem_post_shm in Hstep1 as Hshm3.
  inv_bind H. apply sem_post_shm in Hstep2 as Hshm4.
  injection H as <- <- <-. split; [|done].
  set (P := λ i : Z, OFF_head <= i < OFF_head + sizeof_uint32).
  apply (same_outside_trans P _ w1); [by apply same_outside_same_shm; congruence|].
  apply (same_outside_trans P _ (set_shm m3 w1)).
  { eapply same_outside_write; [done|]. intros i Hi. rewrite length_encode32 in Hi.
    unfold P, sizeof_uint32. lia. }
  apply same_outside_same_shm. congruence.
Qed.

(** A world whose region is the one a creation with two slots of eight
    bytes leaves. *)
Lemma fresh_region_2_8 :
  ∃ h k1, Ring.create_or_open "/ring_t2" 2 8 true empty_kernel = Ok h k1 ∧
          shm_objs k1 !! "/ring_t2"%string = Some (fresh_region 2 8).
Proof. eexists _, _. split; vm_compute; reflexivity. Qed.

(** X7. A writer changes the tail field and the slot the tail designates
    (its length prefix and the [len] bytes after it) and nothing else;
    when it returns [false] the region is untouched.  A reader changes
    the head field and nothing else, and leaves the caller's buffer
    alone when it returns [false].  The length of the region never
    changes. *)
Theorem ring_calls_frame :
  (∀ self data len w ok w',
     Ring.write_message self data len w = Done ok w' →
     if ok then
       ∃ t, load32 (shm w) OFF_tail = Some t ∧
            let slot := slot_offset (slot_size_ self) t in
            same_outside (λ i, OFF_tail <= i < OFF_tail + sizeof_uint32
                               ∨ slot <= i < slot + sizeof_uint32 + len) w w'
     else shm w' = shm w)
  ∧
  (∀ self out w ok out' w',
     Ring.read_message self out w = Done (ok, out') w' →
     same_outside (λ i, OFF_head <= i < OFF_head + sizeof_uint32) w w' ∧
     (ok = false → shm w' = shm w ∧ out' = out)).
Proof. split; [apply write_message_frame|apply read_message_frame]. Qed.

Lemma ring_calls_frame_witness :
  let self := open_handle "/ring_t2" 76 2 8 true in
  let w := World (fresh_region 2 8) 2 0 1 ENONE [] in
  ∃ w' w'',
    Ring.write_message self [x61] 1 w = Done true w' ∧
    Ring.read_message self [] w' = Done (true, [x61]) w'' ∧
    (∃ t, load32 (shm w) OFF_tail = Some t ∧
          same_outside (λ i, OFF_tail <= i < OFF_tail + sizeof_uint32
                             ∨ slot_offset 8 t <= i < slot_offset 8 t + sizeof_uint32 + 1)
            w w') ∧
    same_outside (λ i, OFF_head <= i < OFF_head + sizeof_uint32) w' w''.
Proof.
  intros self w. eexists _, _.
  split; [vm_compute; reflexivity|]. split; [vm_compute; reflexivity|]. split.
  - apply (proj1 ring_calls_frame self [x61] 1 w true). vm_compute. reflexivity.
  - eapply (proj2 ring_calls_frame self [] _ true [x61]). vm_compute. reflexivity.
Defined.

(** ** Calls that are bound to succeed, and calls that are bound to wait *)

Lemma read_message_succeeds N S hist nread lf lr self out w :
  ring_params N S → slot_size_ self = S →
  ring_inv N S hist nread lf lr w →
  0 < filled w → WaitFailed ∉ schedule w →
  ∃ out' w', Ring.read_message self out w = Done (true, out') w' ∧
             hist !! Z.to_nat nread = Some out' ∧
             ring_inv N S hist (nread + 1) lf lr w'.
Proof.
  intros Hp HS Hinv Hfilled Hsch.
  pose proof (read_message_spec N S Hp hist nread lf lr self out w HS Hinv) as Hspec.
  destruct (Ring.read_message self out w) as [[[] out'] w'|s|f|]; try done.
  - exists out', w'. by destruct Hspec.
  - by destruct Hspec as (_ & ? & _).
  - destruct Hspec as [_ ?]. lia.
Qed.

Lemma write_message_blocks N S hist nread lf lr self data len w :
  ring_params N S → slot_size_ self = S →
  ring_inv N S hist nread lf lr w →
  free w = 0 → WaitFailed ∉ schedule w → len <= S →
  Ring.write_message self data len w = Blocked SemFree.
Proof.
  intros Hp HS Hinv Hfree Hsch Hlen.
  pose proof (write_message_spec N S Hp hist nread lf lr self data len w HS Hinv) as Hspec.
  pose proof (write_message_starved self data len w Hfree) as Hst.
  destruct (Ring.write_message self data len w) as [[] w'|s|f|]; try done.
  - by destruct Hst.
  - destruct Hspec as [[?|?] _]; [lia|done].
  - by rewrite Hst.
Qed.

Lemma read_message_blocks N S hist nread lf lr self out w :
  ring_params N S → slot_size_ self = S →
  ring_inv N S hist nread lf lr w →
  filled w = 0 → WaitFailed ∉ schedule w →
  Ring.read_message self out w = Blocked SemFilled.
Proof.
  intros Hp HS Hinv Hfilled Hsch.
  pose proof (read_message_spec N S Hp hist nread lf lr self out w HS Hinv) as Hspec.
  pose proof (read_message_starved self out w Hfilled) as Hst.
  destruct (Ring.read_message self out w) as [[[] out'] w'|s|f|]; try done.
  - by destruct Hst.
  - by destruct Hspec as (_ & ? & _).
  - by rewrite Hst.
Qed.

Lemma run_app_eq producer consumer ops1 ops2 :
  ∀ w, run producer consumer (ops1 ++ ops2) w
       = match run producer consumer ops1 w with
         | Done evs1 w1 =>
             match run producer consumer ops2 w1 with
             | Done evs2 w2 => Done (evs1 ++ evs2) w2
             | Blocked s => Blocked s
             | Fault f => Fault f
             | Spin => Spin
             end
         | Blocked s => Blocked s
         | Fault f => Fault f
         | Spin => Spin
         end.
Proof.
  induction ops1 as [|[data len|out] ops1 IH]; intros w; simpl.
  - unfold mret, M_ret. by destruct (run producer consumer ops2 w).
  - unfold mbind, M_bind at 1 3.
    destruct (Ring.write_message producer data len w) as [ok w1| | |]; [|done..].
    unfold mbind, M_bind. rewrite IH.
    destruct (run producer consumer ops1 w1) as [evs1 w2| | |]; [|done..].
    unfold mret, M_ret. by destruct (run producer consumer ops2 w2).
  - unfold mbind, M_bind at 1 3.
    destruct (Ring.read_message consumer out w) as [r w1| | |]; [|done..].
    unfold mbind, M_bind. rewrite IH.
    destruct (run producer consumer ops1 w1) as [evs1 w2| | |]; [|done..].
    unfold mret, M_ret. by destruct (run producer consumer ops2 w2).
Qed.

(** X8. Round trip on an empty ring.  When the calls of a session have
    returned and every stored message has been read, a write of [len]
    bytes (at most [slot_size], none included) followed by a read returns
    exactly these bytes, and the two semaphores are back at their
    values; this needs a free token and no failing wait to come. *)
Theorem round_trip name N S advisory sched ops k evs w' data len out :
  1 <= N → is_u32 N → is_u32 S →
  session name N S advisory sched ops k = Some (Done evs w') →
  unread evs = 0 → 0 < free w' → WaitFailed ∉ schedule w' →
  0 <= len <= S → len <= Z.of_nat (length data) →
  ∃ w'',
    session name N S advisory sched (ops ++ [OpWrite data len; OpRead out]) k
    = Some (Done (evs ++ [EvWrite data len true; EvRead true (take (Z.to_nat len) data)]) w'') ∧
    free w'' = free w' ∧ filled w'' = filled w' ∧ mutex w'' = 1.
Proof.
  intros HN1 HN HS Hs Hun Hfree Hsch Hlen Hbuf.
  destruct (session_end _ _ _ _ _ _ _ _ _ HN1 HN HS Hs)
    as (Hpar & producer & consumer & w0 & lf & lr & Hp & Hc & Hall & Hrun & Hinv & _).
  destruct (write_message_succeeds N S _ _ _ _ producer data len w' Hpar Hp Hinv Hfree Hsch
              Hlen Hbuf) as (w1 & Hw & Hinv1).
  pose proof (write_message_schedule _ _ _ _ _ _ Hw) as Hs1.
  assert (Hfilled1 : 0 < filled w1).
  { rewrite (inv_filled _ _ _ _ _ _ _ Hinv1), length_app. simpl.
    pose proof (inv_filled _ _ _ _ _ _ _ Hinv). pose proof (inv_nonneg _ _ _ _ _ _ _ Hinv).
    lia. }
  destruct (read_message_succeeds N S _ _ _ _ consumer out w1 Hpar Hc Hinv1 Hfilled1
              (no_failure_left _ _ Hs1 Hsch)) as (out' & w2 & Hr & Hlook & Hinv2).
  assert (out' = take (Z.to_nat len) data) as ->.
  { unfold unread in Hun.
    rewrite lookup_app_r in Hlook by lia.
    replace (Z.to_nat (Z.of_nat (length (delivered evs))) - length (written evs))%nat
      with 0%nat in Hlook by lia.
    by injection Hlook. }
  exists w2. split.
  - rewrite Hall. f_equal. eapply run_app; [done|]. simpl.
    unfold mbind, M_bind. rewrite Hw. cbv beta iota. rewrite Hr. done.
  - rewrite (inv_free _ _ _ _ _ _ _ Hinv2), (inv_filled _ _ _ _ _ _ _ Hinv2),
      (inv_free _ _ _ _ _ _ _ Hinv), (inv_filled _ _ _ _ _ _ _ Hinv), length_app. simpl.
    split_and!; [lia|lia|apply Hinv2].
Qed.

Lemma round_trip_witness :
  ∃ w' w'',
    session "/ring_t2" 2 8 (Some (1, 1)) [] fill_ops empty_kernel = Some (Done fill_events w') ∧
    session "/ring_t2" 2 8 (Some (1, 1)) [] (fill_ops ++ [OpWrite [] 0; OpRead [x61]])
      empty_kernel
    = Some (Done (fill_events ++ [EvWrite [] 0 true; EvRead true (take (Z.to_nat 0) [])]) w'') ∧
    free w'' = free w' ∧ filled w'' = filled w' ∧ mutex w'' = 1.
Proof.
  assert (H : ∃ w', session "/ring_t2" 2 8 (Some (1, 1)) [] fill_ops empty_kernel
                    = Some (Done fill_events w') ∧ 0 < free w' ∧ schedule w' = []).
  { eexists. split; [vm_compute; reflexivity|]. split; [vm_compute|]; reflexivity. }
  destruct H as (w' & Hs & Hfree & Hsch). exists w'.
  destruct (round_trip "/ring_t2" 2 8 (Some (1, 1)) [] fill_ops empty_kernel fill_events w'
              [] 0 [x61]) as (w'' & H);
    [lia|unfold is_u32, UINT32_MOD; lia..|exact Hs|reflexivity|exact Hfree
    |rewrite Hsch; apply not_elem_of_nil|lia|simpl; lia|].
  exists w''. split; [exact Hs|exact H].
Defined.

(** X9. The two boundaries.  After a session whose calls all succeeded
    and with no failing wait to come: when [N] messages are unread, a
    further write of a fitting payload waits on the free semaphore, and
    when no message is unread, a further read waits on the filled
    semaphore.  Neither call returns [false] in that case. *)
Theorem ring_boundaries name N S advisory sched ops k evs w' :
  1 <= N → is_u32 N → is_u32 S →
  session name N S advisory sched ops k = Some (Done evs w') →
  all_ok evs → WaitFailed ∉ schedule w' →
  (unread evs = N →
   ∀ data len, len <= S →
     session name N S advisory sched (ops ++ [OpWrite data len]) k = Some (Blocked SemFree)) ∧
  (unread evs = 0 →
   ∀ out, session name N S advisory sched (ops ++ [OpRead out]) k = Some (Blocked SemFilled)).
Proof.
  intros HN1 HN HS Hs Hok Hsch.
  destruct (session_end _ _ _ _ _ _ _ _ _ HN1 HN HS Hs)
    as (Hpar & producer & consumer & w0 & lf & lr & Hp & Hc & Hall & Hrun & Hinv & Hlost).
  destruct (Hlost Hok) as [-> ->].
  pose proof (inv_free _ _ _ _ _ _ _ Hinv) as Hfree.
  pose proof (inv_filled _ _ _ _ _ _ _ Hinv) as Hfilled.
  unfold unread. split.
  - intros Hfull data len Hlen. rewrite Hall, run_app_eq, Hrun. simpl.
    unfold mbind, M_bind.
    rewrite (write_message_blocks N S _ _ _ _ producer data len w' Hpar Hp Hinv); [done|lia|done..].
  - intros Hempty out. rewrite Hall, run_app_eq, Hrun. simpl.
    unfold mbind, M_bind.
    rewrite (read_message_blocks N S _ _ _ _ consumer out w' Hpar Hc Hinv); [done|lia|done].
Qed.

Lemma ring_boundaries_witness :
  ∃ w',
    session "/ring_t2" 2 8 (Some (1, 1)) [] fill_ops empty_kernel = Some (Done fill_events w') ∧
    session "/ring_t2" 2 8 (Some (1, 1)) [] (fill_ops ++ [OpRead []]) empty_kernel
    = Some (Blocked SemFilled).
Proof.
  assert (H : ∃ w', session "/ring_t2" 2 8 (Some (1, 1)) [] fill_ops empty_kernel
                    = Some (Done fill_events w') ∧ schedule w' = []).
  { eexists. split; vm_compute; reflexivity. }
  destruct H as (w' & Hs & Hsch). exists w'. split; [exact Hs|].
  apply (ring_boundaries "/ring_t2" 2 8 (Some (1, 1)) [] fill_ops empty_kernel fill_events w');
    [lia|unfold is_u32, UINT32_MOD; lia..|exact Hs|repeat constructor
    |rewrite Hsch; apply not_elem_of_nil|reflexivity].
Defined.

(** X10. After any session whose calls have returned, failed calls
    included: the mutex is free again, both counting semaphores are
    non-negative, together they never exceed [N], and neither exceeds
    what the indices allow (filled at most the number of unread
    messages, free at most the number of empty slots). *)
Theorem counters_bounded name N S advisory sched ops k evs w' :
  1 <= N → is_u32 N → is_u32 S →
  session name N S advisory sched ops k = Some (Done evs w') →
  mutex w' = 1 ∧
  0 <= filled w' <= unread evs ∧
  0 <= free w' <= N - unread evs ∧
  free w' + filled w' <= N ∧
  0 <= unread evs <= N.
Proof.
  intros HN1 HN HS Hs.
  destruct (session_end _ _ _ _ _ _ _ _ _ HN1 HN HS Hs)
    as (Hpar & producer & consumer & w0 & lf & lr & Hp & Hc & Hall & Hrun & Hinv & Hlost).
  destruct Hinv as [_ Hpend [Hlf Hlr] Hfree Hfilled [Hnf Hnfi] Hmutex].
  unfold unread. split; [done|]. lia.
Qed.

Lemma counters_bounded_witness :
  ∃ w',
    session "/ring_t2" 2 8 None [WaitGranted; WaitFailed] [OpWrite [x61] 1] empty_kernel
    = Some (Done [EvWrite [x61] 1 false] w') ∧
    mutex w' = 1 ∧
    0 <= filled w' <= unread [EvWrite [x61] 1 false] ∧
    0 <= free w' <= 2 - unread [EvWrite [x61] 1 false] ∧
    free w' + filled w' <= 2 ∧
    0 <= unread [EvWrite [x61] 1 false] <= 2.
Proof.
  assert (H : ∃ w', session "/ring_t2" 2 8 None [WaitGranted; WaitFailed] [OpWrite [x61] 1]
                      empty_kernel
                    = Some (Done [EvWrite [x61] 1 false] w')).
  { eexists. vm_compute. reflexivity. }
  destruct H as (w' & Hs). exists w'. split; [exact Hs|].
  apply (counters_bounded "/ring_t2" 2 8 None [WaitGranted; WaitFailed] [OpWrite [x61] 1]
           empty_kernel [EvWrite [x61] 1 false] w');
    [lia|unfold is_u32, UINT32_MOD; lia..|exact Hs].
Defined.

(** ** The reading loop of the consumer *)

Lemma consume_spec N S self :
  ring_params N S → slot_size_ self = S →
  ∀ fuel hist nread lf lr b w,
    ring_inv N S hist nread lf lr w →
    WaitFailed ∉ schedule w →
    (Z.to_nat (filled w) < fuel)%nat →
    Consumer.consume fuel self b w
    = (take (Z.to_nat (filled w)) (drop (Z.to_nat nread) hist),
       Consumer.LoopBlocked SemFilled).
Proof.
  intros Hp HS. induction fuel as [|fuel IH]; intros hist nread lf lr b w Hinv Hsch Hfuel;
    [lia|].
  pose proof (inv_nonneg _ _ _ _ _ _ _ Hinv) as [_ Hnn].
  simpl. destruct (decide (filled w = 0)) as [H0|H0].
  - rewrite (read_message_blocks N S _ _ _ _ self b w Hp HS Hinv H0 Hsch).
    rewrite H0. done.
  - destruct (read_message_succeeds N S _ _ _ _ self b w Hp HS Hinv ltac:(lia) Hsch)
      as (out' & w1 & Hr & Hlook & Hinv1).
    rewrite Hr.
    pose proof (read_message_schedule _ _ _ _ _ Hr) as Hs1.
    assert (Hf1 : filled w1 = filled w - 1).
    { rewrite (inv_filled _ _ _ _ _ _ _ Hinv1), (inv_filled _ _ _ _ _ _ _ Hinv). lia. }
    rewrite (IH hist (nread + 1) lf lr out' w1 Hinv1 (no_failure_left _ _ Hs1 Hsch))
      by lia.
    pose proof (inv_pending _ _ _ _ _ _ _ Hinv) as Hpend.
    rewrite Hf1.
    replace (Z.to_nat (filled w)) with (Datatypes.S (Z.to_nat (filled w - 1))) by lia.
    rewrite (drop_S _ _ _ Hlook). simpl.
    replace (Z.to_nat (nread + 1)) with (Datatypes.S (Z.to_nat nread)) by lia. done.
Qed.

(** X11. The consumer's loop [while (read_message(b)) print(b)] after a
    session whose calls all succeeded, with no failing wait to come:
    it prints every unread message, oldest first, and then waits on the
    filled semaphore; it does not leave the loop. *)
Theorem consumer_drains name N S advisory sched ops k evs w' ring b fuel :
  1 <= N → is_u32 N → is_u32 S →
  session name N S advisory sched ops k = Some (Done evs w') →
  all_ok evs → WaitFailed ∉ schedule w' →
  slot_size_ ring = S →
  (Z.to_nat (unread evs) < fuel)%nat →
  Consumer.consume fuel ring b w'
  = (drop (length (delivered evs)) (written evs), Consumer.LoopBlocked SemFilled).
Proof.
  intros HN1 HN HS Hs Hok Hsch Hring Hfuel.
  destruct (session_end _ _ _ _ _ _ _ _ _ HN1 HN HS Hs)
    as (Hpar & producer & consumer & w0 & lf & lr & Hp & Hc & Hall & Hrun & Hinv & Hlost).
  destruct (Hlost Hok) as [-> ->].
  pose proof (inv_filled _ _ _ _ _ _ _ Hinv) as Hfilled.
  assert (Hun : filled w' = unread evs) by (unfold unread; lia).
  rewrite (consume_spec N S ring Hpar Hring fuel _ _ _ _ b w' Hinv Hsch) by lia.
  f_equal. rewrite Nat2Z.id. apply take_ge. rewrite length_drop.
  unfold unread in Hun. lia.
Qed.

Lemma consumer_drains_witness :
  ∃ w',
    session "/ring_t2" 2 8 None [] [OpWrite [x61] 1; OpWrite [x62; x62] 2] empty_kernel
    = Some (Done [EvWrite [x61] 1 true; EvWrite [x62; x62] 2 true] w') ∧
    Consumer.consume 3 (open_handle "/ring_t2" 76 2 8 false) [] w'
    = ([[x61]; [x62; x62]], Consumer.LoopBlocked SemFilled).
Proof.
  assert (H : ∃ w', session "/ring_t2" 2 8 None [] [OpWrite [x61] 1; OpWrite [x62; x62] 2]
                      empty_kernel
                    = Some (Done [EvWrite [x61] 1 true; EvWrite [x62; x62] 2 true] w')
                    ∧ schedule w' = []).
  { eexists. split; vm_compute; reflexivity. }
  destruct H as (w' & Hs & Hsch). exists w'. split; [exact Hs|].
  apply (consumer_drains "/ring_t2" 2 8 None [] [OpWrite [x61] 1; OpWrite [x62; x62] 2]
           empty_kernel [EvWrite [x61] 1 true; EvWrite [x62; x62] 2 true] w');
    [lia|unfold is_u32, UINT32_MOD; lia..|exact Hs|repeat constructor
    |rewrite Hsch; apply not_elem_of_nil|reflexivity|vm_compute; lia].
Defined.

(** ** Interrupted waits *)

Lemma insensitive_ret {A} (a : A) : insensitive (mret a).
Proof. by intros w w' Hq. Qed.

Lemma insensitive_raise {A} e : insensitive (raise (A := A) e).
Proof. by intros w w' Hq. Qed.

Lemma insensitive_bind {A B} (c : M A) (f : A → M B) :
  insensitive c → (∀ a, insensitive (f a)) → insensitive (c ≫= f).
Proof.
  intros Hc Hf w w' Hq. specialize (Hc w w' Hq). unfold mbind, M_bind.
  destruct (c w) as [a w1| | |], (c w') as [a' w1'| | |]; simpl in Hc; try done.
  destruct Hc as [<- Hq1]. by apply Hf.
Qed.

Lemma quiet_shm w w' : quiet w w' → shm w' = shm w.
Proof. by intros [(? & _) _]. Qed.

Lemma quiet_set_shm m w w' : quiet w w' → quiet (set_shm m w) (set_shm m w').
Proof. intros [(? & ? & ? & ?) ?]. by repeat split. Qed.

Lemma quiet_sem_value s w w' : quiet w w' → sem_value s w' = sem_value s w.
Proof. intros [(? & ? & ? & ?) ?]. by destruct s. Qed.

Lemma quiet_set_sem s v w w' : quiet w w' → quiet (set_sem s v w) (set_sem s v w').
Proof. intros [(? & ? & ? & ?) ?]. destruct s; by repeat split. Qed.

Lemma quiet_set_errno e e' w w' : quiet w w' → quiet (set_errno e w) (set_errno e' w').
Proof. intros [(? & ? & ? & ?) ?]. by repeat split. Qed.

Lemma hdr_get_insensitive off : insensitive (hdr_get off).
Proof.
  intros w w' Hq. unfold hdr_get. rewrite (quiet_shm _ _ Hq).
  by destruct (load32 (shm w) off).
Qed.

Lemma hdr_set_insensitive off v : insensitive (hdr_set off v).
Proof.
  intros w w' Hq. unfold hdr_set. rewrite (quiet_shm _ _ Hq).
  destruct (store32 (shm w) off v); [|done]. split; [done|]. by apply quiet_set_shm.
Qed.

Lemma memcpy_to_insensitive off src : insensitive (memcpy_to off src).
Proof.
  intros w w' Hq. unfold memcpy_to. rewrite (quiet_shm _ _ Hq).
  destruct (mem_write (shm w) off src); [|done]. split; [done|]. by apply quiet_set_shm.
Qed.

Lemma memcpy_from_insensitive off n : insensitive (memcpy_from off n).
Proof.
  intros w w' Hq. unfold memcpy_from. rewrite (quiet_shm _ _ Hq).
  by destruct (mem_read (shm w) off n).
Qed.

Lemma buffer_prefix_insensitive data len : insensitive (buffer_prefix data len).
Proof. intros w w' Hq. unfold buffer_prefix. by case_decide. Qed.

Lemma umod_insensitive a b : insensitive (umod a b).
Proof. intros w w' Hq. unfold umod. by case_decide. Qed.

Lemma sem_post_insensitive s : insensitive (sem_post s).
Proof.
  intros w w' Hq. unfold sem_post. rewrite (quiet_sem_value _ _ _ Hq).
  case_decide; (split; [done|]); [by apply quiet_set_sem|by apply quiet_set_errno].
Qed.

Lemma wait_result_insensitive s :
  ∀ sch w w', schedule w = sch → quiet w w' →
    same_outcome (wait_result s w) (wait_result s w').
Proof.
  induction sch as [|e sch IH]; intros w w' Hsch Hq.
  - pose proof (quiet_sem_value s _ _ Hq) as Hv.
    destruct Hq as [Hobj Hq]. rewrite Hsch in Hq. simpl in Hq.
    unfold wait_result. rewrite Hsch, Hq, Hv. simpl.
    case_decide; [|done]. split; [done|]. apply quiet_set_sem.
    destruct Hobj as (? & ? & ? & ?). by repeat split.
  - destruct e.
    + pose proof (quiet_sem_value s _ _ Hq) as Hv.
      destruct Hq as [Hobj Hq]. rewrite Hsch in Hq.
      unfold without_interrupts in Hq. rewrite filter_cons_True in Hq by done.
      unfold wait_result. rewrite Hsch, Hq, Hv. simpl.
      case_decide; [|done]. split; [done|]. apply quiet_set_sem.
      destruct Hobj as (? & ? & ? & ?). by repeat split.
    + rewrite <- (wait_result_interrupted s w sch Hsch).
      apply IH; [done|].
      destruct Hq as [(? & ? & ? & ?) Hq]. rewrite Hsch in Hq.
      unfold without_interrupts in Hq. rewrite filter_cons_False in Hq by (intros H'; by apply H').
      by repeat split.
    + destruct Hq as [Hobj Hq]. rewrite Hsch in Hq.
      unfold without_interrupts in Hq. rewrite filter_cons_True in Hq by done.
      unfold wait_result. rewrite Hsch, Hq. simpl.
      split; [done|]. destruct Hobj as (? & ? & ? & ?). by repeat split.
Qed.

Lemma sem_wait_intr_insensitive s : insensitive (Ring.sem_wait_intr s).
Proof.
  intros w w' Hq. rewrite !sem_wait_intr_eq. by eapply wait_result_insensitive.
Qed.

Ltac insensitive_steps :=
  repeat first
    [ apply sem_wait_intr_insensitive | apply hdr_get_insensitive | apply hdr_set_insensitive
    | apply memcpy_to_insensitive | apply memcpy_from_insensitive
    | apply buffer_prefix_insensitive | apply umod_insensitive | apply sem_post_insensitive
    | apply insensitive_bind; [|intros ?]
    | apply insensitive_ret
    | match goal with |- insensitive (if ?b then _ else _) => destruct b end ].

Lemma write_message_insensitive self data len :
  insensitive (Ring.write_message self data len).
Proof. unfold Ring.write_message. insensitive_steps. Qed.

Lemma read_message_insensitive self out : insensitive (Ring.read_message self out).
Proof. unfold Ring.read_message. insensitive_steps. Qed.

Lemma run_insensitive producer consumer ops : insensitive (run producer consumer ops).
Proof.
  induction ops as [|[data len|out] ops IH]; simpl.
  - apply insensitive_ret.
  - apply insensitive_bind; [apply write_message_insensitive|intros ok].
    apply insensitive_bind; [apply IH|intros evs]. apply insensitive_ret.
  - apply insensitive_bind; [apply read_message_insensitive|intros ok].
    apply insensitive_bind; [apply IH|intros evs]. apply insensitive_ret.
Qed.

(** X12. Interrupted waits are invisible.  Removing every interruption
    from the schedule of the waits changes neither what
    [write_message] and [read_message] return, nor what they leave in the
    region and in the semaphores, nor whether they block; only [errno]
    may differ.  The same holds for whole sessions. *)
Theorem interruptions_invisible :
  (∀ self data len w w',
     quiet w w' →
     same_outcome (Ring.write_message self data len w) (Ring.write_message self data len w'))
  ∧
  (∀ self out w w',
     quiet w w' →
     same_outcome (Ring.read_message self out w) (Ring.read_message self out w'))
  ∧
  (∀ name N S advisory sched ops k,
     match session name N S advisory sched ops k,
           session name N S advisory (without_interrupts sched) ops k with
     | Some o, Some o' => same_outcome o o'
     | None, None => True
     | _, _ => False
     end).
Proof.
  split; [|split].
  - intros self data len. apply write_message_insensitive.
  - intros self out. apply read_message_insensitive.
  - intros name N S advisory sched ops k. unfold session.
    destruct (Ring.create_or_open name N S true k) as [owner k1| |]; [|done..].
    assert (Hw : ∀ h k2 producer consumer,
              match run producer consumer ops <$> world_of h sched k2,
                    run producer consumer ops <$> world_of h (without_interrupts sched) k2 with
              | Some o, Some o' => same_outcome o o'
              | None, None => True
              | _, _ => False
              end).
    { intros h k2 producer consumer. unfold world_of.
      destruct (shm_objs k2 !! shm_name_ h) as [m|]; [|done]. simpl.
      destruct (sem_free_ h ≫= _) as [fr|]; [|done]. simpl.
      destruct (sem_filled_ h ≫= _) as [fi|]; [|done]. simpl.
      destruct (sem_mutex_ h ≫= _) as [mu|]; [|done]. simpl.
      apply run_insensitive. by repeat split. }
    destruct advisory as [[n s]|]; [|apply Hw].
    destruct (Ring.create_or_open name n s false k1) as [attachee k2| |]; [|done..].
    apply Hw.
Qed.

Lemma interruptions_invisible_witness :
  let self := open_handle "/ring_t2" 76 2 8 true in
  let w := World (fresh_region 2 8) 2 0 1 ENONE [WaitInterrupted; WaitGranted; WaitInterrupted] in
  let w' := World (fresh_region 2 8) 2 0 1 ENONE [WaitGranted] in
  quiet w w' ∧
  same_outcome (Ring.write_message self [x61] 1 w) (Ring.write_message self [x61] 1 w').
Proof.
  intros self w w'.
  assert (Hq : quiet w w') by (vm_compute; repeat split; reflexivity).
  split; [exact Hq|].
  apply (proj1 interruptions_invisible self [x61] 1 w w' Hq).
Defined.

(** ** The inverted test of the unannotated copy, in general *)

Lemma wait_other_sem s s' w r w' :
  s ≠ s' → wait_result s w = Done r w' → sem_value s' w' = sem_value s' w.
Proof.
  intros Hne H. apply wait_result_Done in H as [(_ & _ & _ & w1 & Hobj & ->)|(_ & Hobj & _)];
    destruct Hobj as (? & ? & ? & ?); destruct s, s'; done.
Qed.

Lemma sem_post_other_sem s s' w r w' :
  s ≠ s' → sem_post s w = Done r w' → sem_value s' w' = sem_value s' w.
Proof.
  intros Hne H. apply sem_post_inv in H as [[_ ->]|[_ ->]]; destruct s, s'; done.
Qed.

Lemma sem_value_set_shm s m w : sem_value s (set_shm m w) = sem_value s w.
Proof. by destruct s. Qed.

Lemma plain_write_message_inv self data len w ok w' :
  Plain.write_message self data len w = Done ok w' →
  if ok then WaitFailed ∈ schedule w ∧ free w' = free w
  else shm w' = shm w ∧ filled w' = filled w ∧ mutex w' = mutex w ∧
       (len <= slot_size_ self → 0 < free w ∧ free w' = free w - 1).
Proof.
  unfold Plain.write_message. intros H.
  case_decide as Hlen; [injection H as <- <-; split_and!; try done; lia|].
  inv_bind H. rewrite plain_sem_wait_intr_eq in Hstep.
  destruct (wait_result_cases SemFree w)
    as [(w1 & E & Hobj & Hin)|[(Hpos & w1 & Hobj & _ & E)|(_ & E)]];
    rewrite E in Hstep; [| |done]; injection Hstep as <- <-.
  - change (Plain.lnot (-1)) with false in H. cbv iota in H.
    inv_bind H. rewrite plain_sem_wait_intr_eq in Hstep.
    apply (wait_other_sem SemMutex SemFree) in Hstep as Hf1; [|done].
    inv_bind H. apply hdr_get_inv in Hstep0 as [_ ->].
    inv_bind H. apply memcpy_to_inv in Hstep0 as (m1 & _ & ->).
    inv_bind H. apply buffer_prefix_inv in Hstep0 as (_ & -> & ->).
    inv_bind H. apply memcpy_to_inv in Hstep0 as (m2 & _ & ->).
    inv_bind H. apply hdr_get_inv in Hstep0 as [_ ->].
    inv_bind H. apply umod_inv in Hstep0 as (_ & -> & ->).
    inv_bind H. apply hdr_set_inv in Hstep0 as (m3 & _ & ->).
    inv_bind H. apply (sem_post_other_sem SemMutex SemFree) in Hstep0 as Hf2; [|done].
    inv_bind H. apply (sem_post_other_sem SemFilled SemFree) in Hstep1 as Hf3; [|done].
    injection H as <- <-. split; [done|].
    destruct Hobj as (_ & Hfree & _). simpl in *. congruence.
  - change (Plain.lnot 0) with true in H. cbv iota in H. injection H as <- <-.
    destruct Hobj as (? & ? & ? & ?). simpl in *. split_and!; try done; lia.
Qed.

Lemma plain_read_message_inv self out w ok out' w' :
  Plain.read_message self out w = Done (ok, out') w' →
  if ok then WaitFailed ∈ schedule w ∧ filled w' = filled w
  else shm w' = shm w ∧ out' = out ∧ free w' = free w ∧ mutex w' = mutex w ∧
       0 < filled w ∧ filled w' = filled w - 1.
Proof.
  unfold Plain.read_message. intros H.
  inv_bind H. rewrite plain_sem_wait_intr_eq in Hstep.
  destruct (wait_result_cases SemFilled w)
    as [(w1 & E & Hobj & Hin)|[(Hpos & w1 & Hobj & _ & E)|(_ & E)]];
    rewrite E in Hstep; [| |done]; injection Hstep as <- <-.
  - change (Plain.lnot (-1)) with false in H. cbv iota in H.
    inv_bind H. rewrite plain_sem_wait_intr_eq in Hstep.
    apply (wait_other_sem SemMutex SemFilled) in Hstep as Hf1; [|done].
    inv_bind H. apply hdr_get_inv in Hstep0 as [_ ->].
    inv_bind H. apply memcpy_from_inv in Hstep0 as [_ ->].
    inv_bind H. apply memcpy_from_inv in Hstep0 as [_ ->].
    inv_bind H. apply hdr_get_inv in Hstep0 as [_ ->].
    inv_bind H. apply umod_inv in Hstep0 as (_ & -> & ->).
    inv_bind H. apply hdr_set_inv in Hstep0 as (m3 & _ & ->).
    inv_bind H. apply (sem_post_other_sem SemMutex SemFilled) in Hstep0 as Hf2; [|done].
    inv_bind H. apply (sem_post_other_sem SemFree SemFilled) in Hstep1 as Hf3; [|done].
    injection H as <- <- <-. split; [done|].
    destruct Hobj as (_ & _ & Hfilled & _). simpl in *. congruence.
  - change (Plain.lnot 0) with true in H. cbv iota in H. injection H as <- <- <-.
    destruct Hobj as (? & ? & ? & ?). simpl in *. split_and!; try done; lia.
Qed.

(** X13. In the unannotated copy the test on the first wait is inverted,
    for every state and every payload.  [write_message] returns [true]
    only when the schedule of its waits holds a failing wait, and then
    the free semaphore is as before; whenever it returns [false] the region, the
    filled semaphore and the mutex are as before, and for a fitting
    payload a free token is gone although nothing was stored.
    [read_message] behaves in the same way on the filled semaphore. *)
Theorem plain_calls_inverted :
  (∀ self data len w ok w',
     Plain.write_message self data len w = Done ok w' →
     if ok then WaitFailed ∈ schedule w ∧ free w' = free w
     else shm w' = shm w ∧ filled w' = filled w ∧ mutex w' = mutex w ∧
          (len <= slot_size_ self → 0 < free w ∧ free w' = free w - 1))
  ∧
  (∀ self out w ok out' w',
     Plain.read_message self out w = Done (ok, out') w' →
     if ok then WaitFailed ∈ schedule w ∧ filled w' = filled w
     else shm w' = shm w ∧ out' = out ∧ free w' = free w ∧ mutex w' = mutex w ∧
          0 < filled w ∧ filled w' = filled w - 1).
Proof. split; [apply plain_write_message_inv|apply plain_read_message_inv]. Qed.

Lemma plain_calls_inverted_witness :
  let self := open_handle "/test_ring" 324 4 64 true in
  let w := World (fresh_region 4 64) 4 0 1 ENONE [] in
  ∃ w',
    Plain.write_message self hello 5 w = Done false w' ∧
    shm w' = shm w ∧ filled w' = filled w ∧ mutex w' = mutex w ∧
    (5 <= slot_size_ self → 0 < free w ∧ free w' = free w - 1).
Proof.
  intros self w. eexists. split; [vm_compute; reflexivity|].
  apply (proj1 plain_calls_inverted self hello 5 w false). vm_compute. reflexivity.
Defined.

(** ** Rounds of the daemon *)

Lemma serve_register_round key addr ring registry :
  is_token key → is_token addr → is_token ring →
  (String.length (Client.register_request key addr ring) < Daemon.BUF_SIZE)%nat →
  Daemon.serve (Some (Client.register_request key addr ring)) registry
  = let vec := default [] (registry !! key) in
    let vec' := vec ++ [ {| Daemon.sock := addr; Daemon.shm := ring |} ] in
    {| Daemon.registry_after := <[key := vec']> registry;
       Daemon.sent := Daemon.reply_existing key addr vec
                      ++ Daemon.notify_peers key addr ring vec';
       Daemon.logged := [("REGISTER: " +:+ key +:+ " " +:+ addr +:+ " " +:+ ring)%string] |}.
Proof.
  intros Hk Ha Hr Hlen. rewrite serve_register by done. by apply on_register_tokens.
Qed.

Lemma on_register_registry iss registry :
  ∃ key ci,
    Daemon.registry_after (Daemon.on_register iss registry)
    = <[key := default [] (registry !! key) ++ [ci]]> registry ∧
    Daemon.sent (Daemon.on_register iss registry)
    = Daemon.reply_existing key (Daemon.sock ci) (default [] (registry !! key))
      ++ Daemon.notify_peers key (Daemon.sock ci) (Daemon.shm ci)
           (default [] (registry !! key) ++ [ci]).
Proof.
  unfold Daemon.on_register.
  destruct (Daemon.extract iss) as [key iss1].
  destruct (Daemon.extract iss1) as [client_sock iss2].
  destruct (Daemon.extract iss2) as [shm_name iss3].
  by exists key, {| Daemon.sock := client_sock; Daemon.shm := shm_name |}.
Qed.

Lemma serve_cases received registry :
  (Daemon.registry_after (Daemon.serve received registry) = registry ∧
   Daemon.sent (Daemon.serve received registry) = [])
  ∨ ∃ iss, Daemon.serve received registry = Daemon.on_register iss registry.
Proof.
  unfold Daemon.serve. destruct received as [dgram|]; [|by left].
  case_decide; [by left|].
  destruct (Daemon.extract _) as [cmd iss]. case_decide; [|by left].
  right. by exists iss.
Qed.

(** X14. The daemon never forgets, and a round adds at most one record.
    Whatever [recvfrom] delivers, the registry after the round is either
    the registry before it, or the registry before it with one record
    appended to the list of one key (a key without a list gets the list of
    that one record); the lists of all other keys, present or not, are as
    they were.  A well-formed REGISTER request always takes the second
    case, with the key, the address and the ring name of the request. *)
Theorem registry_only_grows received registry :
  let registry' := Daemon.registry_after (Daemon.serve received registry) in
  (registry' = registry ∨
   ∃ key ci, registry' = <[key := default [] (registry !! key) ++ [ci]]> registry) ∧
  (∀ key vec, registry !! key = Some vec →
     ∃ more, registry' !! key = Some (vec ++ more) ∧ (length more <= 1)%nat) ∧
  (∀ key1 key2, registry' !! key1 ≠ registry !! key1 →
                registry' !! key2 ≠ registry !! key2 → key1 = key2) ∧
  (∀ key addr ring,
     is_token key → is_token addr → is_token ring →
     (String.length (Client.register_request key addr ring) < Daemon.BUF_SIZE)%nat →
     received = Some (Client.register_request key addr ring) →
     registry'
     = <[key := default [] (registry !! key)
                ++ [ {| Daemon.sock := addr; Daemon.shm := ring |} ]]> registry).
Proof.
  intros registry'.
  assert (Hcases : registry' = registry ∨
            ∃ key ci, registry' = <[key := default [] (registry !! key) ++ [ci]]> registry).
  { subst registry'. destruct (serve_cases received registry) as [[-> _]|[iss ->]].
    - by left.
    - right. destruct (on_register_registry iss registry) as (key & ci & -> & _).
      by exists key, ci. }
  split; [exact Hcases|]. split; [|split].
  - intros key vec Hvec. destruct Hcases as [->|(key' & ci & ->)].
    + exists []. rewrite app_nil_r. split; [done|simpl; lia].
    + destruct (decide (key' = key)) as [->|Hne].
      * exists [ci]. rewrite lookup_insert_eq, Hvec. split; [done|simpl; lia].
      * exists []. rewrite lookup_insert_ne, app_nil_r by done. split; [done|simpl; lia].
  - intros key1 key2 H1 H2. destruct Hcases as [->|(key' & ci & Heq)]; [done|].
    rewrite Heq in H1, H2.
    destruct (decide (key' = key1)) as [<-|Hne1]; last first.
    { by rewrite lookup_insert_ne in H1. }
    destruct (decide (key' = key2)) as [<-|Hne2]; [done|].
    by rewrite lookup_insert_ne in H2.
  - intros key addr ring Hk Ha Hr Hlen ->. subst registry'.
    by rewrite serve_register_round.
Qed.

Lemma registry_only_grows_witness :
  Daemon.registry_after
    (Daemon.serve (Some (Client.register_request "demo" "/tmp/ipc_consumer_9.sock" "-"))
       demo_registry)
  = <[ "demo"%string :=
         default [] (demo_registry !! "demo"%string)
         ++ [ {| Daemon.sock := "/tmp/ipc_consumer_9.sock"; Daemon.shm := "-" |} ]]>
      demo_registry.
Proof.
  apply (registry_only_grows
           (Some (Client.register_request "demo" "/tmp/ipc_consumer_9.sock" "-"))
           demo_registry).
  - split; [discriminate|split; reflexivity].
  - split; [discriminate|split; reflexivity].
  - split; [discriminate|split; reflexivity].
  - vm_compute. lia.
  - reflexivity.
Defined.

(** X15. Rendezvous.  When a producer registers ring [ring] under a key
    and a consumer then registers under the same key from another
    address, the second round sends the producer's record (with the ring
    name) to the consumer and the consumer's record to the producer, and
    both records are in the registry, the producer's first. *)
Theorem rendezvous key p_addr ring c_addr registry :
  is_token key → is_token p_addr → is_token ring → is_token c_addr →
  (String.length (Client.register_request key p_addr ring) < Daemon.BUF_SIZE)%nat →
  (String.length (Client.register_request key c_addr "-") < Daemon.BUF_SIZE)%nat →
  p_addr ≠ c_addr →
  let r1 := Daemon.serve (Some (Client.register_request key p_addr ring)) registry in
  let r2 := Daemon.serve (Some (Client.register_request key c_addr "-"))
              (Daemon.registry_after r1) in
  {| Daemon.dest := Daemon.sun_path c_addr;
     Daemon.payload := Daemon.peer_record key p_addr ring |} ∈ Daemon.sent r2 ∧
  {| Daemon.dest := Daemon.sun_path p_addr;
     Daemon.payload := Daemon.peer_record key c_addr "-" |} ∈ Daemon.sent r2 ∧
  Daemon.registry_after r2 !! key
  = Some (default [] (registry !! key)
          ++ [ {| Daemon.sock := p_addr; Daemon.shm := ring |};
               {| Daemon.sock := c_addr; Daemon.shm := "-" |} ]).
Proof.
  intros Hk Hp Hr Hc Hl1 Hl2 Hne r1 r2.
  assert (Hdash : is_token "-") by done.
  unfold r2, r1. rewrite (serve_register_round key p_addr ring) by done. cbv zeta.
  rewrite (serve_register_round key c_addr "-") by done. cbv zeta.
  cbn [Daemon.registry_after Daemon.sent].
  set (p := {| Daemon.sock := p_addr; Daemon.shm := ring |}).
  assert (Hex : default [] (<[key := default [] (registry !! key) ++ [p]]> registry !! key)
                = default [] (registry !! key) ++ [p]) by (by rewrite lookup_insert_eq).
  rewrite Hex. split_and!.
  - apply elem_of_app. left. rewrite reply_existing_map.
    apply list_elem_of_fmap. exists p. split; [reflexivity|].
    apply elem_of_app. right. by apply list_elem_of_singleton.
  - apply elem_of_app. right. rewrite !notify_peers_app.
    apply elem_of_app. left. apply elem_of_app. right. simpl.
    rewrite decide_False by done. apply list_elem_of_here.
  - rewrite lookup_insert_eq, <- app_assoc. done.
Qed.

Lemma rendezvous_witness :
  let r1 := Daemon.serve (Some (Client.register_request "demo" "/tmp/ipc_producer_7.sock"
                                  "/ipc_demo_7")) ∅ in
  let r2 := Daemon.serve (Some (Client.register_request "demo" "/tmp/ipc_consumer_9.sock" "-"))
              (Daemon.registry_after r1) in
  {| Daemon.dest := Daemon.sun_path "/tmp/ipc_consumer_9.sock";
     Daemon.payload := Daemon.peer_record "demo" "/tmp/ipc_producer_7.sock" "/ipc_demo_7" |}
    ∈ Daemon.sent r2 ∧
  {| Daemon.dest := Daemon.sun_path "/tmp/ipc_producer_7.sock";
     Daemon.payload := Daemon.peer_record "demo" "/tmp/ipc_consumer_9.sock" "-" |}
    ∈ Daemon.sent r2.
Proof.
  intros r1 r2.
  destruct (rendezvous "demo" "/tmp/ipc_producer_7.sock" "/ipc_demo_7"
              "/tmp/ipc_consumer_9.sock" ∅) as (H1 & H2 & _);
    [done|done|done|done|vm_compute; lia|vm_compute; lia|done|].
  split; [exact H1|exact H2].
Defined.

Lemma substring_0_length s : ∀ n, (String.length (String.substring 0 n s) <= n)%nat.
Proof.
  induction s as [|c s IH]; intros [|n]; simpl; try lia.
  specialize (IH n). lia.
Qed.

Lemma sun_path_length s : (String.length (Daemon.sun_path s) < Daemon.SUN_PATH_SIZE)%nat.
Proof.
  unfold Daemon.sun_path, Daemon.SUN_PATH_SIZE.
  pose proof (substring_0_length (Daemon.c_string s) (108 - 1)). simpl in *. lia.
Qed.

(** X16. Whatever datagram arrives, everything the daemon sends in that
    round is a PEER record, and each destination path is shorter than
    [sun_path], as [strncpy] into the zeroed address leaves it. *)
Theorem daemon_sends_peer_records received registry :
  Forall (λ d, (String.length (Daemon.dest d) < Daemon.SUN_PATH_SIZE)%nat ∧
               ∃ key peer_sock peer_shm,
                 Daemon.payload d = Daemon.peer_record key peer_sock peer_shm)
    (Daemon.sent (Daemon.serve received registry)).
Proof.
  destruct (serve_cases received registry) as [[_ ->]|[iss ->]]; [done|].
  destruct (on_register_registry iss registry) as (key & ci & _ & ->).
  rewrite reply_existing_map, notify_peers_filter.
  apply Forall_app. split; apply Forall_fmap, Forall_forall; intros p _; simpl;
    (split; [apply sun_path_length|eauto]).
Qed.

(** X17. A REGISTER request without its last fields is not refused: the
    missing fields are read as empty strings.  With the key alone, a
    record with an empty address and an empty ring name is stored under
    the key, and the replies about the peers already registered are
    addressed to the empty path. *)
Theorem register_without_address key registry :
  is_token key →
  (String.length ("REGISTER " +:+ key) < Daemon.BUF_SIZE)%nat →
  let existing := default [] (registry !! key) in
  let r := Daemon.serve (Some ("REGISTER " +:+ key)%string) registry in
  Daemon.registry_after r
  = <[key := existing ++ [ {| Daemon.sock := ""; Daemon.shm := "" |} ]]> registry ∧
  Daemon.sent r
  = ((λ p, {| Daemon.dest := "";
              Daemon.payload := Daemon.peer_record key (Daemon.sock p) (Daemon.shm p) |})
     <$> existing)
    ++ ((λ p, {| Daemon.dest := Daemon.sun_path (Daemon.sock p);
                 Daemon.payload := Daemon.peer_record key "" "" |})
        <$> filter (λ p, Daemon.sock p ≠ ""%string) existing).
Proof.
  intros Hk Hlen existing r. unfold r, Daemon.serve.
  rewrite substring_0_all by (unfold Daemon.BUF_SIZE in *; lia).
  rewrite decide_False; last first.
  { rewrite string_length_app. simpl. lia. }
  rewrite c_string_nul_free; last first.
  { destruct Hk as (_ & Hk & _). rewrite nul_free_app, Hk. done. }
  change ("REGISTER " +:+ key)%string with ("REGISTER" +:+ String " " key)%string.
  rewrite (extract_token "REGISTER"); [|done|done].
  rewrite decide_True by done. unfold Daemon.on_register.
  assert (Hex : Daemon.extract key = (key, EmptyString)).
  { rewrite <- (string_app_nil_r key) at 1. by apply extract_token. }
  rewrite extract_blank, Hex. cbv beta iota zeta.
  change (Daemon.extract "") with (EmptyString, EmptyString). cbv beta iota zeta.
  change (Daemon.extract "") with (EmptyString, EmptyString). cbv beta iota zeta.
  cbn [Daemon.registry_after Daemon.sent].
  split; [done|].
  rewrite reply_existing_map, notify_peers_app, notify_peers_filter. simpl.
  rewrite app_nil_r. done.
Qed.

Lemma register_without_address_witness :
  let r := Daemon.serve (Some "REGISTER demo"%string) demo_registry in
  Daemon.registry_after r
  = <[ "demo"%string := [demo_producer; {| Daemon.sock := ""; Daemon.shm := "" |}] ]>
      demo_registry ∧
  Daemon.sent r
  = [ {| Daemon.dest := "";
         Daemon.payload := "PEER demo /tmp/ipc_producer_7.sock /ipc_demo_7" |};
      {| Daemon.dest := "/tmp/ipc_producer_7.sock"; Daemon.payload := "PEER demo  " |} ].
Proof.
  intros r.
  destruct (register_without_address "demo" demo_registry) as [H1 H2];
    [done|vm_compute; lia|].
  split; [exact H1|exact H2].
Defined.

(** X18. No registration is recognised as a repetition.  The first
    registration under a new key sends nothing; when the same client
    sends the same request again it is recorded a second time and is
    sent its own first record, while the notification loop skips both
    entries. *)
Theorem register_twice key addr ring registry :
  is_token key → is_token addr → is_token ring →
  (String.length (Client.register_request key addr ring) < Daemon.BUF_SIZE)%nat →
  registry !! key = None →
  let ci := {| Daemon.sock := addr; Daemon.shm := ring |} in
  let r1 := Daemon.serve (Some (Client.register_request key addr ring)) registry in
  let r2 := Daemon.serve (Some (Client.register_request key addr ring))
              (Daemon.registry_after r1) in
  Daemon.sent r1 = [] ∧
  Daemon.registry_after r1 !! key = Some [ci] ∧
  Daemon.sent r2
  = [ {| Daemon.dest := Daemon.sun_path addr;
         Daemon.payload := Daemon.peer_record key addr ring |} ] ∧
  Daemon.registry_after r2 !! key = Some [ci; ci].
Proof.
  intros Hk Ha Hr Hlen Hnew ci r1 r2.
  unfold r2, r1. rewrite (serve_register_round key addr ring registry) by done. cbv zeta.
  rewrite (serve_register_round key addr ring) by done. cbv zeta.
  cbn [Daemon.registry_after Daemon.sent].
  rewrite Hnew, !lookup_insert_eq. simpl.
  rewrite !decide_True by done. done.
Qed.

Lemma register_twice_witness :
  let req := Client.register_request "demo" "/tmp/ipc_producer_7.sock" "/ipc_demo_7" in
  let r1 := Daemon.serve (Some req) ∅ in
  let r2 := Daemon.serve (Some req) (Daemon.registry_after r1) in
  Daemon.sent r1 = [] ∧
  Daemon.registry_after r1 !! "demo"%string = Some [demo_producer] ∧
  Daemon.sent r2
  = [ {| Daemon.dest := Daemon.sun_path "/tmp/ipc_producer_7.sock";
         Daemon.payload := Daemon.peer_record "demo" "/tmp/ipc_producer_7.sock"
                             "/ipc_demo_7" |} ] ∧
  Daemon.registry_after r2 !! "demo"%string = Some [demo_producer; demo_producer].
Proof.
  intros req r1 r2.
  apply (register_twice "demo" "/tmp/ipc_producer_7.sock" "/ipc_demo_7" ∅);
    [done|done|done|vm_compute; lia|done].
Defined.

(** ** The consumer's reaction to a PEER record *)

Lemma ring_of_peer_record key peer_sock peer_shm :
  is_token key → is_token peer_sock → is_token peer_shm →
  (String.length (Daemon.peer_record key peer_sock peer_shm) < Daemon.BUF_SIZE)%nat →
  Consumer.ring_of_datagram (Some (Daemon.peer_record key peer_sock peer_shm))
  = if decide (peer_shm = "-"%string) then None else Some peer_shm.
Proof.
  intros Hk Ha Hr Hlen. unfold Consumer.ring_of_datagram.
  rewrite substring_0_all by (unfold Daemon.BUF_SIZE in *; lia).
  unfold Daemon.peer_record in *.
  rewrite decide_False; last first.
  { rewrite string_length_app. simpl. lia. }
  rewrite c_string_nul_free; last first.
  { destruct Hk as (_ & Hk & _), Ha as (_ & Ha & _), Hr as (_ & Hr & _).
    rewrite !nul_free_app, Hk, Ha, Hr. done. }
  change ("PEER " +:+ key +:+ " " +:+ peer_sock +:+ " " +:+ peer_shm)%string
    with ("PEER" +:+ String " " (key +:+ String " " (peer_sock +:+ String " " peer_shm)))%string.
  rewrite (extract_token "PEER"); [|done|done].
  rewrite decide_True by done.
  rewrite extract_blank, (extract_token key) by done.
  rewrite extract_blank, (extract_token peer_sock) by done.
  assert (Hex : Daemon.extract peer_shm = (peer_shm, EmptyString)).
  { rewrite <- (string_app_nil_r peer_shm) at 1. by apply extract_token. }
  rewrite extract_blank, Hex.
  destruct (decide (peer_shm = "-"%string)) as [->|Hne].
  - done.
  - by rewrite decide_True.
Qed.

Lemma open_ring_eq n ring k :
  Consumer.open_ring (Datatypes.S n) ring k
  = match Ring.create_or_open ring 1 1 false k with
    | Ok h k' => Ok (Some h) k'
    | Err _ _ => Ok None k
    | Crash f => Crash f
    end.
Proof.
  pose proof (attach_readonly ring 1 1 k) as Hro.
  induction n as [|n IH].
  - change (Consumer.open_ring 1 ring k)
      with (match Ring.create_or_open ring 1 1 false k with
            | Ok h k' => Ok (Some h) k'
            | Err _ k' => Ok None k'
            | Crash f => Crash f
            end).
    destruct (Ring.create_or_open ring 1 1 false k) as [h k'|d k'|f]; [done| |done].
    by subst k'.
  - change (Consumer.open_ring (Datatypes.S (Datatypes.S n)) ring k)
      with (match Ring.create_or_open ring 1 1 false k with
            | Ok h k' => Ok (Some h) k'
            | Err _ k' => Consumer.open_ring (Datatypes.S n) ring k'
            | Crash f => Crash f
            end).
    destruct (Ring.create_or_open ring 1 1 false k) as [h k'|d k'|f] eqn:E; [done| |done].
    subst k'. exact IH.
Qed.

(** X19. From the daemon's PEER record to the consumer's handle.  The
    consumer reads the ring name back from a PEER record, unless it is
    "-".  For a ring that its owner created with [N] slots of [S] bytes,
    the consumer's attach with the advisory geometry (1, 1) then yields a
    handle with the owner's geometry, provided the region has the 57
    bytes that one slot of one byte needs; for a smaller ring all twenty
    attempts fail and the consumer is left without a handle. *)
Theorem consumer_follows_peer_record key p_addr ring N S k h k1 :
  is_token key → is_token p_addr → is_token ring → ring ≠ "-"%string →
  (String.length (Daemon.peer_record key p_addr ring) < Daemon.BUF_SIZE)%nat →
  is_u32 N → is_u32 S →
  Ring.create_or_open ring N S true k = Ok h k1 →
  Consumer.ring_of_datagram (Some (Daemon.peer_record key p_addr ring)) = Some ring ∧
  Consumer.open_ring 20 ring k1
  = if decide (total_size N S < 57) then Ok None k1
    else Ok (Some (open_handle ring (total_size N S) N S false)) k1.
Proof.
  intros Hk Hp Hr Hne Hlen HN HS Hc. split.
  - rewrite ring_of_peer_record by done. by rewrite decide_False.
  - destruct (created_kernel _ _ _ _ _ _ HN HS Hc) as (m & Hm & Hreg & Hlenm & Hlt & Hpres).
    rewrite open_ring_eq.
    rewrite (create_or_open_attach ring 1 1 k1 m N S [] 0 Hm Hreg Hpres).
    assert (Husz : usize (Z.of_nat (length m)) = total_size N S).
    { rewrite Hlenm. unfold usize, SIZE_MOD. apply Z.mod_small.
      change (2 ^ 63) with 9223372036854775808 in Hlt.
      change (2 ^ 64) with 18446744073709551616.
      unfold total_size, sizeof_RingHeader, sizeof_uint32, is_u32 in *. nia. }
    rewrite Husz, Hlenm. change (computed_map_size 1 1) with 57.
    by destruct (decide (total_size N S < 57)).
Qed.

Lemma consumer_follows_peer_record_witness :
  ∃ h k1,
    Ring.create_or_open "/ring_t2" 2 8 true empty_kernel = Ok h k1 ∧
    Consumer.ring_of_datagram
      (Some (Daemon.peer_record "demo" "/tmp/ipc_producer_7.sock" "/ring_t2"))
    = Some "/ring_t2"%string ∧
    Consumer.open_ring 20 "/ring_t2" k1
    = if decide (total_size 2 8 < 57) then Ok None k1
      else Ok (Some (open_handle "/ring_t2" (total_size 2 8) 2 8 false)) k1.
Proof.
  assert (H : ∃ h k1, Ring.create_or_open "/ring_t2" 2 8 true empty_kernel = Ok h k1).
  { eexists _, _. vm_compute. reflexivity. }
  destruct H as (h & k1 & Hc). exists h, k1. split; [exact Hc|].
  apply (consumer_follows_peer_record "demo" "/tmp/ipc_producer_7.sock" "/ring_t2"
           2 8 empty_kernel h k1);
    [split; [discriminate|split; reflexivity]|split; [discriminate|split; reflexivity]
    |split; [discriminate|split; reflexivity]|discriminate|vm_compute; lia
    |unfold is_u32, UINT32_MOD; lia..|exact Hc].
Defined.

(** ** The in-process circular buffer *)

Lemma circular_next (n : nat) : usize (1 + Z.of_nat n mod 8) mod 8 = Z.of_nat (S n) mod 8.
Proof.
  unfold usize, SIZE_MOD. change (2 ^ 64) with 18446744073709551616.
  Z.div_mod_to_equations. lia.
Qed.

Lemma circular_create : CircularBuffer.holds [] 0 CircularBuffer.create.
Proof.
  split; [|done]. split; simpl; try done; try lia.
  intros j Hj _.
  apply (lookup_replicate_2 8 CircularBuffer.SENTINELVALUE (Z.to_nat j)). lia.
Qed.

Lemma circular_push hist nread self v :
  CircularBuffer.holds hist nread self →
  (length hist < nread + 8)%nat → v ≠ CircularBuffer.SENTINELVALUE →
  ∃ self', CircularBuffer.push v self = Some (true, self') ∧
           CircularBuffer.holds (hist ++ [v]) nread self'.
Proof.
  intros [[Hlen Hri Hpend Hfull Hempty] Hwi] Hroom Hv.
  unfold CircularBuffer.push. rewrite Hwi, Hlen.
  rewrite decide_True by (Z.div_mod_to_equations; lia).
  eexists. split; [reflexivity|]. split; [split|]; simpl.
  - by rewrite length_insert.
  - done.
  - rewrite length_app. simpl. lia.
  - intros i x Hi Hlook.
    destruct (decide (i = length hist)) as [->|Hne].
    + rewrite lookup_app_r, Nat.sub_diag in Hlook by lia. injection Hlook as <-.
      split; [done|]. apply list_lookup_insert_eq. rewrite Hlen.
      Z.div_mod_to_equations. lia.
    + assert (i < length hist)%nat as Hlt.
      { apply lookup_lt_Some in Hlook. rewrite length_app in Hlook. simpl in Hlook. lia. }
      rewrite lookup_app_l in Hlook by done.
      destruct (Hfull i x Hi Hlook) as [Hx Hcell]. split; [done|].
      rewrite list_lookup_insert_ne; [done|].
      Z.div_mod_to_equations. lia.
  - intros j Hj Hfree. rewrite length_app in Hfree. simpl in Hfree.
    rewrite list_lookup_insert_ne.
    + apply Hempty; [done|]. intros i Hi. apply Hfree. lia.
    + specialize (Hfree (length hist) ltac:(lia)).
      Z.div_mod_to_equations. lia.
  - rewrite length_app. simpl.
    replace (length hist + 1)%nat with (S (length hist)) by lia.
    apply circular_next.
Qed.

Lemma circular_pop hist nread self d :
  CircularBuffer.cells hist nread self →
  match hist !! nread with
  | Some v =>
      ∃ self', CircularBuffer.pop d self = Some (true, v, self') ∧
               CircularBuffer.cells hist (S nread) self' ∧
               CircularBuffer.write_index_ self' = CircularBuffer.write_index_ self
  | None => CircularBuffer.pop d self = Some (false, d, self)
  end.
Proof.
  intros [Hlen Hri Hpend Hfull Hempty]. unfold CircularBuffer.pop.
  rewrite Hri. rewrite decide_True by (Z.div_mod_to_equations; lia).
  destruct (hist !! nread) as [v|] eqn:Hlook.
  - destruct (Hfull nread v ltac:(lia) Hlook) as [Hv Hcell].
    rewrite Hcell. simpl. rewrite decide_True by done.
    eexists. split; [reflexivity|]. split; [|done].
    apply lookup_lt_Some in Hlook as Hlt.
    split; simpl.
    + by rewrite length_insert.
    + apply circular_next.
    + lia.
    + intros i x Hi Hlooki.
      destruct (Hfull i x ltac:(lia) Hlooki) as [Hx Hcelli]. split; [done|].
      apply lookup_lt_Some in Hlooki.
      rewrite list_lookup_insert_ne; [done|].
      Z.div_mod_to_equations. lia.
    + intros j Hj Hfree.
      destruct (decide (j = Z.of_nat nread mod 8)) as [->|Hne].
      * apply list_lookup_insert_eq. rewrite Hlen. Z.div_mod_to_equations. lia.
      * rewrite list_lookup_insert_ne by (Z.div_mod_to_equations; lia).
        apply Hempty; [done|]. intros i Hi.
        destruct (decide (i = nread)) as [->|Hin]; [done|]. apply Hfree. lia.
  - apply lookup_ge_None in Hlook.
    rewrite (Hempty (Z.of_nat nread mod 8)); [|Z.div_mod_to_equations; lia|intros i Hi; lia].
    simpl. try rewrite decide_False by (intros H; by apply H). done.
Qed.

Lemma circular_run ops :
  ∀ hist nread self,
    CircularBuffer.holds hist nread self →
    CircularBuffer.fits ops (length hist - nread) = true →
    ∃ evs self',
      CircularBuffer.run ops self = Some (evs, self') ∧
      CircularBuffer.holds (hist ++ CircularBuffer.pushed evs)
        (nread + length (CircularBuffer.popped evs)) self' ∧
      CircularBuffer.popped evs
      = take (length (CircularBuffer.popped evs))
          (drop nread (hist ++ CircularBuffer.pushed evs)).
Proof.
  induction ops as [|[v|d] ops IH]; intros hist nread self Hholds Hfits.
  - exists [], self. simpl. rewrite app_nil_r, Nat.add_0_r. done.
  - simpl in Hfits. apply andb_prop in Hfits as [Hfits Hrest].
    apply andb_prop in Hfits as [Hv Hroom].
    apply bool_decide_eq_true in Hv, Hroom.
    pose proof (CircularBuffer.cells_pending _ _ _ (proj1 Hholds)) as Hpend.
    destruct (circular_push hist nread self v Hholds ltac:(lia) Hv) as (self1 & Hpush & H1).
    destruct (IH (hist ++ [v]) nread self1 H1) as (evs & self2 & Hrun & H2 & Hpop).
    { rewrite length_app. simpl.
      replace (length hist + 1 - nread)%nat with (S (length hist - nread)) by lia. done. }
    exists (CircularBuffer.Pushed v true :: evs), self2. simpl.
    rewrite Hpush. simpl. rewrite Hrun. simpl.
    rewrite <- app_assoc in H2, Hpop. done.
  - simpl in Hfits.
    pose proof (circular_pop hist nread self d (proj1 Hholds)) as Hpop.
    pose proof (CircularBuffer.cells_pending _ _ _ (proj1 Hholds)) as Hpend.
    destruct (hist !! nread) as [v|] eqn:Hlook.
    + destruct Hpop as (self1 & Hpop & Hcells & Hwi).
      apply lookup_lt_Some in Hlook as Hlt.
      destruct (IH hist (S nread) self1) as (evs & self2 & Hrun & H2 & Hpopped).
      { split; [done|]. rewrite Hwi. apply Hholds. }
      { replace (length hist - S nread)%nat with (pred (length hist - nread)) by lia. done. }
      exists (CircularBuffer.Popped true v :: evs), self2. simpl.
      rewrite Hpop. simpl. rewrite Hrun. simpl.
      replace (nread + S (length (CircularBuffer.popped evs)))%nat
        with (S nread + length (CircularBuffer.popped evs))%nat by lia.
      split; [done|]. split; [done|].
      rewrite (drop_S _ v nread); [|by apply lookup_app_l_Some].
      simpl. by rewrite <- Hpopped.
    + apply lookup_ge_None in Hlook.
      destruct (IH hist nread self Hholds) as (evs & self2 & Hrun & H2 & Hpopped).
      { replace (length hist - nread)%nat with 0%nat in * by lia. done. }
      exists (CircularBuffer.Popped false d :: evs), self2. simpl.
      rewrite Hpop. simpl. rewrite Hrun. simpl. done.
Qed.

(** X20. The buffer is a first-in first-out queue of eight values for as
    long as the sentinel [INT_MIN] is never pushed and no push meets a
    full buffer: from the constructor's state every call of such a
    sequence stays inside the array, and the values handed out by the
    successful pops are, in order, the first values that were pushed. *)
Theorem circular_buffer_fifo ops :
  CircularBuffer.fits ops 0 = true →
  ∃ evs self',
    CircularBuffer.run ops CircularBuffer.create = Some (evs, self') ∧
    CircularBuffer.popped evs
    = take (length (CircularBuffer.popped evs)) (CircularBuffer.pushed evs) ∧
    0 <= CircularBuffer.read_index_ self' < 8 ∧
    0 <= CircularBuffer.write_index_ self' < 8.
Proof.
  intros Hfits.
  destruct (circular_run ops [] 0 CircularBuffer.create circular_create Hfits)
    as (evs & self' & Hrun & [Hcells Hwi] & Hpopped).
  exists evs, self'. split; [done|]. split; [done|].
  rewrite Hwi, (CircularBuffer.cells_read _ _ _ Hcells).
  Z.div_mod_to_equations. lia.
Qed.

Lemma circular_buffer_fifo_witness :
  ∃ self',
    CircularBuffer.run
      [CircularBuffer.Push 0; CircularBuffer.Pop 7; CircularBuffer.Pop 7; CircularBuffer.Push 1]
      CircularBuffer.create
    = Some ([CircularBuffer.Pushed 0 true; CircularBuffer.Popped true 0;
             CircularBuffer.Popped false 7; CircularBuffer.Pushed 1 true], self').
Proof.
  destruct (circular_buffer_fifo
              [CircularBuffer.Push 0; CircularBuffer.Pop 7; CircularBuffer.Pop 7;
               CircularBuffer.Push 1]) as (evs & self' & Hrun & _);
    [vm_compute; reflexivity|].
  exists self'. rewrite Hrun. vm_compute in Hrun. injection Hrun as <- _. reflexivity.
Defined.

Lemma circular_run_app ops1 ops2 :
  ∀ self,
    CircularBuffer.run (ops1 ++ ops2) self
    = match CircularBuffer.run ops1 self with
      | Some (evs1, self1) =>
          match CircularBuffer.run ops2 self1 with
          | Some (evs2, self2) => Some (evs1 ++ evs2, self2)
          | None => None
          end
      | None => None
      end.
Proof.
  induction ops1 as [|[v|d] ops1 IH]; intros self; simpl.
  - by destruct (CircularBuffer.run ops2 self) as [[evs2 self2]|].
  - destruct (CircularBuffer.push v self) as [[ok self1]|]; [|done]. simpl.
    rewrite IH. destruct (CircularBuffer.run ops1 self1) as [[evs1 self2]|]; [|done]. simpl.
    by destruct (CircularBuffer.run ops2 self2) as [[evs2 self3]|].
  - destruct (CircularBuffer.pop d self) as [[[ok d'] self1]|]; [|done]. simpl.
    rewrite IH. destruct (CircularBuffer.run ops1 self1) as [[evs1 self2]|]; [|done]. simpl.
    by destruct (CircularBuffer.run ops2 self2) as [[evs2 self3]|].
Qed.

Lemma circular_pushed_app evs1 evs2 :
  CircularBuffer.pushed (evs1 ++ evs2)
  = CircularBuffer.pushed evs1 ++ CircularBuffer.pushed evs2.
Proof.
  induction evs1 as [|[v [|]|ok v] evs1 IH]; simpl; [done| |done..]. by rewrite IH.
Qed.

Lemma circular_popped_app evs1 evs2 :
  CircularBuffer.popped (evs1 ++ evs2)
  = CircularBuffer.popped evs1 ++ CircularBuffer.popped evs2.
Proof.
  induction evs1 as [|[v ok|[|] v] evs1 IH]; simpl; [done|done| |done]. by rewrite IH.
Qed.

Lemma circular_pushed_pushes l :
  CircularBuffer.pushed ((λ x, CircularBuffer.Pushed x true) <$> l) = l.
Proof. induction l as [|x l IH]; [done|]. rewrite fmap_cons. simpl. by rewrite IH. Qed.

Lemma circular_popped_pushes l :
  CircularBuffer.popped ((λ x, CircularBuffer.Pushed x true) <$> l) = [].
Proof. induction l as [|x l IH]; [done|]. rewrite fmap_cons. simpl. by rewrite IH. Qed.

Lemma circular_pushes vs :
  ∀ hist nread self,
    CircularBuffer.holds hist nread self →
    (length hist + length vs <= nread + 8)%nat →
    Forall (λ v, v ≠ CircularBuffer.SENTINELVALUE) vs →
    ∃ self',
      CircularBuffer.run (CircularBuffer.Push <$> vs) self
      = Some ((λ v, CircularBuffer.Pushed v true) <$> vs, self') ∧
      CircularBuffer.holds (hist ++ vs) nread self'.
Proof.
  induction vs as [|v vs IH]; intros hist nread self Hholds Hroom Hvs.
  - exists self. rewrite app_nil_r. done.
  - apply Forall_cons in Hvs as [Hv Hvs]. simpl in Hroom.
    destruct (circular_push hist nread self v Hholds ltac:(lia) Hv) as (self1 & Hpush & H1).
    destruct (IH (hist ++ [v]) nread self1 H1) as (self2 & Hrun & H2); [|done|].
    { rewrite length_app. simpl. lia. }
    exists self2. rewrite !fmap_cons. cbn [CircularBuffer.run].
    rewrite Hpush. cbn [mbind option_bind]. rewrite Hrun. cbn [mbind option_bind].
    by rewrite <- app_assoc in H2.
Qed.

Lemma circular_pops k d :
  ∀ hist nread self,
    CircularBuffer.cells hist nread self →
    ∃ evs self',
      CircularBuffer.run (replicate k (CircularBuffer.Pop d)) self = Some (evs, self') ∧
      CircularBuffer.pushed evs = [] ∧
      CircularBuffer.popped evs = take k (drop nread hist) ∧
      ((length hist - nread < k)%nat → last evs = Some (CircularBuffer.Popped false d)).
Proof.
  induction k as [|k IH]; intros hist nread self Hcells.
  - exists [], self. simpl. split_and!; try done. lia.
  - pose proof (circular_pop hist nread self d Hcells) as Hpop.
    pose proof (CircularBuffer.cells_pending _ _ _ Hcells) as Hpend.
    destruct (hist !! nread) as [v|] eqn:Hlook.
    + destruct Hpop as (self1 & Hpop & Hcells1 & _).
      apply lookup_lt_Some in Hlook as Hlt.
      destruct (IH hist (S nread) self1 Hcells1) as (evs & self2 & Hrun & Hpu & Hpo & Hlast).
      exists (CircularBuffer.Popped true v :: evs), self2. simpl.
      rewrite Hpop. simpl. rewrite Hrun. simpl. split_and!; try done.
      * rewrite (drop_S _ v nread) by done. simpl. by rewrite Hpo.
      * intros Hk. specialize (Hlast ltac:(lia)).
        destruct evs; [done|]. done.
    + apply lookup_ge_None in Hlook.
      destruct (IH hist nread self Hcells) as (evs & self2 & Hrun & Hpu & Hpo & Hlast).
      exists (CircularBuffer.Popped false d :: evs), self2. simpl.
      rewrite Hpop. simpl. rewrite Hrun. simpl. split_and!; try done.
      * rewrite drop_ge in Hpo |- * by lia. by rewrite take_nil in Hpo |- *.
      * intros _. destruct k as [|k].
        { simpl in Hrun. injection Hrun as <- _. done. }
        specialize (Hlast ltac:(lia)). destruct evs; [done|]. done.
Qed.

Lemma circular_push_full hist nread self v :
  CircularBuffer.holds hist nread self →
  length hist = (nread + 8)%nat → v ≠ CircularBuffer.SENTINELVALUE →
  ∃ self', CircularBuffer.push v self = Some (true, self') ∧
           CircularBuffer.cells (<[nread := v]> hist) nread self'.
Proof.
  intros [[Hlen Hri Hpend Hfull Hempty] Hwi] Hfullq Hv.
  unfold CircularBuffer.push. rewrite Hwi, Hlen.
  rewrite decide_True by (Z.div_mod_to_equations; lia).
  eexists. split; [reflexivity|]. split; simpl.
  - by rewrite length_insert.
  - done.
  - rewrite length_insert. lia.
  - intros i x Hi Hlook.
    destruct (decide (i = nread)) as [->|Hne].
    + rewrite list_lookup_insert_eq in Hlook by lia. injection Hlook as <-.
      split; [done|].
      replace (Z.to_nat (Z.of_nat (length hist) mod 8)) with (Z.to_nat (Z.of_nat nread mod 8))
        by (rewrite Hfullq; f_equal; Z.div_mod_to_equations; lia).
      apply list_lookup_insert_eq. rewrite Hlen. Z.div_mod_to_equations. lia.
    + rewrite list_lookup_insert_ne in Hlook by done.
      destruct (Hfull i x Hi Hlook) as [Hx Hcell]. split; [done|].
      apply lookup_lt_Some in Hlook.
      rewrite list_lookup_insert_ne; [done|].
      Z.div_mod_to_equations. lia.
  - intros j Hj Hfree. rewrite length_insert in Hfree.
    exfalso.
    assert (∃ i : nat, (nread <= i < length hist)%nat ∧ Z.of_nat i mod 8 = j) as (i & Hi & Hij).
    { destruct (decide (Z.of_nat nread mod 8 <= j)).
      - exists (nread + Z.to_nat (j - Z.of_nat nread mod 8))%nat.
        split; [Z.div_mod_to_equations; lia|]. Z.div_mod_to_equations. lia.
      - exists (nread + Z.to_nat (8 + j - Z.of_nat nread mod 8))%nat.
        split; [Z.div_mod_to_equations; lia|]. Z.div_mod_to_equations. lia. }
    by apply (Hfree i).
Qed.

(** X21. A push onto a full buffer is not refused: it returns [true],
    overwrites the oldest value that was not yet popped, and the pops
    that follow hand out the newest value first.  After eight pushes and
    a ninth, nine pops return the ninth value, then the second to the
    eighth; the first value is lost and the last pop returns [false]. *)
Theorem circular_buffer_overflow vs v d :
  length vs = 8%nat →
  Forall (λ x, x ≠ CircularBuffer.SENTINELVALUE) vs → v ≠ CircularBuffer.SENTINELVALUE →
  ∃ evs self',
    CircularBuffer.run
      ((CircularBuffer.Push <$> vs) ++ [CircularBuffer.Push v]
       ++ replicate 9 (CircularBuffer.Pop d)) CircularBuffer.create
    = Some (evs, self') ∧
    CircularBuffer.pushed evs = vs ++ [v] ∧
    CircularBuffer.popped evs = v :: drop 1 vs ∧
    last evs = Some (CircularBuffer.Popped false d).
Proof.
  intros Hlen Hvs Hv.
  destruct (circular_pushes vs [] 0 CircularBuffer.create circular_create)
    as (self1 & Hrun1 & H1); [simpl; lia|done|].
  simpl in H1.
  destruct (circular_push_full vs 0 self1 v H1 ltac:(lia) Hv) as (self2 & Hpush & H2).
  destruct (circular_pops 9 d _ _ _ H2) as (evs3 & self3 & Hrun3 & Hpu3 & Hpo3 & Hlast3).
  eexists _, self3. rewrite circular_run_app, Hrun1.
  change ([CircularBuffer.Push v] ++ replicate 9 (CircularBuffer.Pop d))
    with (CircularBuffer.Push v :: replicate 9 (CircularBuffer.Pop d)).
  cbn [CircularBuffer.run]. rewrite Hpush. cbn [mbind option_bind].
  rewrite Hrun3. cbn [mbind option_bind]. split; [reflexivity|].
  rewrite circular_pushed_app, circular_popped_app, circular_pushed_pushes,
    circular_popped_pushes.
  cbn [CircularBuffer.pushed CircularBuffer.popped app]. rewrite Hpu3, Hpo3.
  split; [done|]. split.
  - destruct vs as [|x vs]; [done|]. simpl. rewrite drop_0.
    rewrite take_ge; [done|]. simpl in *. lia.
  - rewrite last_app, last_cons. rewrite length_insert in Hlast3.
    rewrite (Hlast3 ltac:(lia)). done.
Qed.

Lemma circular_buffer_overflow_witness :
  ∃ evs self',
    CircularBuffer.run
      ((CircularBuffer.Push <$> [10; 11; 12; 13; 14; 15; 16; 17]) ++ [CircularBuffer.Push 18]
       ++ replicate 9 (CircularBuffer.Pop 0)) CircularBuffer.create
    = Some (evs, self') ∧
    CircularBuffer.pushed evs = [10; 11; 12; 13; 14; 15; 16; 17] ++ [18] ∧
    CircularBuffer.popped evs = 18 :: drop 1 [10; 11; 12; 13; 14; 15; 16; 17] ∧
    last evs = Some (CircularBuffer.Popped false 0).
Proof.
  apply (circular_buffer_overflow [10; 11; 12; 13; 14; 15; 16; 17] 18 0);
    [reflexivity|repeat constructor; discriminate|discriminate].
Defined.

Lemma circular_pushes_behind vs :
  ∀ (k : nat) self,
    (1 <= k)%nat → (k + length vs <= 8)%nat →
    length (CircularBuffer.underlying_array_ self) = 8%nat →
    CircularBuffer.read_index_ self = 0 →
    CircularBuffer.underlying_array_ self !! 0%nat = Some CircularBuffer.SENTINELVALUE →
    CircularBuffer.write_index_ self = Z.of_nat k mod 8 →
    ∃ self',
      CircularBuffer.run (CircularBuffer.Push <$> vs) self
      = Some ((λ v, CircularBuffer.Pushed v true) <$> vs, self') ∧
      CircularBuffer.read_index_ self' = 0 ∧
      CircularBuffer.underlying_array_ self' !! 0%nat = Some CircularBuffer.SENTINELVALUE.
Proof.
  induction vs as [|v vs IH]; intros k self Hk Hroom Hlen Hri Hcell Hwi.
  - by exists self.
  - simpl in Hroom. rewrite fmap_cons. cbn [CircularBuffer.run].
    unfold CircularBuffer.push. rewrite Hwi, Hlen.
    rewrite decide_True by (Z.div_mod_to_equations; lia).
    cbn [mbind option_bind].
    edestruct (IH (S k)) as (self' & Hrun & Hri' & Hcell'); cycle 6.
    { rewrite Hrun. cbn [mbind option_bind]. exists self'. by rewrite fmap_cons. }
    + lia.
    + lia.
    + simpl. by rewrite length_insert.
    + done.
    + simpl. rewrite list_lookup_insert_ne; [done|]. Z.div_mod_to_equations. lia.
    + simpl. apply circular_next.
Qed.

(** X22. The sentinel is a value the buffer cannot carry.  When
    [INT_MIN] is pushed into the empty buffer, the push returns [true],
    but a pop that follows returns [false] and leaves [existingData]
    alone, also after up to seven further pushes of any values: what was
    pushed after the sentinel stays out of reach of the reader. *)
Theorem circular_buffer_sentinel vs d :
  (length vs <= 7)%nat →
  ∃ evs self',
    CircularBuffer.run
      (CircularBuffer.Push CircularBuffer.SENTINELVALUE :: (CircularBuffer.Push <$> vs)
       ++ [CircularBuffer.Pop d]) CircularBuffer.create
    = Some (evs, self') ∧
    CircularBuffer.pushed evs = CircularBuffer.SENTINELVALUE :: vs ∧
    CircularBuffer.popped evs = [] ∧
    last evs = Some (CircularBuffer.Popped false d).
Proof.
  intros Hlen. cbn [CircularBuffer.run].
  change (CircularBuffer.push CircularBuffer.SENTINELVALUE CircularBuffer.create)
    with (Some (true,
                {| CircularBuffer.underlying_array_ := replicate 8 CircularBuffer.SENTINELVALUE;
                   CircularBuffer.read_index_ := 0;
                   CircularBuffer.write_index_ := 1 |})).
  cbn [mbind option_bind]. rewrite circular_run_app.
  edestruct (circular_pushes_behind vs 1) as (self1 & Hrun & Hri & Hcell); cycle 6.
  { rewrite Hrun. cbn [CircularBuffer.run]. unfold CircularBuffer.pop.
    rewrite Hri, decide_True by lia. change (Z.to_nat 0) with 0%nat. rewrite Hcell.
    cbn [mbind option_bind]. rewrite decide_False by (intros H; by apply H).
    cbn [mbind option_bind].
    eexists _, _. split; [reflexivity|].
    cbn [CircularBuffer.pushed CircularBuffer.popped].
    rewrite circular_pushed_app, circular_popped_app, circular_pushed_pushes,
      circular_popped_pushes. simpl. rewrite app_nil_r.
    split; [done|]. split; [done|].
    rewrite last_cons, last_app. done. }
  all: simpl; try done; lia.
Qed.

Lemma circular_buffer_sentinel_witness :
  ∃ evs self',
    CircularBuffer.run
      (CircularBuffer.Push CircularBuffer.SENTINELVALUE :: (CircularBuffer.Push <$> [1; 2])
       ++ [CircularBuffer.Pop 0]) CircularBuffer.create
    = Some (evs, self') ∧
    CircularBuffer.pushed evs = CircularBuffer.SENTINELVALUE :: [1; 2] ∧
    CircularBuffer.popped evs = [] ∧
    last evs = Some (CircularBuffer.Popped false 0).
Proof. apply (circular_buffer_sentinel [1; 2] 0). simpl. lia. Defined.

(** ** The decoder of the 32-bit PDU *)

Lemma shiftr_land_field pdu mask shift width :
  0 <= shift → 0 <= width <= 8 → Z.shiftr mask shift = Z.ones width →
  CustomPdu.u8 (Z.shiftr (Z.land pdu mask) shift) = (pdu / 2 ^ shift) mod 2 ^ width.
Proof.
  intros Hs Hw Hmask. unfold CustomPdu.u8.
  rewrite Z.shiftr_land, Hmask, Z.land_ones, Z.shiftr_div_pow2 by lia.
  assert (0 < 2 ^ width) by (apply Z.pow_pos_nonneg; lia).
  assert (2 ^ width <= 2 ^ 8) by (apply Z.pow_le_mono_r; lia).
  pose proof (Z.mod_pos_bound (pdu / 2 ^ shift) (2 ^ width) ltac:(lia)).
  apply Z.mod_small. lia.
Qed.

Lemma flag_bit four (k : Z) :
  0 <= four < 16 → (k = 1 ∨ k = 2 ∨ k = 3) →
  bool_decide (Z.land (Z.shiftl 1 k) four > 0) = bool_decide ((four / 2 ^ k) mod 2 = 1).
Proof.
  intros Hfour Hk.
  assert (four = 0 ∨ four = 1 ∨ four = 2 ∨ four = 3 ∨ four = 4 ∨ four = 5 ∨ four = 6
          ∨ four = 7 ∨ four = 8 ∨ four = 9 ∨ four = 10 ∨ four = 11 ∨ four = 12
          ∨ four = 13 ∨ four = 14 ∨ four = 15) as H by lia.
  destruct Hk as [->|[->| ->]];
    repeat (destruct H as [->|H]; [vm_compute; reflexivity|]); subst; vm_compute; reflexivity.
Qed.

(** The decoded fields in terms of quotients and remainders. *)
Lemma decode_fields pdu :
  CustomPdu.decode pdu
  = {| CustomPdu.packet_type := CustomPdu.type_of_bits ((pdu / 2 ^ 28) mod 2 ^ 4);
       CustomPdu.src_id := (pdu / 2 ^ 20) mod 2 ^ 8;
       CustomPdu.dest_id := (pdu / 2 ^ 12) mod 2 ^ 8;
       CustomPdu.flags :=
         {| CustomPdu.high_prio := bool_decide ((pdu / 2 ^ 11) mod 2 = 1);
            CustomPdu.ack_required := bool_decide ((pdu / 2 ^ 10) mod 2 = 1);
            CustomPdu.error_flag := bool_decide ((pdu / 2 ^ 9) mod 2 = 1);
            CustomPdu.reserved := false |};
       CustomPdu.payload_data := pdu mod 2 ^ 8 |}.
Proof.
  unfold CustomPdu.decode, CustomPdu.get_packet_type, CustomPdu.get_src_ecu_id,
    CustomPdu.get_dest_ecu_id, CustomPdu.get_pdu_flags, CustomPdu.get_pdu_payload_data.
  rewrite (Z.land_comm CustomPdu.PACKET_TYPE_BIT_MASK),
    (Z.land_comm CustomPdu.PAYLOAD_DATA_BIT_MASK).
  rewrite (shiftr_land_field pdu _ _ 4), (shiftr_land_field pdu _ _ 8),
    (shiftr_land_field pdu _ _ 8), (shiftr_land_field pdu _ _ 4),
    (shiftr_land_field pdu _ _ 8) by (done || (unfold CustomPdu.PACKET_TYPE_RIGHT_SHIFT,
      CustomPdu.SRC_ECU_RIGHT_SHIFT, CustomPdu.DEST_ECU_RIGHT_SHIFT,
      CustomPdu.PDU_FLAGS_RIGHT_SHIFT, CustomPdu.PAYLOAD_DATA_RIGHT_SHIFT; lia)).
  unfold CustomPdu.PACKET_TYPE_RIGHT_SHIFT, CustomPdu.SRC_ECU_RIGHT_SHIFT,
    CustomPdu.DEST_ECU_RIGHT_SHIFT, CustomPdu.PDU_FLAGS_RIGHT_SHIFT,
    CustomPdu.PAYLOAD_DATA_RIGHT_SHIFT.
  set (four := (pdu / 2 ^ 8) mod 2 ^ 4).
  assert (Hfour : 0 <= four < 16) by (apply Z.mod_pos_bound; lia).
  rewrite !flag_bit by (done || lia).
  change (2 ^ 0) with 1. rewrite Z.div_1_r.
  f_equal. f_equal; apply bool_decide_ext; unfold four;
    change (2 ^ 1) with 2; change (2 ^ 2) with 4; change (2 ^ 3) with 8;
    change (2 ^ 4) with 16; change (2 ^ 8) with 256; change (2 ^ 9) with 512;
    change (2 ^ 10) with 1024; change (2 ^ 11) with 2048;
    Z.div_mod_to_equations; lia.
Qed.

(** X23. The layout of the word: a word assembled from a 4-bit packet
    type, an 8-bit source, an 8-bit destination, four flag bits and an
    8-bit payload, from the most significant bit down, decodes to these
    fields; of the flag bits the upper three are reported and the lowest
    is not. *)
Theorem decode_assembled t s d f p :
  0 <= t < 16 → 0 <= s < 256 → 0 <= d < 256 → 0 <= f < 16 → 0 <= p < 256 →
  CustomPdu.decode (t * 2 ^ 28 + s * 2 ^ 20 + d * 2 ^ 12 + f * 2 ^ 8 + p)
  = {| CustomPdu.packet_type := CustomPdu.type_of_bits t;
       CustomPdu.src_id := s;
       CustomPdu.dest_id := d;
       CustomPdu.flags :=
         {| CustomPdu.high_prio := Z.testbit f 3;
            CustomPdu.ack_required := Z.testbit f 2;
            CustomPdu.error_flag := Z.testbit f 1;
            CustomPdu.reserved := false |};
       CustomPdu.payload_data := p |}.
Proof.
  intros Ht Hs Hd Hf Hp. rewrite decode_fields.
  set (pdu := t * 2 ^ 28 + s * 2 ^ 20 + d * 2 ^ 12 + f * 2 ^ 8 + p).
  assert (Hbits : ∀ k, 0 <= k → Z.testbit f k = bool_decide ((f / 2 ^ k) mod 2 = 1)).
  { intros k Hk. pose proof (Z.testbit_spec' f k Hk) as Hspec.
    destruct (Z.testbit f k); simpl in Hspec.
    - by rewrite bool_decide_eq_true_2.
    - rewrite bool_decide_eq_false_2; [done|]. rewrite <- Hspec. done. }
  rewrite !Hbits by lia.
  assert (H28 : (pdu / 2 ^ 28) mod 2 ^ 4 = t).
  { unfold pdu. change (2 ^ 28) with 268435456. change (2 ^ 20) with 1048576.
    change (2 ^ 12) with 4096. change (2 ^ 8) with 256. change (2 ^ 4) with 16.
    Z.div_mod_to_equations. lia. }
  assert (H20 : (pdu / 2 ^ 20) mod 2 ^ 8 = s).
  { unfold pdu. change (2 ^ 28) with 268435456. change (2 ^ 20) with 1048576.
    change (2 ^ 12) with 4096. change (2 ^ 8) with 256.
    Z.div_mod_to_equations. lia. }
  assert (H12 : (pdu / 2 ^ 12) mod 2 ^ 8 = d).
  { unfold pdu. change (2 ^ 28) with 268435456. change (2 ^ 20) with 1048576.
    change (2 ^ 12) with 4096. change (2 ^ 8) with 256.
    Z.div_mod_to_equations. lia. }
  assert (H0 : pdu mod 2 ^ 8 = p).
  { unfold pdu. change (2 ^ 28) with 268435456. change (2 ^ 20) with 1048576.
    change (2 ^ 12) with 4096. change (2 ^ 8) with 256.
    Z.div_mod_to_equations. lia. }
  assert (Hfl : ∀ k, (k = 1 ∨ k = 2 ∨ k = 3) →
                     bool_decide ((pdu / 2 ^ (8 + k)) mod 2 = 1)
                     = bool_decide ((f / 2 ^ k) mod 2 = 1)).
  { intros k Hk. apply bool_decide_ext. unfold pdu.
    destruct Hk as [->|[->| ->]]; simpl Z.add;
      change (2 ^ 28) with 268435456; change (2 ^ 20) with 1048576;
      change (2 ^ 12) with 4096; change (2 ^ 8) with 256; change (2 ^ 9) with 512;
      change (2 ^ 10) with 1024; change (2 ^ 11) with 2048;
      change (2 ^ 1) with 2; change (2 ^ 2) with 4; change (2 ^ 3) with 8;
      Z.div_mod_to_equations; lia. }
  rewrite H28, H20, H12, H0.
  rewrite <- (Hfl 3), <- (Hfl 2), <- (Hfl 1) by lia. done.
Qed.

Lemma decode_assembled_witness :
  CustomPdu.decode (1 * 2 ^ 28 + 10 * 2 ^ 20 + 11 * 2 ^ 12 + 12 * 2 ^ 8 + 255)
  = {| CustomPdu.packet_type := CustomPdu.type_of_bits 1;
       CustomPdu.src_id := 10;
       CustomPdu.dest_id := 11;
       CustomPdu.flags :=
         {| CustomPdu.high_prio := Z.testbit 12 3;
            CustomPdu.ack_required := Z.testbit 12 2;
            CustomPdu.error_flag := Z.testbit 12 1;
            CustomPdu.reserved := false |};
       CustomPdu.payload_data := 255 |}.
Proof. apply decode_assembled; lia. Defined.

(** X24. What the decoder does not tell apart.  Bit 8 of the word, the
    fourth flag, is never read: [reserved] is [false] in every decoded
    PDU, and setting bit 8 changes nothing in the result.  The twelve
    packet types from 4 to 15 all decode to [Reserved]. *)
Theorem decode_blind_spots pdu :
  is_u32 pdu →
  CustomPdu.reserved (CustomPdu.flags (CustomPdu.decode pdu)) = false ∧
  ((pdu / 2 ^ 8) mod 2 = 0 → CustomPdu.decode (pdu + 2 ^ 8) = CustomPdu.decode pdu) ∧
  (4 <= pdu / 2 ^ 28 → CustomPdu.packet_type (CustomPdu.decode pdu) = CustomPdu.Reserved).
Proof.
  intros [Hlo Hhi]. unfold UINT32_MOD in Hhi. rewrite !decode_fields. simpl.
  split; [done|]. split.
  - intros Hbit.
    change (2 ^ 28) with 268435456 in *. change (2 ^ 20) with 1048576 in *.
    change (2 ^ 12) with 4096 in *. change (2 ^ 8) with 256 in *.
    change (2 ^ 9) with 512 in *. change (2 ^ 10) with 1024 in *.
    change (2 ^ 11) with 2048 in *. change (2 ^ 4) with 16 in *.
    change (2 ^ 32) with 4294967296 in *.
    f_equal; [f_equal| | |f_equal; apply bool_decide_ext|];
      Z.div_mod_to_equations; lia.
  - intros Htype. change (2 ^ 32) with 4294967296 in Hhi.
    change (2 ^ 28) with 268435456 in *. change (2 ^ 4) with 16.
    assert (pdu / 268435456 < 16) by (Z.div_mod_to_equations; lia).
    rewrite Z.mod_small by lia.
    assert (pdu / 268435456 = 4 ∨ pdu / 268435456 = 5 ∨ pdu / 268435456 = 6
            ∨ pdu / 268435456 = 7 ∨ pdu / 268435456 = 8 ∨ pdu / 268435456 = 9
            ∨ pdu / 268435456 = 10 ∨ pdu / 268435456 = 11 ∨ pdu / 268435456 = 12
            ∨ pdu / 268435456 = 13 ∨ pdu / 268435456 = 14 ∨ pdu / 268435456 = 15) as H'
      by lia.
    repeat (destruct H' as [->|H']; [reflexivity|]). by rewrite H'.
Qed.

Lemma decode_blind_spots_witness :
  CustomPdu.decode (0x1A0B0CFF + 2 ^ 8) = CustomPdu.decode 0x1A0B0CFF ∧
  CustomPdu.packet_type (CustomPdu.decode 0x4A0B0CFF) = CustomPdu.Reserved.
Proof.
  split.
  - apply (decode_blind_spots 0x1A0B0CFF); [unfold is_u32, UINT32_MOD; lia|reflexivity].
  - apply (decode_blind_spots 0x4A0B0CFF); [unfold is_u32, UINT32_MOD; lia|].
    vm_compute. discriminate.
Defined.

(** ** The parser of the SOME/IP header *)

Lemma lor_mul_byte a k b :
  0 <= a → 8 <= k → Z.lor (a * 2 ^ k) (Z_of_byte b) = a * 2 ^ k + Z_of_byte b.
Proof.
  intros Ha Hk. pose proof (Z_of_byte_range b) as Hb.
  rewrite <- Z.lxor_lor, <- Z.add_nocarry_lxor; [done| |].
  all: apply Z.bits_inj'; intros n Hn; rewrite Z.land_spec, Z.bits_0;
    destruct (decide (n < k)).
  all: try (rewrite Z.mul_pow2_bits_low by lia; done).
  all: rewrite (Z.bits_above_log2 (Z_of_byte b) n), andb_false_r; [done|lia|].
  all: destruct (decide (Z_of_byte b = 0)) as [->|]; [simpl; lia|].
  all: apply Z.log2_lt_pow2; [lia|].
  all: assert (2 ^ 8 <= 2 ^ n) by (apply Z.pow_le_mono_r; lia); lia.
Qed.

Lemma concatenate_two v (i : nat) b0 b1 :
  v !! i = Some b0 → v !! S i = Some b1 →
  SomeIp.concatenate_bytes v (Z.of_nat i, Z.of_nat i + 1)
  = Some (Z_of_byte b0 * 2 ^ 8 + Z_of_byte b1).
Proof.
  intros H0 H1. unfold SomeIp.concatenate_bytes.
  replace (Z.of_nat i + 1 - Z.of_nat i) with 1 by lia.
  rewrite decide_False by (vm_compute; discriminate).
  change (seqZ (Z.of_nat i) (1 + 1)) with [0 + Z.of_nat i; 1 + Z.of_nat i].
  cbn [SomeIp.concatenate_loop].
  replace (Z.to_nat (0 + Z.of_nat i)) with i by lia.
  replace (Z.to_nat (1 + Z.of_nat i)) with (S i) by lia.
  rewrite H0, H1. cbn [mbind option_bind].
  pose proof (Z_of_byte_range b0) as Hb0.
  change (Z.shiftl 0 0) with 0. change (usize 0) with 0. rewrite Z.lor_0_l.
  change ((0 + 8) mod 2 ^ 8) with 8.
  rewrite Z.shiftl_mul_pow2 by lia.
  unfold usize, SIZE_MOD. rewrite Z.mod_small by lia.
  rewrite lor_mul_byte by lia. done.
Qed.

Lemma concatenate_four v (i : nat) b0 b1 b2 b3 :
  v !! i = Some b0 → v !! S i = Some b1 →
  v !! S (S i) = Some b2 → v !! S (S (S i)) = Some b3 →
  SomeIp.concatenate_bytes v (Z.of_nat i, Z.of_nat i + 3)
  = Some (Z_of_byte b0 * 2 ^ 48 + Z_of_byte b1 * 2 ^ 40 + Z_of_byte b2 * 2 ^ 24
          + Z_of_byte b3).
Proof.
  intros H0 H1 H2 H3. unfold SomeIp.concatenate_bytes.
  replace (Z.of_nat i + 3 - Z.of_nat i) with 3 by lia.
  rewrite decide_False by (vm_compute; discriminate).
  change (seqZ (Z.of_nat i) (3 + 1))
    with [0 + Z.of_nat i; 1 + Z.of_nat i; 2 + Z.of_nat i; 3 + Z.of_nat i].
  cbn [SomeIp.concatenate_loop].
  replace (Z.to_nat (0 + Z.of_nat i)) with i by lia.
  replace (Z.to_nat (1 + Z.of_nat i)) with (S i) by lia.
  replace (Z.to_nat (2 + Z.of_nat i)) with (S (S i)) by lia.
  replace (Z.to_nat (3 + Z.of_nat i)) with (S (S (S i))) by lia.
  rewrite H0, H1, H2, H3. cbn [mbind option_bind].
  pose proof (Z_of_byte_range b0) as Hb0. pose proof (Z_of_byte_range b1) as Hb1.
  pose proof (Z_of_byte_range b2) as Hb2. pose proof (Z_of_byte_range b3) as Hb3.
  change (Z.shiftl 0 0) with 0. change (usize 0) with 0. rewrite Z.lor_0_l.
  change ((0 + 8) mod 2 ^ 8) with 8. change ((8 + 8) mod 2 ^ 8) with 16.
  change ((16 + 8) mod 2 ^ 8) with 24.
  assert (Hsmall : ∀ a k, 0 <= a → 0 <= k → a * 2 ^ k < 2 ^ 64 →
                          usize (Z.shiftl a k) = a * 2 ^ k).
  { intros a k Ha Hk Hlt. unfold usize, SIZE_MOD. rewrite Z.shiftl_mul_pow2 by lia.
    apply Z.mod_small. split; [|done]. apply Z.mul_nonneg_nonneg; [done|].
    apply Z.pow_nonneg. lia. }
  change (2 ^ 64) with 18446744073709551616 in Hsmall.
  change (2 ^ 8) with 256 in Hsmall. change (2 ^ 16) with 65536 in Hsmall.
  change (2 ^ 24) with 16777216 in Hsmall.
  rewrite (Hsmall (Z_of_byte b0) 8), lor_mul_byte by lia.
  change (2 ^ 8) with 256.
  rewrite (Hsmall (Z_of_byte b0 * 256 + Z_of_byte b1) 16), lor_mul_byte by lia.
  change (2 ^ 16) with 65536.
  rewrite (Hsmall ((Z_of_byte b0 * 256 + Z_of_byte b1) * 65536 + Z_of_byte b2) 24),
    lor_mul_byte by lia.
  change (2 ^ 48) with 281474976710656. change (2 ^ 40) with 1099511627776.
  change (2 ^ 24) with 16777216. f_equal. lia.
Qed.

(** X25. [concatenate_bytes] joins two bytes with the first one as the
    more significant, but the shift grows with every byte, so four bytes
    [b0 b1 b2 b3] give [b0 * 2^48 + b1 * 2^40 + b2 * 2^24 + b3] and not the
    32-bit big-endian value.  A range of more than four bytes, or one
    whose end lies before its start (the distance wraps around in
    [size_t]), gives [UINT64_MAX] without a byte being read. *)
Theorem concatenate_bytes_values :
  (∀ v (i : nat) b0 b1,
     v !! i = Some b0 → v !! S i = Some b1 →
     SomeIp.concatenate_bytes v (Z.of_nat i, Z.of_nat i + 1)
     = Some (Z_of_byte b0 * 2 ^ 8 + Z_of_byte b1))
  ∧
  (∀ v (i : nat) b0 b1 b2 b3,
     v !! i = Some b0 → v !! S i = Some b1 →
     v !! S (S i) = Some b2 → v !! S (S (S i)) = Some b3 →
     SomeIp.concatenate_bytes v (Z.of_nat i, Z.of_nat i + 3)
     = Some (Z_of_byte b0 * 2 ^ 48 + Z_of_byte b1 * 2 ^ 40 + Z_of_byte b2 * 2 ^ 24
             + Z_of_byte b3))
  ∧
  (∀ v first second,
     0 <= first < SIZE_MOD - 3 → 0 <= second < SIZE_MOD →
     (second < first ∨ first + 3 < second) →
     SomeIp.concatenate_bytes v (first, second) = Some SomeIp.UINT64_MAX).
Proof.
  split; [apply concatenate_two|]. split; [apply concatenate_four|].
  intros v first second Hf Hs Hrange. unfold SomeIp.concatenate_bytes.
  rewrite decide_True; [done|].
  unfold usize, SIZE_MOD in *. change (2 ^ 64) with 18446744073709551616 in *.
  Z.div_mod_to_equations. lia.
Qed.

Lemma concatenate_bytes_values_witness :
  SomeIp.concatenate_bytes [x12; x34] (Z.of_nat 0, Z.of_nat 0 + 1)
  = Some (Z_of_byte x12 * 2 ^ 8 + Z_of_byte x34) ∧
  SomeIp.concatenate_bytes [x00; x00; x01; x0c] (Z.of_nat 0, Z.of_nat 0 + 3)
  = Some (Z_of_byte x00 * 2 ^ 48 + Z_of_byte x00 * 2 ^ 40 + Z_of_byte x01 * 2 ^ 24
          + Z_of_byte x0c) ∧
  SomeIp.concatenate_bytes [] (0, 4) = Some SomeIp.UINT64_MAX ∧
  SomeIp.concatenate_bytes [] (1, 0) = Some SomeIp.UINT64_MAX.
Proof.
  destruct concatenate_bytes_values as (Htwo & Hfour & Hrange).
  split; [apply Htwo; reflexivity|].
  split; [apply Hfour; reflexivity|].
  split; apply Hrange; unfold SIZE_MOD; lia.
Defined.

(** The header that [get_someip_header_from_byte_vector] leaves, from the
    sixteen bytes at the front of the vector. *)
Lemma header_run b0 b1 b2 b3 b4 b5 b6 b7 b8 b9 b10 b11 b12 b13 b14 b15 rest h :
  let v := b0 :: b1 :: b2 :: b3 :: b4 :: b5 :: b6 :: b7 :: b8 :: b9 :: b10 :: b11
           :: b12 :: b13 :: b14 :: b15 :: rest in
  let m := Z_of_byte b2 * 256 + Z_of_byte b3 in
  let event := bool_decide (128 <= Z_of_byte b2) in
  let id :=
    {| SomeIp.service_id := Z_of_byte b0 * 256 + Z_of_byte b1;
       SomeIp.method_id := if event then SomeIp.method_id (SomeIp.message_id h) else m;
       SomeIp.event_id := if event then m else SomeIp.event_id (SomeIp.message_id h);
       SomeIp.is_event_notification := event |} in
  Z.of_nat (Datatypes.length v) < SIZE_MOD →
  SomeIp.get_someip_header_from_byte_vector v h
  = Some
      (if decide (Z.of_nat (Datatypes.length rest) + 8 = Z_of_byte b7) then
         (true,
          {| SomeIp.message_id := id;
             SomeIp.length := Z_of_byte b7;
             SomeIp.request_id :=
               {| SomeIp.client_id := Z_of_byte b8 * 256 + Z_of_byte b9;
                  SomeIp.session_id := Z_of_byte b10 * 256 + Z_of_byte b11 |};
             SomeIp.protocol_version := Z_of_byte b12;
             SomeIp.iface_version := Z_of_byte b13;
             SomeIp.msg_type := SomeIp.byte_to_msg_type (Z_of_byte b14);
             SomeIp.return_code :=
               match SomeIp.byte_to_msg_type (Z_of_byte b14) with
               | SomeIp.MessageType.RESPONSE | SomeIp.MessageType.ERROR =>
                   if decide (Z_of_byte b15 = 0) then SomeIp.ReturnCode.OK
                   else SomeIp.ReturnCode.NOK
               | _ =>
                   if decide (Z_of_byte b15 = 0) then SomeIp.ReturnCode.NOTAPPLICABLE
                   else SomeIp.ReturnCode.INVALID
               end |})
       else
         (false,
          {| SomeIp.message_id := id;
             SomeIp.length := Z_of_byte b7;
             SomeIp.request_id := SomeIp.request_id h;
             SomeIp.protocol_version := SomeIp.protocol_version h;
             SomeIp.iface_version := SomeIp.iface_version h;
             SomeIp.msg_type := SomeIp.msg_type h;
             SomeIp.return_code := SomeIp.return_code h |})).
Proof.
  intros v m event id Hfits.
  pose proof (Z_of_byte_range b0). pose proof (Z_of_byte_range b1).
  pose proof (Z_of_byte_range b2). pose proof (Z_of_byte_range b3).
  pose proof (Z_of_byte_range b4). pose proof (Z_of_byte_range b5).
  pose proof (Z_of_byte_range b6). pose proof (Z_of_byte_range b7).
  pose proof (Z_of_byte_range b8). pose proof (Z_of_byte_range b9).
  pose proof (Z_of_byte_range b10). pose proof (Z_of_byte_range b11).
  assert (Hsize : Z.of_nat (Datatypes.length v) = Z.of_nat (Datatypes.length rest) + 16)
    by (subst v; cbn [Datatypes.length]; lia).
  assert (Hpair : ∀ (i : nat) x y, v !! i = Some x → v !! S i = Some y →
            SomeIp.u16 <$> SomeIp.concatenate_bytes v (Z.of_nat i, Z.of_nat i + 1)
            = Some (Z_of_byte x * 256 + Z_of_byte y)).
  { intros i x y Hx Hy. rewrite (concatenate_two v i x y Hx Hy). cbn [fmap option_fmap option_map].
    f_equal. pose proof (Z_of_byte_range x). pose proof (Z_of_byte_range y).
    unfold SomeIp.u16. change (2 ^ 8) with 256. change (2 ^ 16) with 65536.
    apply Z.mod_small. lia. }
  assert (H01 := Hpair 0%nat b0 b1 eq_refl eq_refl).
  assert (H23 := Hpair 2%nat b2 b3 eq_refl eq_refl).
  assert (H89 := Hpair 8%nat b8 b9 eq_refl eq_refl).
  assert (Hab := Hpair 10%nat b10 b11 eq_refl eq_refl).
  assert (H47 := concatenate_four v 4%nat b4 b5 b6 b7 eq_refl eq_refl eq_refl eq_refl).
  change (Z.of_nat 0, Z.of_nat 0 + 1) with (0, 1) in H01.
  change (Z.of_nat 2, Z.of_nat 2 + 1) with (2, 3) in H23.
  change (Z.of_nat 8, Z.of_nat 8 + 1) with (8, 9) in H89.
  change (Z.of_nat 10, Z.of_nat 10 + 1) with (10, 11) in Hab.
  change (Z.of_nat 4, Z.of_nat 4 + 3) with (4, 7) in H47.
  destruct (SomeIp.concatenate_bytes v (0, 1)) as [c01|] eqn:E01; [|done].
  destruct (SomeIp.concatenate_bytes v (2, 3)) as [c23|] eqn:E23; [|done].
  destruct (SomeIp.concatenate_bytes v (8, 9)) as [c89|] eqn:E89; [|done].
  destruct (SomeIp.concatenate_bytes v (10, 11)) as [cab|] eqn:Eab; [|done].
  cbn [fmap option_fmap option_map] in H01, H23, H89, Hab.
  injection H01 as H01. injection H23 as H23. injection H89 as H89.
  injection Hab as Hab.
  unfold SomeIp.get_someip_header_from_byte_vector. cbv zeta.
  rewrite decide_True by lia.
  rewrite E01, E23, H47, E89, Eab. cbn [mbind option_bind].
  rewrite H01, H23, H89, Hab. fold m.
  assert (Hlen : SomeIp.u16 (Z_of_byte b4 * 2 ^ 48 + Z_of_byte b5 * 2 ^ 40
                             + Z_of_byte b6 * 2 ^ 24 + Z_of_byte b7) = Z_of_byte b7).
  { unfold SomeIp.u16. change (2 ^ 48) with 281474976710656.
    change (2 ^ 40) with 1099511627776. change (2 ^ 24) with 16777216.
    change (2 ^ 16) with 65536. Z.div_mod_to_equations. lia. }
  rewrite Hlen.
  assert (Hm : 0 <= m < 65536) by (subst m; lia).
  assert (Hmsb : bool_decide (Z.shiftr m 15 = 1) = event).
  { subst event. rewrite Z.shiftr_div_pow2 by lia. change (2 ^ 15) with 32768.
    apply bool_decide_ext. subst m. Z.div_mod_to_equations. lia. }
  assert (Hlow : SomeIp.u16 (Z.shiftr (Z.shiftl m 1) 1) = m).
  { rewrite Z.shiftr_shiftl_l by lia. change (Z.shiftl m (1 - 1)) with m.
    unfold SomeIp.u16. change (2 ^ 16) with 65536. apply Z.mod_small. lia. }
  rewrite Hmsb, Hlow. fold id.
  assert (Husize : usize (Z.of_nat (Datatypes.length v) - 8)
                   = Z.of_nat (Datatypes.length rest) + 8).
  { unfold usize, SIZE_MOD. change (2 ^ 64) with 18446744073709551616.
    unfold SIZE_MOD in Hfits. change (2 ^ 64) with 18446744073709551616 in Hfits.
    rewrite Hsize in *. pose proof (Nat2Z.is_nonneg (Datatypes.length rest)).
    Z.div_mod_to_equations. lia. }
  rewrite Husize.
  destruct (decide (Z.of_nat (Datatypes.length rest) + 8 = Z_of_byte b7)) as [Heq|Hne].
  - rewrite decide_False by (intros Hc; apply Hc; exact Heq).
    change (v !! 12%nat) with (Some b12). change (v !! 13%nat) with (Some b13).
    change (v !! 14%nat) with (Some b14). change (v !! 15%nat) with (Some b15).
    cbn [mbind option_bind]. do 3 f_equal.
    destruct (SomeIp.byte_to_msg_type (Z_of_byte b14)); reflexivity.
  - rewrite decide_True by exact Hne. reflexivity.
Qed.

Lemma header_short v h :
  Z.of_nat (Datatypes.length v) < 16 →
  SomeIp.get_someip_header_from_byte_vector v h = Some (false, h).
Proof.
  intros Hshort. unfold SomeIp.get_someip_header_from_byte_vector. cbv zeta.
  rewrite decide_False by lia. done.
Qed.

Lemma header_sixteen (v : list byte) :
  16 <= Z.of_nat (Datatypes.length v) →
  ∃ b0 b1 b2 b3 b4 b5 b6 b7 b8 b9 b10 b11 b12 b13 b14 b15 rest,
    v = b0 :: b1 :: b2 :: b3 :: b4 :: b5 :: b6 :: b7 :: b8 :: b9 :: b10 :: b11
        :: b12 :: b13 :: b14 :: b15 :: rest.
Proof.
  intros Hlong.
  do 16 (destruct v as [|? v]; [cbn [Datatypes.length] in Hlong; lia|]).
  repeat eexists.
Qed.

(** X26. [get_someip_header_from_byte_vector] reads no byte outside the
    vector.  It accepts a PDU exactly when the vector has at least sixteen
    bytes and the number of bytes behind the length field equals byte 7
    alone: bytes 4 to 6 of the length field do not count, so no PDU of more
    than 263 bytes is accepted.  A vector of fewer than sixteen bytes
    leaves the header as it was; in a PDU that is rejected the request
    id, the two versions, the message type and the return code are as
    they were. *)
Theorem header_acceptance v h :
  Z.of_nat (Datatypes.length v) < SIZE_MOD →
  ∃ ok h',
    SomeIp.get_someip_header_from_byte_vector v h = Some (ok, h') ∧
    (ok = true ↔
       16 <= Z.of_nat (Datatypes.length v) ∧
       ∃ b7, v !! 7%nat = Some b7 ∧ Z.of_nat (Datatypes.length v) = 8 + Z_of_byte b7) ∧
    (ok = true →
       Z.of_nat (Datatypes.length v) <= 263 ∧
       SomeIp.length h' = Z.of_nat (Datatypes.length v) - 8) ∧
    (Z.of_nat (Datatypes.length v) < 16 → h' = h) ∧
    (ok = false →
       SomeIp.request_id h' = SomeIp.request_id h ∧
       SomeIp.protocol_version h' = SomeIp.protocol_version h ∧
       SomeIp.iface_version h' = SomeIp.iface_version h ∧
       SomeIp.msg_type h' = SomeIp.msg_type h ∧
       SomeIp.return_code h' = SomeIp.return_code h).
Proof.
  intros Hfits.
  destruct (decide (Z.of_nat (Datatypes.length v) < 16)) as [Hshort|Hlong].
  - exists false, h. split; [by apply header_short|].
    split; [split; [done|lia]|]. done.
  - destruct (header_sixteen v) as
      (b0 & b1 & b2 & b3 & b4 & b5 & b6 & b7 & b8 & b9 & b10 & b11 & b12 & b13 & b14
       & b15 & rest & ->); [lia|].
    rewrite header_run by exact Hfits.
    pose proof (Z_of_byte_range b7) as Hb7.
    cbn [Datatypes.length] in *.
    destruct (decide (Z.of_nat (Datatypes.length rest) + 8 = Z_of_byte b7)) as [Heq|Hne];
      eexists _, _; (split; [reflexivity|]).
    + split; [split; [intros _; split; [lia|exists b7; split; [done|lia]]|done]|].
      split; [intros _; cbn [SomeIp.length]; lia|]. split; [lia|done].
    + split.
      { split; [done|]. intros (_ & b & Hb & Hlen). exfalso.
        cbn in Hb. injection Hb as <-. lia. }
      split; [done|]. split; [lia|]. done.
Qed.

Lemma header_acceptance_witness :
  ∃ ok h',
    SomeIp.get_someip_header_from_byte_vector
      [x12; x34; x00; x56; x00; x00; x01; x0c; x11; x11; x22; x22; x01; x02; x00; x00;
       xde; xad; xbe; xef]
      {| SomeIp.message_id :=
           {| SomeIp.service_id := 0; SomeIp.method_id := 0; SomeIp.event_id := 0;
              SomeIp.is_event_notification := true |};
         SomeIp.length := 0;
         SomeIp.request_id := {| SomeIp.client_id := 0; SomeIp.session_id := 0 |};
         SomeIp.protocol_version := 0; SomeIp.iface_version := 0;
         SomeIp.msg_type := SomeIp.MessageType.ERROR;
         SomeIp.return_code := SomeIp.ReturnCode.OK |} = Some (ok, h') ∧
    (ok = true → SomeIp.length h' = 20 - 8).
Proof.
  destruct (header_acceptance
      [x12; x34; x00; x56; x00; x00; x01; x0c; x11; x11; x22; x22; x01; x02; x00; x00;
       xde; xad; xbe; xef]
      {| SomeIp.message_id :=
           {| SomeIp.service_id := 0; SomeIp.method_id := 0; SomeIp.event_id := 0;
              SomeIp.is_event_notification := true |};
         SomeIp.length := 0;
         SomeIp.request_id := {| SomeIp.client_id := 0; SomeIp.session_id := 0 |};
         SomeIp.protocol_version := 0; SomeIp.iface_version := 0;
         SomeIp.msg_type := SomeIp.MessageType.ERROR;
         SomeIp.return_code := SomeIp.ReturnCode.OK |})
    as (ok & h' & Hrun & _ & Hlen & _).
  - vm_compute. reflexivity.
  - exists ok, h'. split; [exact Hrun|]. intros Hok. apply Hlen. exact Hok.
Defined.

(** X27. In a header that [get_someip_header_from_byte_vector] accepts,
    bytes 2 and 3 are stored whole: an event id keeps the marker bit (it is
    at least 0x8000) because the shift that should drop it is made in
    [int].  The message type is never [INVALID]: a byte that is not one of
    the five known types reads as [REQUEST], and the PDU is accepted.  The
    return code is [OK] or [NOK] for a response or an error, and
    [NOTAPPLICABLE] or [INVALID] otherwise. *)
Theorem header_fields v h h' b2 b3 b14 b15 :
  Z.of_nat (Datatypes.length v) < SIZE_MOD →
  SomeIp.get_someip_header_from_byte_vector v h = Some (true, h') →
  v !! 2%nat = Some b2 → v !! 3%nat = Some b3 →
  v !! 14%nat = Some b14 → v !! 15%nat = Some b15 →
  let m := Z_of_byte b2 * 256 + Z_of_byte b3 in
  let id := SomeIp.message_id h in
  let id' := SomeIp.message_id h' in
  SomeIp.is_event_notification id' = bool_decide (32768 <= m) ∧
  (32768 <= m → SomeIp.event_id id' = m ∧ SomeIp.method_id id' = SomeIp.method_id id) ∧
  (m < 32768 → SomeIp.method_id id' = m ∧ SomeIp.event_id id' = SomeIp.event_id id) ∧
  SomeIp.msg_type h' ≠ SomeIp.MessageType.INVALID ∧
  (Z_of_byte b14 ∉ [0; 1; 2; 128; 129] →
     SomeIp.msg_type h' = SomeIp.MessageType.REQUEST) ∧
  SomeIp.return_code h'
  = (if bool_decide (Z_of_byte b14 = 128 ∨ Z_of_byte b14 = 129)
     then (if bool_decide (Z_of_byte b15 = 0) then SomeIp.ReturnCode.OK
           else SomeIp.ReturnCode.NOK)
     else (if bool_decide (Z_of_byte b15 = 0) then SomeIp.ReturnCode.NOTAPPLICABLE
           else SomeIp.ReturnCode.INVALID)).
Proof.
  intros Hfits Hrun H2 H3 H14 H15 m id id'.
  destruct (decide (Z.of_nat (Datatypes.length v) < 16)) as [Hshort|Hlong].
  { rewrite header_short in Hrun by exact Hshort. discriminate. }
  destruct (header_sixteen v) as
    (c0 & c1 & c2 & c3 & c4 & c5 & c6 & c7 & c8 & c9 & c10 & c11 & c12 & c13 & c14
     & c15 & rest & ->); [lia|].
  cbn in H2, H3, H14, H15.
  injection H2 as ->. injection H3 as ->. injection H14 as ->. injection H15 as ->.
  rewrite header_run in Hrun by exact Hfits.
  destruct (decide (Z.of_nat (Datatypes.length rest) + 8 = Z_of_byte c7)); [|discriminate].
  injection Hrun as <-. subst id'. cbn [SomeIp.message_id SomeIp.is_event_notification
    SomeIp.event_id SomeIp.method_id SomeIp.msg_type SomeIp.return_code].
  pose proof (Z_of_byte_range b2) as Hb2. pose proof (Z_of_byte_range b3) as Hb3.
  pose proof (Z_of_byte_range b14) as Hb14.
  split; [apply bool_decide_ext; subst m; lia|].
  split. { intros Hm. rewrite bool_decide_true by (subst m; lia). done. }
  split. { intros Hm. rewrite bool_decide_false by (subst m; lia). done. }
  assert (Htype : ∀ z, SomeIp.byte_to_msg_type z ≠ SomeIp.MessageType.INVALID).
  { intros z. unfold SomeIp.byte_to_msg_type.
    repeat (match goal with |- context [match ?x with _ => _ end] => destruct x end);
      discriminate. }
  split; [apply Htype|].
  split.
  { intros Hunknown. rewrite !not_elem_of_cons in Hunknown.
    destruct Hunknown as (? & ? & ? & ? & ? & _).
    unfold SomeIp.byte_to_msg_type.
    repeat (match goal with |- context [match ?x with _ => _ end] => destruct x end);
      done. }
  destruct (decide (Z_of_byte b14 = 128)) as [->|H128].
  { rewrite bool_decide_true by (by left).
    change (SomeIp.byte_to_msg_type 128) with SomeIp.MessageType.RESPONSE.
    cbv iota. by destruct (decide (Z_of_byte b15 = 0));
      [rewrite bool_decide_true|rewrite bool_decide_false]. }
  destruct (decide (Z_of_byte b14 = 129)) as [->|H129].
  { rewrite bool_decide_true by (by right).
    change (SomeIp.byte_to_msg_type 129) with SomeIp.MessageType.ERROR.
    cbv iota. by destruct (decide (Z_of_byte b15 = 0));
      [rewrite bool_decide_true|rewrite bool_decide_false]. }
  rewrite bool_decide_false by (intros [?|?]; done).
  assert (Hother : SomeIp.byte_to_msg_type (Z_of_byte b14) ≠ SomeIp.MessageType.RESPONSE
                   ∧ SomeIp.byte_to_msg_type (Z_of_byte b14) ≠ SomeIp.MessageType.ERROR).
  { unfold SomeIp.byte_to_msg_type.
    repeat (match goal with |- context [match ?x with _ => _ end] => destruct x end);
      (split; [try discriminate|try discriminate]); exfalso; lia. }
  destruct Hother as [Hr He].
  destruct (SomeIp.byte_to_msg_type (Z_of_byte b14)); try done;
    by destruct (decide (Z_of_byte b15 = 0));
      [rewrite bool_decide_true|rewrite bool_decide_false].
Qed.

Lemma header_fields_witness :
  ∃ h',
    SomeIp.event_id (SomeIp.message_id h') = Z_of_byte x80 * 256 + Z_of_byte x56 ∧
    SomeIp.msg_type h' = SomeIp.MessageType.REQUEST.
Proof.
  pose (v := [x12; x34; x80; x56; x00; x00; x00; x0c; x11; x11; x22; x22; x01; x02; x7f;
              x00; xde; xad; xbe; xef]).
  pose (h := {| SomeIp.message_id :=
                  {| SomeIp.service_id := 0; SomeIp.method_id := 0; SomeIp.event_id := 0;
                     SomeIp.is_event_notification := true |};
                SomeIp.length := 0;
                SomeIp.request_id := {| SomeIp.client_id := 0; SomeIp.session_id := 0 |};
                SomeIp.protocol_version := 0; SomeIp.iface_version := 0;
                SomeIp.msg_type := SomeIp.MessageType.ERROR;
                SomeIp.return_code := SomeIp.ReturnCode.OK |}).
  assert (H : ∃ h', SomeIp.get_someip_header_from_byte_vector v h = Some (true, h')).
  { eexists. vm_compute. reflexivity. }
  destruct H as [h' Hrun]. exists h'.
  destruct (header_fields v h h' x80 x56 x7f x00) as (_ & He & _ & _ & Ht & _).
  - vm_compute. reflexivity.
  - exact Hrun.
  - reflexivity.
  - reflexivity.
  - reflexivity.
  - reflexivity.
  - split; [apply He; vm_compute; discriminate|].
    apply Ht. rewrite !not_elem_of_cons.
    split_and!; try (vm_compute; discriminate). apply not_elem_of_nil.
Defined.

(** ** The object pool *)

Lemma pool_create_consistent {T} (n : Z) (x : T) :
  0 <= n → ObjectPool.consistent (ObjectPool.create n x).
Proof.
  intros Hn. unfold ObjectPool.consistent, ObjectPool.create. simpl.
  rewrite length_replicate. lia.
Qed.

Lemma pool_acquire_consistent {T} (self : ObjectPool.t T) :
  ObjectPool.consistent self →
  ∃ obj self', ObjectPool.acquire self = Some (obj, self') ∧
    ObjectPool.consistent self' ∧
    ObjectPool.pool_size_ self' = ObjectPool.pool_size_ self.
Proof.
  intros [Hcount Hsize]. unfold ObjectPool.acquire.
  destruct (decide (ObjectPool.num_objects_in_pool_ self > 0)) as [Hpos|Hzero].
  - destruct (ObjectPool.object_stack_ self) as [|obj rest] eqn:Hstack.
    + simpl in Hcount. lia.
    + exists obj. eexists. split; [reflexivity|]. split; [|done].
      unfold ObjectPool.consistent. simpl in *. lia.
  - exists None, self. done.
Qed.

Lemma pool_release_consistent {T} (object : option T) (self : ObjectPool.t T) :
  ObjectPool.consistent self →
  ObjectPool.consistent (ObjectPool.release object self).2 ∧
  ObjectPool.pool_size_ (ObjectPool.release object self).2 = ObjectPool.pool_size_ self.
Proof.
  intros [Hcount Hsize]. unfold ObjectPool.release.
  destruct (decide (ObjectPool.num_objects_in_pool_ self < ObjectPool.pool_size_ self)).
  - unfold ObjectPool.consistent. simpl. lia.
  - done.
Qed.

Lemma pool_run_consistent {T} (ops : list (ObjectPool.op T)) (self : ObjectPool.t T) :
  ObjectPool.consistent self →
  ∃ evs self', ObjectPool.run ops self = Some (evs, self') ∧
    Datatypes.length evs = Datatypes.length ops ∧
    ObjectPool.consistent self' ∧
    ObjectPool.pool_size_ self' = ObjectPool.pool_size_ self.
Proof.
  revert self. induction ops as [|[|object] ops IH]; intros self Hcons.
  - exists [], self. done.
  - destruct (pool_acquire_consistent self Hcons) as (obj & s1 & Hacq & Hc1 & Hs1).
    destruct (IH s1 Hc1) as (evs & s2 & Hrun & Hlen & Hc2 & Hs2).
    exists (ObjectPool.Acquired obj :: evs), s2.
    cbn [ObjectPool.run]. rewrite Hacq. cbn [mbind option_bind]. rewrite Hrun.
    cbn [mbind option_bind]. split; [done|]. split; [simpl; lia|].
    split; [done|congruence].
  - destruct (pool_release_consistent object self Hcons) as [Hc1 Hs1].
    destruct (ObjectPool.release object self) as [ok s1] eqn:Hrel. simpl in Hc1, Hs1.
    destruct (IH s1 Hc1) as (evs & s2 & Hrun & Hlen & Hc2 & Hs2).
    exists (ObjectPool.Released ok :: evs), s2.
    cbn [ObjectPool.run]. rewrite Hrel. rewrite Hrun.
    cbn [mbind option_bind]. split; [done|]. split; [simpl; lia|].
    split; [done|congruence].
Qed.

(** X28. Whatever calls of [acquire] and [release] are made on a pool of
    [pool_size] objects, in whatever order, every call returns: [acquire]
    never takes the top of an empty stack.  The counter stays equal to the
    height of the stack and between 0 and [pool_size], and [pool_size_]
    does not change. *)
Theorem pool_accounting {T} (pool_size : Z) (new_T : T) (ops : list (ObjectPool.op T)) :
  0 <= pool_size →
  ∃ evs self',
    ObjectPool.run ops (ObjectPool.create pool_size new_T) = Some (evs, self') ∧
    Datatypes.length evs = Datatypes.length ops ∧
    ObjectPool.num_objects_in_pool_ self'
      = Z.of_nat (Datatypes.length (ObjectPool.object_stack_ self')) ∧
    0 <= ObjectPool.num_objects_in_pool_ self' <= pool_size ∧
    ObjectPool.pool_size_ self' = pool_size.
Proof.
  intros Hn.
  destruct (pool_run_consistent ops (ObjectPool.create pool_size new_T))
    as (evs & self' & Hrun & Hlen & [Hcount Hsize] & Hpool).
  { by apply pool_create_consistent. }
  exists evs, self'. simpl in Hpool. rewrite Hpool in Hsize.
  split; [done|]. split; [done|]. split; [done|]. split; [lia|done].
Qed.

Lemma pool_accounting_witness :
  ∃ evs self',
    ObjectPool.run
      [ObjectPool.Acquire; ObjectPool.Acquire; ObjectPool.Acquire;
       ObjectPool.Release (Some 7%nat); ObjectPool.Release None;
       ObjectPool.Release (Some 8%nat)]
      (ObjectPool.create 2 0%nat) = Some (evs, self') ∧
    0 <= ObjectPool.num_objects_in_pool_ self' <= 2.
Proof.
  destruct (pool_accounting 2 0%nat
      [ObjectPool.Acquire; ObjectPool.Acquire; ObjectPool.Acquire;
       ObjectPool.Release (Some 7%nat); ObjectPool.Release None;
       ObjectPool.Release (Some 8%nat)])
    as (evs & self' & Hrun & _ & _ & Hrange & _); [lia|].
  exists evs, self'. split; [exact Hrun|exact Hrange].
Defined.

(** X29. The pool is a stack.  An object released into a pool that is not
    full is the one the next [acquire] returns, and the pool is then as it
    was before; this holds for a null pointer too, so [acquire] can return
    [nullptr] from a pool that is not empty.  An object acquired from a
    pool that is not empty and released again leaves the pool as it was.
    From an empty pool [acquire] returns [nullptr], and a full pool
    refuses a release; neither changes the pool. *)
Theorem pool_lifo {T} (self : ObjectPool.t T) (object : option T) :
  ObjectPool.consistent self →
  (ObjectPool.num_objects_in_pool_ self < ObjectPool.pool_size_ self →
     ObjectPool.run [ObjectPool.Release object; ObjectPool.Acquire] self
     = Some ([ObjectPool.Released true; ObjectPool.Acquired object], self)) ∧
  (0 < ObjectPool.num_objects_in_pool_ self →
     ∃ obj,
       head (ObjectPool.object_stack_ self) = Some obj ∧
       ObjectPool.run [ObjectPool.Acquire; ObjectPool.Release obj] self
       = Some ([ObjectPool.Acquired obj; ObjectPool.Released true], self)) ∧
  (ObjectPool.num_objects_in_pool_ self = 0 →
     ObjectPool.run [ObjectPool.Acquire] self
     = Some ([ObjectPool.Acquired None], self)) ∧
  (ObjectPool.num_objects_in_pool_ self = ObjectPool.pool_size_ self →
     ObjectPool.run [ObjectPool.Release object] self
     = Some ([ObjectPool.Released false], self)).
Proof.
  intros [Hcount Hsize]. destruct self as [stack size count]. simpl in *.
  split_and!.
  - intros Hroom. cbn [ObjectPool.run]. unfold ObjectPool.release. simpl.
    rewrite decide_True by done. unfold ObjectPool.acquire. simpl.
    rewrite decide_True by lia. simpl. do 3 f_equal. lia.
  - intros Hpos. destruct stack as [|obj rest]; [simpl in Hcount; lia|].
    exists obj. split; [done|].
    cbn [ObjectPool.run]. unfold ObjectPool.acquire. simpl.
    rewrite decide_True by lia. simpl. unfold ObjectPool.release. simpl.
    rewrite decide_True by lia. simpl. do 3 f_equal. lia.
  - intros ->. cbn [ObjectPool.run]. unfold ObjectPool.acquire.
    cbn [ObjectPool.num_objects_in_pool_]. rewrite decide_False by lia. done.
  - intros ->. cbn [ObjectPool.run]. unfold ObjectPool.release.
    cbn [ObjectPool.num_objects_in_pool_ ObjectPool.pool_size_].
    rewrite decide_False by lia. done.
Qed.

Lemma pool_lifo_witness :
  ObjectPool.run [ObjectPool.Release None; ObjectPool.Acquire]
    {| ObjectPool.object_stack_ := [Some 5%nat]; ObjectPool.pool_size_ := 2;
       ObjectPool.num_objects_in_pool_ := 1 |}
  = Some ([ObjectPool.Released true; ObjectPool.Acquired None],
          {| ObjectPool.object_stack_ := [Some 5%nat]; ObjectPool.pool_size_ := 2;
             ObjectPool.num_objects_in_pool_ := 1 |}).
Proof.
  apply (pool_lifo
           {| ObjectPool.object_stack_ := [Some 5%nat]; ObjectPool.pool_size_ := 2;
              ObjectPool.num_objects_in_pool_ := 1 |} None).
  - split; simpl; lia.
  - simpl. lia.
Defined.

(** ** The buffer of sensor samples *)

Lemma sensor_create {S} (c : Z) (e : S) :
  1 <= c → sensor_cells c [] (CircularSensorBuffer.create c e).
Proof.
  intros Hc. split; simpl.
  - done.
  - rewrite length_replicate. lia.
  - by rewrite Z.mod_0_l by lia.
  - lia.
  - intros i Hi. lia.
Qed.

Lemma sensor_push {S} (c : Z) (hist : list S) (s : S) self :
  1 <= c < SIZE_MOD → sensor_cells c hist self →
  ∃ self', CircularSensorBuffer.push s self = Some self' ∧
           sensor_cells c (hist ++ [s]) self'.
Proof.
  intros Hc [Hcap Hlen Hhead Hsize Hslots].
  set (n := Z.of_nat (Datatypes.length hist)) in *.
  assert (Hn : 0 <= n) by (subst n; lia).
  assert (Hmod : 0 <= n mod c < c) by (apply Z.mod_pos_bound; lia).
  unfold CircularSensorBuffer.push.
  rewrite decide_True by (rewrite Hhead, Hlen; exact Hmod).
  rewrite decide_False by lia.
  eexists. split; [reflexivity|].
  assert (Hn' : Z.of_nat (Datatypes.length (hist ++ [s])) = n + 1)
    by (rewrite length_app; simpl; lia).
  split; cbn [CircularSensorBuffer.capacity_ CircularSensorBuffer.buffer_
              CircularSensorBuffer.head_ CircularSensorBuffer.size_]; rewrite ?Hn'.
  - done.
  - rewrite length_insert. done.
  - rewrite Hhead, Hcap. unfold usize, SIZE_MOD in *.
    rewrite (Z.mod_small (n mod c + 1)) by lia.
    rewrite Z.add_mod_idemp_l by lia. done.
  - rewrite Hsize, Hcap. destruct (decide (Z.min n c < c)); lia.
  - intros i Hi Hlate. rewrite Hhead.
    destruct (decide (Z.of_nat i = n)) as [Heq|Hne].
    + rewrite Heq. rewrite list_lookup_insert_eq by lia.
      rewrite lookup_app_r by lia.
      replace (i - Datatypes.length hist)%nat with 0%nat by lia. done.
    + assert (Hlt : Z.of_nat i < n) by lia.
      assert (Hi' : 0 <= Z.of_nat i mod c < c) by (apply Z.mod_pos_bound; lia).
      rewrite list_lookup_insert_ne.
      * rewrite lookup_app_l by lia. apply Hslots; lia.
      * intros Hsame. apply Z2Nat.inj in Hsame; [|lia|lia].
        pose proof (Z.div_mod n c ltac:(lia)) as Hdn.
        pose proof (Z.div_mod (Z.of_nat i) c ltac:(lia)) as Hdi.
        rewrite Hsame in Hdn.
        assert (Hdiff : n - Z.of_nat i = c * (n / c - Z.of_nat i / c)) by lia.
        assert (n / c - Z.of_nat i / c <= 0 ∨ 1 <= n / c - Z.of_nat i / c) as [Hq|Hq]
          by lia; nia.
Qed.

Lemma sensor_push_all_app {S} (xs ys : list S) self :
  CircularSensorBuffer.push_all (xs ++ ys) self
  = self' ← CircularSensorBuffer.push_all xs self; CircularSensorBuffer.push_all ys self'.
Proof.
  revert self. induction xs as [|x xs IH]; intros self; [done|].
  cbn [app CircularSensorBuffer.push_all].
  destruct (CircularSensorBuffer.push x self) as [s1|]; [|done].
  cbn [mbind option_bind]. apply IH.
Qed.

Lemma sensor_push_all {S} (c : Z) (e : S) (samples : list S) :
  1 <= c < SIZE_MOD →
  ∃ self, CircularSensorBuffer.push_all samples (CircularSensorBuffer.create c e)
          = Some self ∧ sensor_cells c samples self.
Proof.
  intros Hc. induction samples as [|s samples IH] using rev_ind.
  - eexists. split; [reflexivity|]. apply sensor_create. lia.
  - destruct IH as (s1 & Hrun & Hcells).
    destruct (sensor_push c samples s s1 Hc Hcells) as (s2 & Hpush & Hcells').
    exists s2. split; [|done].
    rewrite sensor_push_all_app, Hrun. cbn [mbind option_bind CircularSensorBuffer.push_all].
    rewrite Hpush. done.
Qed.

(** X30. After any number of samples was pushed into a buffer of capacity
    [c >= 1], [get_all] returns [min(n, c)] samples.  While no more than
    [c] samples were pushed these are the samples in the order pushed.
    After that, the sample pushed as number [i] (counted from 0, one of
    the last [c]) stands at position [i mod c]: the list starts with the
    slot 0 and not with the oldest sample kept. *)
Theorem sensor_buffer_contents {S} (c : Z) (e : S) (samples : list S) :
  1 <= c < SIZE_MOD →
  ∃ self all,
    CircularSensorBuffer.push_all samples (CircularSensorBuffer.create c e) = Some self ∧
    CircularSensorBuffer.get_all self = Some all ∧
    Z.of_nat (Datatypes.length all) = Z.min (Z.of_nat (Datatypes.length samples)) c ∧
    (Z.of_nat (Datatypes.length samples) <= c → all = samples) ∧
    (∀ i : nat,
       Z.of_nat i < Z.of_nat (Datatypes.length samples) →
       Z.of_nat (Datatypes.length samples) - c <= Z.of_nat i →
       all !! Z.to_nat (Z.of_nat i mod c) = samples !! i).
Proof.
  intros Hc. destruct (sensor_push_all c e samples Hc) as (self & Hrun & Hcells).
  destruct Hcells as [Hcap Hlen Hhead Hsize Hslots].
  set (n := Z.of_nat (Datatypes.length samples)) in *.
  exists self, (take (Z.to_nat (Z.min n c)) (CircularSensorBuffer.buffer_ self)).
  split; [done|]. unfold CircularSensorBuffer.get_all.
  rewrite decide_True by lia. rewrite Hsize. split; [done|].
  assert (Hslot : ∀ i : nat, Z.of_nat i < n → n - c <= Z.of_nat i →
            take (Z.to_nat (Z.min n c)) (CircularSensorBuffer.buffer_ self)
              !! Z.to_nat (Z.of_nat i mod c) = samples !! i).
  { intros i Hi Hlate.
    assert (Hi' : 0 <= Z.of_nat i mod c < c) by (apply Z.mod_pos_bound; lia).
    rewrite lookup_take_lt; [by apply Hslots|].
    destruct (decide (n <= c)) as [Hle|Hgt]; [|lia].
    rewrite Z.mod_small by lia. lia. }
  split; [rewrite length_take; lia|]. split; [|exact Hslot].
  intros Hle. apply list_eq. intros i.
  destruct (decide (Z.of_nat i < n)) as [Hi|Hi].
  - rewrite <- (Hslot i Hi) by lia. rewrite Z.mod_small by lia.
    by rewrite Nat2Z.id.
  - rewrite lookup_take_ge by lia. symmetry. apply lookup_ge_None. lia.
Qed.

Lemma sensor_buffer_contents_witness :
  ∃ self all,
    CircularSensorBuffer.push_all [10; 11; 12]%nat (CircularSensorBuffer.create 2 0%nat)
    = Some self ∧
    CircularSensorBuffer.get_all self = Some all ∧
    all !! Z.to_nat (Z.of_nat 2 mod 2) = [10; 11; 12]%nat !! 2%nat.
Proof.
  destruct (sensor_buffer_contents 2 0%nat [10; 11; 12]%nat)
    as (self & all & Hrun & Hall & _ & _ & Hslot).
  - unfold SIZE_MOD. lia.
  - exists self, all. split; [exact Hrun|]. split; [exact Hall|].
    apply Hslot; simpl; lia.
Defined.
